(** * file-browser: a shallow embedding of the tree builder, the flattening
      index, the control socket and the pane lifecycle, with the properties
      of the specification stated over it.

    Layout: the first part embeds the source, one module per source file
    ([Str] holds the JavaScript string primitives the source calls); the
    second part states and proves the properties. *)

From Stdlib Require Import ZArith List String Ascii Bool Lia DecimalString.
From stdpp Require Import base list strings gmap sorting.

Local Open Scope string_scope.
Local Open Scope list_scope.
Local Open Scope Z_scope.
Set Warnings "-register-all,-clear-no-such-hyp,-notation-for-abbreviation".

(* ===================================================================== *)
(** ** JavaScript string primitives used by the source                    *)
(* ===================================================================== *)

(** A string of the program is held as the UTF-8 bytes of its
    characters, which is what [readFileSync] and [toString] decode
    from. Lengths and indices count UTF-16 code units, as the language
    does, and white space is that of [String.prototype.trim]. *)
Module Str.

Definition LF : ascii := ascii_of_nat 10.
Definition SLASH : ascii := ascii_of_nat 47.
Definition HASH : ascii := ascii_of_nat 35.
Definition QUESTION : ascii := ascii_of_nat 63.
Definition DQUOTE : ascii := ascii_of_nat 34.

(** [s.split(sep)] for a one-character separator: never empty, the empty
    string splits to one empty piece. *)
Fixpoint split (sep : ascii) (s : string) : list string :=
  match s with
  | EmptyString => [EmptyString]
  | String c s' =>
      if Ascii.eqb c sep then EmptyString :: split sep s'
      else match split sep s' with
           | h :: t => String c h :: t
           | [] => [String c EmptyString]
           end
  end.

(** White space as [trim] sees it. A string of the program is held as
    its UTF-8 bytes, so a white-space character is one, two or three
    bytes long. One byte: tab, line feed, vertical tab, form feed,
    carriage return, space. Two bytes: U+00A0. Three bytes: U+1680,
    U+2000 to U+200A, U+2028, U+2029, U+202F, U+205F, U+3000, U+FEFF. *)
Definition isSpace (c : ascii) : bool :=
  let n := nat_of_ascii c in
  ((9 <=? n)%nat && (n <=? 13)%nat) || (n =? 32)%nat.

Definition isSpace2 (c1 c2 : ascii) : bool :=
  (nat_of_ascii c1 =? 194)%nat && (nat_of_ascii c2 =? 160)%nat.

Definition isSpace3 (c1 c2 c3 : ascii) : bool :=
  let a := nat_of_ascii c1 in
  let b := nat_of_ascii c2 in
  let c := nat_of_ascii c3 in
  ((a =? 225)%nat && (b =? 154)%nat && (c =? 128)%nat)
  || ((a =? 226)%nat && (b =? 128)%nat
      && (((128 <=? c)%nat && (c <=? 138)%nat)
          || (c =? 168)%nat || (c =? 169)%nat || (c =? 175)%nat))
  || ((a =? 226)%nat && (b =? 129)%nat && (c =? 159)%nat)
  || ((a =? 227)%nat && (b =? 128)%nat && (c =? 128)%nat)
  || ((a =? 239)%nat && (b =? 187)%nat && (c =? 191)%nat).

(** The string without the white-space characters it starts with, for
    the characters of one, two and three bytes that [p1], [p2] and [p3]
    recognise. *)
Fixpoint stripSpaces (p1 : ascii -> bool) (p2 : ascii -> ascii -> bool)
         (p3 : ascii -> ascii -> ascii -> bool) (s : string) : string :=
  match s with
  | EmptyString => EmptyString
  | String c1 r1 =>
      if p1 c1 then stripSpaces p1 p2 p3 r1
      else match r1 with
           | EmptyString => s
           | String c2 r2 =>
               if p2 c1 c2 then stripSpaces p1 p2 p3 r2
               else match r2 with
                    | EmptyString => s
                    | String c3 r3 =>
                        if p3 c1 c2 c3 then stripSpaces p1 p2 p3 r3 else s
                    end
           end
  end.

Fixpoint reverse (s : string) : string :=
  match s with
  | EmptyString => EmptyString
  | String c s' => reverse s' +:+ String c EmptyString
  end.

Definition trimStart (s : string) : string :=
  stripSpaces isSpace isSpace2 isSpace3 s.

(** From the end the bytes of a character come last byte first. (No
    byte of a character of several bytes is below 128, and their first
    bytes are no continuation bytes, so the end of a string cannot be
    read as white space when it is not.) *)
Definition trimEnd (s : string) : string :=
  reverse (stripSpaces isSpace (fun c2 c1 => isSpace2 c1 c2)
                       (fun c3 c2 c1 => isSpace3 c1 c2 c3) (reverse s)).

Definition trim (s : string) : string := trimEnd (trimStart s).

(** JavaScript truthiness of a string: non-empty. *)
Definition truthy (s : string) : bool :=
  match s with EmptyString => false | _ => true end.

Definition startsWithChar (c : ascii) (s : string) : bool :=
  match s with String d _ => Ascii.eqb d c | EmptyString => false end.

Fixpoint endsWithChar (c : ascii) (s : string) : bool :=
  match s with
  | EmptyString => false
  | String d EmptyString => Ascii.eqb d c
  | String _ s' => endsWithChar c s'
  end.

(** [s.slice(0, -1)] for a string whose last character is of one byte
    (the source cuts a path separator with it). *)
Fixpoint dropLast (s : string) : string :=
  match s with
  | EmptyString => EmptyString
  | String _ EmptyString => EmptyString
  | String c s' => String c (dropLast s')
  end.

(** [s.includes(c)] for a one-character needle. *)
Fixpoint includesChar (c : ascii) (s : string) : bool :=
  match s with
  | EmptyString => false
  | String d s' => Ascii.eqb d c || includesChar c s'
  end.

(** The first [n] bytes of a string, and the rest. *)
Fixpoint take (n : nat) (s : string) : string :=
  match n, s with
  | S n', String c s' => String c (take n' s')
  | _, _ => EmptyString
  end.

Fixpoint drop (n : nat) (s : string) : string :=
  match n, s with
  | S n', String _ s' => drop n' s'
  | _, _ => s
  end.

(** [s.substring(0, n)] and [s.substring(n)]. The index counts UTF-16
    code units: a character of one to three bytes is one unit, and a
    character of four bytes is two, a surrogate pair. An index inside a
    pair cuts it: each half is then held as the three bytes its code
    unit takes when it is encoded like a character. *)
Definition charBytes (c : ascii) : nat :=
  let n := nat_of_ascii c in
  if (n <? 192)%nat then 1%nat
  else if (n <? 224)%nat then 2%nat
  else if (n <? 240)%nat then 3%nat
  else 4%nat.

Definition byteBits (c : ascii) (mask : Z) : Z :=
  Z.land (Z.of_nat (nat_of_ascii c)) mask.

Definition byteOf (n : Z) : ascii := ascii_of_nat (Z.to_nat n).

(** The code point of a character of four bytes, less 0x10000. *)
Definition astralOffset (c1 : ascii) (rest : string) : Z :=
  match rest with
  | String c2 (String c3 (String c4 _)) =>
      Z.shiftl (byteBits c1 7) 18 + Z.shiftl (byteBits c2 63) 12
      + Z.shiftl (byteBits c3 63) 6 + byteBits c4 63 - 65536
  | _ => 0
  end.

Definition codeUnitBytes (u : Z) : string :=
  String (byteOf (224 + Z.shiftr u 12))
    (String (byteOf (128 + Z.land (Z.shiftr u 6) 63))
       (String (byteOf (128 + Z.land u 63)) EmptyString)).

Definition highSurrogate (c1 : ascii) (rest : string) : string :=
  codeUnitBytes (55296 + Z.shiftr (astralOffset c1 rest) 10).

Definition lowSurrogate (c1 : ascii) (rest : string) : string :=
  codeUnitBytes (56320 + Z.land (astralOffset c1 rest) 1023).

Fixpoint substringTo (n : nat) (s : string) : string :=
  match n, s with
  | O, _ => EmptyString
  | _, EmptyString => EmptyString
  | S n', String c s' =>
      if (charBytes c <? 4)%nat then
        String c (take (charBytes c - 1) s')
        +:+ substringTo n' (drop (charBytes c - 1) s')
      else
        match n' with
        | O => highSurrogate c s'
        | S n'' => String c (take 3 s') +:+ substringTo n'' (drop 3 s')
        end
  end.

Fixpoint substringFrom (n : nat) (s : string) : string :=
  match n, s with
  | O, _ => s
  | _, EmptyString => EmptyString
  | S n', String c s' =>
      if (charBytes c <? 4)%nat then substringFrom n' (drop (charBytes c - 1) s')
      else
        match n' with
        | O => lowSurrogate c s' +:+ drop 3 s'
        | S n'' => substringFrom n'' (drop 3 s')
        end
  end.

Fixpoint filterChars (p : ascii -> bool) (s : string) : string :=
  match s with
  | EmptyString => EmptyString
  | String c s' => if p c then String c (filterChars p s') else filterChars p s'
  end.

Definition isAlnum (c : ascii) : bool :=
  let n := nat_of_ascii c in
  ((48 <=? n)%nat && (n <=? 57)%nat)
  || ((65 <=? n)%nat && (n <=? 90)%nat)
  || ((97 <=? n)%nat && (n <=? 122)%nat).

(** [arr.includes(x)] on an array of strings. *)
Definition includes (x : string) (l : list string) : bool :=
  existsb (String.eqb x) l.

(** A stable sort by a three-way comparator, standing for
    [Array.prototype.sort(cmp)]: with a consistent comparator the
    language fixes the result (the stable sorted permutation), and
    insertion from the right computes it. *)
Fixpoint insertBy {A} (cmp : A -> A -> Z) (x : A) (l : list A) : list A :=
  match l with
  | [] => [x]
  | y :: t => if cmp x y <=? 0 then x :: y :: t else y :: insertBy cmp x t
  end.

Fixpoint sortBy {A} (cmp : A -> A -> Z) (l : list A) : list A :=
  match l with
  | [] => []
  | x :: t => insertBy cmp x (sortBy cmp t)
  end.

(** [s.length]: the number of UTF-16 code units of a string held here as
    its UTF-8 bytes. A byte that starts a character of one to three
    bytes counts one unit, one that starts a character of four bytes
    counts two, and a continuation byte counts none. *)
Definition utf16Units (c : ascii) : Z :=
  let n := nat_of_ascii c in
  if (n <? 128)%nat then 1
  else if (n <? 192)%nat then 0
  else if (n <? 240)%nat then 1
  else 2.

Fixpoint jsLength (s : string) : Z :=
  match s with
  | EmptyString => 0
  | String c s' => utf16Units c + jsLength s'
  end.

(** [arr.indexOf(x)] on an array of strings: [-1] where [x] is absent. *)
Fixpoint indexOf (x : string) (l : list string) : Z :=
  match l with
  | [] => -1
  | y :: t =>
      if String.eqb y x then 0
      else let i := indexOf x t in if i =? -1 then -1 else i + 1
  end.

(** [arr.slice(start, end)]: a negative index counts from the end. *)
Definition sliceIndex (len i : Z) : Z :=
  if i <? 0 then Z.max 0 (len + i) else Z.min i len.

Definition slice {A} (l : list A) (start_ end_ : Z) : list A :=
  let len := Z.of_nat (length l) in
  let from := sliceIndex len start_ in
  let to := sliceIndex len end_ in
  List.firstn (Z.to_nat (to - from)) (List.skipn (Z.to_nat from) l).

End Str.

(* ===================================================================== *)
(** ** The host: built-ins of the runtime that the source calls           *)
(* ===================================================================== *)

(** [String.prototype.localeCompare], [Bun.Glob.match], [path.join] and
  [path.relative] are not code of the repository; the embedding takes
  them as an interface. A glob object is represented by its pattern. *)
Class Runtime := {
localeCompare : string -> string -> Z;
globMatch : string -> string -> bool;
join : string -> string -> string;
relative : string -> string -> string;
}.

(** What a comparator must satisfy for [sort] to be specified: the
  relation "compares at most equal" is total and transitive. *)
Class RuntimeLaws (R : Runtime) : Prop := {
localeCompare_total : forall a b, localeCompare a b <= 0 \/ localeCompare b a <= 0;
localeCompare_trans : forall a b c,
    localeCompare a b <= 0 -> localeCompare b c <= 0 -> localeCompare a c <= 0;
}.

(* ===================================================================== *)
(** ** lib/tree.ts                                                        *)
(* ===================================================================== *)

Module Tree.

Inductive GitStatus := StM | StA | StD | StUntracked | StR.

Inductive TreeNode :=
  MkTreeNode (name : string) (path : string) (isDir : bool)
             (children : option (list TreeNode))
             (gitStatus : option GitStatus).

Definition name (n : TreeNode) := let 'MkTreeNode x _ _ _ _ := n in x.
Definition path (n : TreeNode) := let 'MkTreeNode _ x _ _ _ := n in x.
Definition isDir (n : TreeNode) := let 'MkTreeNode _ _ x _ _ := n in x.
Definition children (n : TreeNode) := let 'MkTreeNode _ _ _ x _ := n in x.
Definition gitStatus (n : TreeNode) := let 'MkTreeNode _ _ _ _ x := n in x.

Record WalkOptions := {
  maxDepth : option Z;
  maxEntries : option Z;
  ignorePatterns : option (list string);
}.

Definition noOptions : WalkOptions :=
  {| maxDepth := None; maxEntries := None; ignorePatterns := None |}.

Definition DEFAULT_IGNORE : list string :=
  [".git"; "node_modules"; ".DS_Store"; "__pycache__"; ".claude"].

(** The file system as the builder reads it. [readdirSync] and
    [readFileSync] give [None] where the call throws. *)
Record Dirent := { d_name : string; d_isDirectory : bool }.

Record FileSystem := {
  readdirSync : string -> option (list Dirent);
  existsSync : string -> bool;
  readFileSync : string -> option string;
}.

Section WithRuntime.
Context {R : Runtime}.

Definition parseGitignore (fs : FileSystem) (rootPath : string) : list string :=
  let gitignorePath := join rootPath ".gitignore" in
  if negb (existsSync fs gitignorePath) then []
  else match readFileSync fs gitignorePath with
       | Some content =>
           List.filter
             (fun line => Str.truthy line && negb (Str.startsWithChar Str.HASH line))
             (List.map Str.trim (Str.split Str.LF content))
       | None => []
       end.

Definition shouldIgnore (name relPath : string) (isDir : bool)
           (ignorePatterns : list string) (gitignoreGlobs : list string) : bool :=
  if Str.includes name ignorePatterns then true
  else
    let testPath := if isDir then relPath +:+ "/" else relPath in
    existsb
      (fun glob =>
         globMatch glob testPath || globMatch glob name
         || (isDir && globMatch glob (name +:+ "/")))
      gitignoreGlobs.

(** The comparator of both sorts: directories first, then
    [localeCompare] on the names. *)
Definition compareKind (aIsDir bIsDir : bool) (aName bName : string) : Z :=
  if negb (Bool.eqb aIsDir bIsDir) then (if aIsDir then -1 else 1)
  else localeCompare aName bName.

Definition compareEntries (a b : Dirent) : Z :=
  compareKind (d_isDirectory a) (d_isDirectory b) (d_name a) (d_name b).

Definition compareNodes (a b : TreeNode) : Z :=
  compareKind (isDir a) (isDir b) (name a) (name b).

Section Walk.
Variable fs : FileSystem.
Variable rootPath : string.
Variable maxDepth_ maxEntries_ : Z.
Variable ignorePatterns_ : list string.
Variable gitignoreGlobs : list string.

(** The [for] loop of [walk] over the sorted entries; [recurse] is
    the call [walk(fullPath, depth + 1)], which reads and updates
    the shared counter. [None] only when [recurse] runs out of
    fuel. *)
Fixpoint walkLoop (recurse : string -> Z -> option (list TreeNode * Z))
         (dirPath : string) (entries : list Dirent)
         (nodes : list TreeNode) (entryCount : Z)
  : option (list TreeNode * Z) :=
  match entries with
  | [] => Some (nodes, entryCount)
  | entry :: rest =>
      if entryCount >=? maxEntries_ then Some (nodes, entryCount)
      else
        let fullPath := join dirPath (d_name entry) in
        let relPath := relative rootPath fullPath in
        let isDir := d_isDirectory entry in
        if shouldIgnore (d_name entry) relPath isDir ignorePatterns_ gitignoreGlobs
        then walkLoop recurse dirPath rest nodes entryCount
        else
          let entryCount := entryCount + 1 in
          if isDir then
            match recurse fullPath entryCount with
            | None => None
            | Some (kids, entryCount') =>
                walkLoop recurse dirPath rest
                  (nodes ++ [MkTreeNode (d_name entry) fullPath isDir (Some kids) None])
                  entryCount'
            end
          else
            walkLoop recurse dirPath rest
              (nodes ++ [MkTreeNode (d_name entry) fullPath isDir None None])
              entryCount
  end.

(** [walk(dirPath, depth)] with the counter [entryCount] threaded
    through. The recursion of the source is bounded by [maxDepth];
    [fuel] makes it structural. *)
Fixpoint walk (fuel : nat) (dirPath : string) (depth : Z) (entryCount : Z)
  : option (list TreeNode * Z) :=
  match fuel with
  | O => None
  | S fuel' =>
      if (depth >? maxDepth_) || (entryCount >=? maxEntries_)
      then Some ([], entryCount)
      else
        match readdirSync fs dirPath with
        | None => Some ([], entryCount)
        | Some entries =>
            walkLoop (fun p c => walk fuel' p (depth + 1) c) dirPath
              (Str.sortBy compareEntries entries) [] entryCount
        end
  end.
End Walk.

(** Fuel for a walk that starts at depth 0: one level per depth
    0..maxDepth, and one for the call that only tests the depth. *)
Definition walkFuel (maxDepth_ : Z) : nat := S (Z.to_nat (maxDepth_ + 1)).

(** [walkTree]. The fuel is enough ([walkTree_result] below), so the
    last branch is never taken. *)
Definition walkTree (fs : FileSystem) (rootPath : string) (options : WalkOptions)
  : list TreeNode :=
  let maxDepth_ := default 4 (maxDepth options) in
  let maxEntries_ := default 200 (maxEntries options) in
  let ignorePatterns_ := default DEFAULT_IGNORE (ignorePatterns options) in
  let gitignoreGlobs := parseGitignore fs rootPath in
  match walk fs rootPath maxDepth_ maxEntries_ ignorePatterns_ gitignoreGlobs
             (walkFuel maxDepth_) rootPath 0 0 with
  | Some (nodes, _) => nodes
  | None => []
  end.

(** *** Git-diff mode *)

Record GitFileEntry := { relPath : string; status : GitStatus }.

(** One line of [git status --porcelain -u]: two status characters, a
    separator, the path. *)
Definition parseStatusLine (line : string) : GitFileEntry :=
  let xy := Str.substringTo 2 line in
  let filePath := Str.trim (Str.substringFrom 3 line) in
  let filePath :=
    if Str.endsWithChar Str.SLASH filePath then Str.dropLast filePath else filePath in
  let status :=
    if Str.includesChar Str.QUESTION xy then StUntracked
    else if Str.includesChar "D"%char xy then StD
    else if Str.includesChar "R"%char xy then StR
    else if Str.includesChar "A"%char xy then StA
    else StM in
  {| relPath := filePath; status := status |}.

(** [getGitChanges]: [execOutput] is what [execSync] returned, [None]
    where it threw (not a repository, no git, timeout). *)
Definition getGitChanges (execOutput : option string) : list GitFileEntry :=
  match execOutput with
  | Some output =>
      List.map parseStatusLine
        (List.filter (fun line => Str.truthy (Str.trim line)) (Str.split Str.LF output))
  | None => []
  end.

Record FileItem := { f_name : string; f_relPath : string; f_status : GitStatus }.

(** [DirBucket]: the [Map] keeps insertion order and one entry per key,
    so it is an association list that [mapSet] appends to. *)
Inductive DirBucket :=
  MkBucket (files : list FileItem) (subdirs : list (string * DirBucket)).

Definition emptyBucket : DirBucket := MkBucket [] [].
Definition bucketFiles (b : DirBucket) := let 'MkBucket f _ := b in f.
Definition bucketSubdirs (b : DirBucket) := let 'MkBucket _ d := b in d.

Definition mapHas {V} (k : string) (m : list (string * V)) : bool :=
  existsb (fun kv => String.eqb (fst kv) k) m.

(** The update of the bucket that [get(k)] returns, in place. *)
Fixpoint mapUpdate {V} (k : string) (f : V -> V) (m : list (string * V))
  : list (string * V) :=
  match m with
  | [] => []
  | (k', v) :: t => if String.eqb k' k then (k', f v) :: t else (k', v) :: mapUpdate k f t
  end.

(** The inner loop over [parts[0 .. length-2]] followed by the push
    onto [bucket.files]. *)
Fixpoint addFile (dirs : list string) (file : FileItem) (bucket : DirBucket) : DirBucket :=
  let 'MkBucket files subdirs := bucket in
  match dirs with
  | [] => MkBucket (files ++ [file]) subdirs
  | d :: rest =>
      let subdirs :=
        if mapHas d subdirs then subdirs else subdirs ++ [(d, emptyBucket)] in
      MkBucket files (mapUpdate d (addFile rest file) subdirs)
  end.

Definition topDir (relPath : string) : string :=
  hd EmptyString (Str.split Str.SLASH relPath).

(** One iteration of the loop over [changes]. *)
Definition addChange (root : DirBucket) (change : GitFileEntry) : DirBucket :=
  if Str.includes (topDir (relPath change)) DEFAULT_IGNORE then root
  else
    let parts := Str.split Str.SLASH (relPath change) in
    addFile (removelast parts)
      {| f_name := List.last parts EmptyString;
         f_relPath := relPath change;
         f_status := status change |}
      root.

Definition fileNode (rootPath : string) (file : FileItem) : TreeNode :=
  MkTreeNode (f_name file) (join rootPath (f_relPath file)) false None
             (Some (f_status file)).

Definition dirFullPath (parentPath dirName : string) : string :=
  if Str.truthy parentPath then parentPath +:+ "/" +:+ dirName else dirName.

Fixpoint bucketToNodes (rootPath : string) (bucket : DirBucket) (parentPath : string)
  : list TreeNode :=
  let 'MkBucket files subdirs := bucket in
  let dirNodes :=
    (fix each (l : list (string * DirBucket)) : list TreeNode :=
       match l with
       | [] => []
       | (dirName, subBucket) :: t =>
           MkTreeNode dirName (join rootPath (dirFullPath parentPath dirName)) true
             (Some (bucketToNodes rootPath subBucket (dirFullPath parentPath dirName)))
             None
           :: each t
       end) subdirs in
  Str.sortBy compareNodes (dirNodes ++ List.map (fileNode rootPath) files).

Definition buildGitTree (execOutput : option string) (rootPath : string) : list TreeNode :=
  let changes := getGitChanges execOutput in
  if (Z.of_nat (length changes) =? 0) then []
  else bucketToNodes rootPath (fold_left addChange changes emptyBucket) "".

End WithRuntime.

End Tree.

(* ===================================================================== *)
(** ** components/FileTree.tsx: the flattening index                      *)
(* ===================================================================== *)

Module FileTree.
Import Tree.

Record FlatEntry := {
  node : TreeNode;
  depth : Z;
  prefix : string;
  connector : string;
  parentIndex : Z;
  firstChildIndex : Z;
}.

Definition setFirstChildIndex (v : Z) (e : FlatEntry) : FlatEntry :=
  {| node := node e; depth := depth e; prefix := prefix e; connector := connector e;
     parentIndex := parentIndex e; firstChildIndex := v |}.

Definition isLastOf {A} (rest : list A) : bool :=
  match rest with [] => true | _ => false end.

(** The body of the loop of [walk] for one child: push the entry, then,
    for a node with children, store the index of the next entry and walk
    the children. [flat] is the array the closure appends to. *)
Fixpoint walkNode (nd : TreeNode) (isLast : bool) (depth_ : Z) (prefix_ : string)
         (parentIdx : Z) (flat : list FlatEntry) : list FlatEntry :=
  let connector_ := if isLast then "└── " else "├── " in
  let childPrefix := prefix_ +:+ (if isLast then "    " else "│   ") in
  let myIndex := length flat in
  let flat :=
    flat ++ [{| node := nd; depth := depth_; prefix := prefix_; connector := connector_;
                parentIndex := parentIdx; firstChildIndex := -1 |}] in
  match nd with
  | MkTreeNode _ _ _ (Some ((_ :: _) as kids)) _ =>
      let flat := alter (setFirstChildIndex (Z.of_nat (length flat))) myIndex flat in
      (fix loop (l : list TreeNode) (flat : list FlatEntry) : list FlatEntry :=
         match l with
         | [] => flat
         | c :: rest =>
             loop rest (walkNode c (isLastOf rest) (depth_ + 1) childPrefix
                                 (Z.of_nat myIndex) flat)
         end) kids flat
  | _ => flat
  end.

(** [walk(children, depth, prefix, parentIdx)]. *)
Fixpoint walk (children : list TreeNode) (depth_ : Z) (prefix_ : string)
         (parentIdx : Z) (flat : list FlatEntry) : list FlatEntry :=
  match children with
  | [] => flat
  | c :: rest =>
      walk rest depth_ prefix_ parentIdx
           (walkNode c (isLastOf rest) depth_ prefix_ parentIdx flat)
  end.

Definition flattenTree (nodes : list TreeNode) : list FlatEntry :=
  walk nodes 0 "" (-1) [].

(** [flat[i]] for a JavaScript index: [None] stands for [undefined]. *)
Definition at_ (flat : list FlatEntry) (i : Z) : option FlatEntry :=
  if i <? 0 then None else flat !! Z.to_nat i.

(** [countNodes]: the loop body for one node, then the loop. *)
Fixpoint countNode (nd : TreeNode) : Z :=
  let 'MkTreeNode _ _ _ kids _ := nd in
  1 + match kids with
      | Some l =>
          (fix sum (l : list TreeNode) : Z :=
             match l with [] => 0 | c :: rest => countNode c + sum rest end) l
      | None => 0
      end.

Fixpoint countNodes (nodes : list TreeNode) : Z :=
  match nodes with
  | [] => 0
  | nd :: rest => countNode nd + countNodes rest
  end.

(** *** The cursor and the viewport of [FileTreeApp] *)

(** The keys of [useInput] that move the cursor (arrows or k, j, h, l). *)
Inductive Key := KeyUp | KeyDown | KeyLeft | KeyRight.

(** The cursor after one key, for the flattening [flat] on screen. *)
Definition moveCursor (flat : list FlatEntry) (cursor : Z) (key : Key) : Z :=
  match key with
  | KeyUp => Z.max 0 (cursor - 1)
  | KeyDown => Z.min (Z.of_nat (length flat) - 1) (cursor + 1)
  | KeyLeft =>
      if (Z.of_nat (length flat) >? 0) then
        match at_ flat cursor with
        | Some e => if parentIndex e >=? 0 then parentIndex e else cursor
        | None => cursor
        end
      else cursor
  | KeyRight =>
      if (Z.of_nat (length flat) >? 0) then
        match at_ flat cursor with
        | Some e => if firstChildIndex e >=? 0 then firstChildIndex e else cursor
        | None => cursor
        end
      else cursor
  end.

(** The clamp of [refreshTree] when the cursor is kept: the cursor
    against the new flattening. *)
Definition clampCursor (newFlat : list FlatEntry) (c : Z) : Z :=
  Z.min c (Z.max 0 (Z.of_nat (length newFlat) - 1)).

(** The scroll window, from the rows of the terminal. *)
Definition maxVisibleOf (rows : Z) : Z := rows - 5.

Definition scrollStart (flat : list FlatEntry) (cursor maxVisible : Z) : Z :=
  Z.max 0 (Z.min (cursor - maxVisible / 2) (Z.of_nat (length flat) - maxVisible)).

Definition visibleEntries (flat : list FlatEntry) (cursor maxVisible : Z) : list FlatEntry :=
  Str.slice flat (scrollStart flat cursor maxVisible)
            (scrollStart flat cursor maxVisible + maxVisible).

Definition hiddenBelow (flat : list FlatEntry) (cursor maxVisible : Z) : Z :=
  Z.of_nat (length flat) - (scrollStart flat cursor maxVisible + maxVisible).

(** The horizontal offset for the row under the cursor. *)
Definition dirMark (e : FlatEntry) : Z := if isDir (node e) then 1 else 0.

Definition lineWidth (e : FlatEntry) : Z :=
  Str.jsLength (prefix e) + Str.jsLength (connector e)
  + Str.jsLength (name (node e)) + dirMark e.

Definition hOffset (flat : list FlatEntry) (cursor paneWidth : Z) : Z :=
  if (Z.of_nat (length flat) >? 0) then
    match at_ flat cursor with
    | Some entry =>
        if lineWidth entry >? paneWidth then
          let nameLen := Str.jsLength (name (node entry)) + dirMark entry + 4 in
          Z.max 0 (lineWidth entry - Z.max paneWidth nameLen)
        else 0
    | None => 0
    end
  else 0.

End FileTree.


(* ===================================================================== *)
(** ** ipc.ts: the control socket                                         *)
(* ===================================================================== *)

Module Ipc.

Section WithJSON.
(** [JSON.parse] is the runtime's: a value type and a parser that gives
    [None] where the call throws. The cast [as ControllerMessage] checks
    nothing, so every value that parses is handed on. *)
Variable JSON : Type.
Variable JSON_parse : string -> option JSON.

(** *** Server: the [data] handler of [createIPCServer]

    The handler keeps nothing between two calls. Its effect is the list
    of values handed to [onMessage], in order; a line whose parse throws
    is skipped by the empty [catch]. *)
Definition serverData (data : string) : list JSON :=
  flat_map
    (fun line =>
       if Str.truthy (Str.trim line)
       then match JSON_parse line with Some msg => [msg] | None => [] end
       else [])
    (Str.split Str.LF data).

(** A connection is the sequence of its reads. *)
Definition serverReads (reads : list string) : list JSON :=
  flat_map serverData reads.

(** *** Client: [sendCommand]

    The promise and the closure variables of one call. [settled] is the
    value the promise was resolved with ([Some None] for [null]); a
    second [resolve] changes nothing. [timeoutArmed] says whether the
    3000 ms timer can still fire. *)
Record Client := {
  buffer : string;
  timeoutArmed : bool;
  settled : option (option JSON);
}.

Definition resolve (v : option JSON) (c : Client) : Client :=
  match settled c with
  | None => {| buffer := buffer c; timeoutArmed := timeoutArmed c; settled := Some v |}
  | Some _ => c
  end.

Definition clearTimeout (c : Client) : Client :=
  {| buffer := buffer c; timeoutArmed := false; settled := settled c |}.

Definition appendBuffer (s : string) (c : Client) : Client :=
  {| buffer := buffer c +:+ s; timeoutArmed := timeoutArmed c; settled := settled c |}.

(** What the event loop can deliver to one call of [sendCommand]. *)
Inductive Event :=
| EvOpen                    (* connected: the message is written *)
| EvData (data : string)    (* bytes arrived *)
| EvClose
| EvError
| EvConnectFailed           (* the promise of [Bun.connect] rejected *)
| EvTimerFires.             (* 3000 ms passed since the call *)

(** The loop of the [data] handler over the lines of the buffer. *)
Fixpoint dataLines (lines : list string) (c : Client) : Client :=
  match lines with
  | [] => c
  | line :: rest =>
      if Str.truthy (Str.trim line) then
        let c := clearTimeout c in
        match JSON_parse line with
        | Some msg => resolve (Some msg) c
        | None => dataLines rest c
        end
      else dataLines rest c
  end.

Definition step (c : Client) (ev : Event) : Client :=
  match ev with
  | EvOpen => c
  | EvData data =>
      let c := appendBuffer data c in
      dataLines (Str.split Str.LF (buffer c)) c
  | EvClose | EvError | EvConnectFailed => resolve None (clearTimeout c)
  | EvTimerFires =>
      if timeoutArmed c then resolve None (clearTimeout c) else c
  end.

Definition sendCommandStart : Client :=
  {| buffer := EmptyString; timeoutArmed := true; settled := None |}.

Definition run (events : list Event) : Client :=
  fold_left step events sendCommandStart.

End WithJSON.

Definition getSocketPath (id : string) : string :=
  "/tmp/file-browser-" +:+ id +:+ ".sock".

(** *** Server: the client set and [broadcast]

    [clients] is the [Set] of connected sockets: it keeps insertion
    order and holds a socket once. [written] records, in order, what was
    written to which socket. *)
Section Server.
Context {Socket : Type} `{EqDecision Socket}.
Context {Msg : Type} (JSON_stringify : Msg -> string).

Record Server := {
  clients : list Socket;
  written : list (Socket * string);
}.

Definition setAdd (x : Socket) (l : list Socket) : list Socket :=
  if decide (x ∈ l) then l else l ++ [x].

Definition setDelete (x : Socket) (l : list Socket) : list Socket :=
  filter (fun y => y <> x) l.

Inductive ServerEvent :=
| SocketOpen (socket : Socket)
| SocketClose (socket : Socket)
| Broadcast (msg : Msg).

Definition broadcast (msg : Msg) (srv : Server) : Server :=
  let data := JSON_stringify msg +:+ String Str.LF EmptyString in
  {| clients := clients srv;
     written := written srv ++ List.map (fun client => (client, data)) (clients srv) |}.

Definition serverStep (srv : Server) (ev : ServerEvent) : Server :=
  match ev with
  | SocketOpen socket => {| clients := setAdd socket (clients srv); written := written srv |}
  | SocketClose socket => {| clients := setDelete socket (clients srv); written := written srv |}
  | Broadcast msg => broadcast msg srv
  end.

Definition serverStart : Server := {| clients := []; written := [] |}.

Definition serverRun (events : list ServerEvent) : Server :=
  fold_left serverStep events serverStart.

End Server.

Arguments buffer {JSON}.
Arguments timeoutArmed {JSON}.
Arguments settled {JSON}.

End Ipc.

(* ===================================================================== *)
(** ** terminal.ts: the pane lifecycle                                    *)
(* ===================================================================== *)

Module Terminal.

(** What the lifecycle reads and changes: the environment, the tmux
    executable, the files under /tmp, the panes of the multiplexer, and
    what the program wrote to the standard error. [tmuxBinary] says
    whether [spawn("tmux", ...)] finds the executable; [currentPane] is
    the output of the query for the current pane (empty where the query
    fails); [splitWindow] is the exit code and the output the next
    [split-window] gives; [tmuxLog] records the calls that act on
    panes. A tmux process that starts also ends; reading a file that
    exists succeeds. *)
Record World := {
  env_TMUX : bool;
  tmuxBinary : bool;
  scriptDir : string;
  files : gmap string string;
  panes : gset string;
  currentPane : string;
  splitWindow : Z * string;
  tmuxLog : list (list string);
  stderr : list string;
}.

Definition setFiles (f : gmap string string) (w : World) : World :=
  {| env_TMUX := env_TMUX w; tmuxBinary := tmuxBinary w; scriptDir := scriptDir w;
     files := f; panes := panes w;
     currentPane := currentPane w; splitWindow := splitWindow w;
     tmuxLog := tmuxLog w; stderr := stderr w |}.

Definition setPanes (p : gset string) (w : World) : World :=
  {| env_TMUX := env_TMUX w; tmuxBinary := tmuxBinary w; scriptDir := scriptDir w;
     files := files w; panes := p;
     currentPane := currentPane w; splitWindow := splitWindow w;
     tmuxLog := tmuxLog w; stderr := stderr w |}.

Definition tmux (args : list string) (w : World) : World :=
  {| env_TMUX := env_TMUX w; tmuxBinary := tmuxBinary w; scriptDir := scriptDir w;
     files := files w; panes := panes w;
     currentPane := currentPane w; splitWindow := splitWindow w;
     tmuxLog := tmuxLog w ++ [args]; stderr := stderr w |}.

Definition consoleError (msg : string) (w : World) : World :=
  {| env_TMUX := env_TMUX w; tmuxBinary := tmuxBinary w; scriptDir := scriptDir w;
     files := files w; panes := panes w;
     currentPane := currentPane w; splitWindow := splitWindow w;
     tmuxLog := tmuxLog w; stderr := stderr w ++ [msg] |}.

(** An asynchronous function of the module, awaited to its end: the
    world it leaves and the value its promise resolved with. [None]
    stands for an uncaught exception: a child process emitted 'error'
    (the executable is missing) and no listener was attached, so the
    process dies there, and what was awaiting never continues. (What
    the runtime prints about the exception is not the program's and is
    not recorded in [stderr].) *)
Definition Async (A : Type) : Type := World -> World * option A.

Definition ret {A} (a : A) : Async A := fun w => (w, Some a).

Definition bind {A B} (m : Async A) (k : A -> Async B) : Async B :=
  fun w =>
    match m w with
    | (w', Some a) => k a w'
    | (w', None) => (w', None)
    end.

Definition reads {A} (f : World -> A) : Async A := fun w => (w, Some (f w)).

Definition writes (f : World -> World) : Async unit := fun w => (f w, Some tt).

Declare Scope async_scope.
Delimit Scope async_scope with async.
Notation "'let*' x := m 'in' k" := (bind m (fun x => k))
  (at level 10, x name, m at level 100, k at level 200, only parsing) : async_scope.
Notation "'await' m 'in' k" := (bind m (fun _ => k))
  (at level 10, m at level 100, k at level 200, only parsing) : async_scope.
Local Open Scope async_scope.

(** The world an asynchronous function leaves, and whether it ended by
    returning. *)
Definition after {A} (m : Async A) (w : World) : World := fst (m w).
Definition returned {A} (m : Async A) (w : World) : bool :=
  match snd (m w) with Some _ => true | None => false end.

(** [spawn("tmux", args)] with listeners for 'close' only, for a call
    that acts on panes. *)
Definition spawnTmux (args : list string) : Async unit :=
  fun w => if tmuxBinary w then (tmux args w, Some tt) else (w, None).

Definition detectTmux (w : World) : bool := env_TMUX w.

Definition getPaneIdFile (sourcePaneId : string) : string :=
  "/tmp/file-browser-pane-" +:+ Str.filterChars Str.isAlnum sourcePaneId.

(** [null] is [None]. *)
Definition readPaneId (paneIdFile : string) (w : World) : option string :=
  match files w !! paneIdFile with
  | Some content => Some (Str.trim content)
  | None => None
  end.

Definition savePaneId (paneIdFile id : string) (w : World) : World :=
  setFiles (<[paneIdFile := id]> (files w)) w.

Definition clearPaneId (paneIdFile : string) (w : World) : World :=
  setFiles (delete paneIdFile (files w)) w.

(** [paneExists] listens for 'error' and resolves [false] there, so it
    cannot fail: with the executable missing no pane is found. *)
Definition paneExists (paneId : string) (w : World) : bool :=
  tmuxBinary w && bool_decide (paneId ∈ panes w).

(** What the query for the current pane resolves with when it runs. *)
Definition paneQuery (w : World) : string := Str.trim (currentPane w).

(** [getCurrentPaneId] attaches no listener for 'error'. *)
Definition getCurrentPaneId : Async string :=
  fun w => if tmuxBinary w then (w, Some (paneQuery w)) else (w, None).

(** [if (x)] on a [string | null]. *)
Definition truthyId (x : option string) : bool :=
  match x with Some s => Str.truthy s | None => false end.

Definition buildShowCommand (cwd : string) (w : World) : string :=
  "bun run " +:+ scriptDir w +:+ "/cli.ts show --cwd '" +:+ cwd +:+ "'".

Definition reusePane (paneId cwd : string) : Async unit :=
  await spawnTmux ["send-keys"; "-t"; paneId; "C-c"; EmptyString] in
  let* command := reads (buildShowCommand cwd) in
  spawnTmux ["send-keys"; "-t"; paneId; "clear && " +:+ command; "Enter"].

Definition selectPane (paneId : string) : Async unit :=
  spawnTmux ["select-pane"; "-t"; paneId].

(** A split that succeeds makes the pane it names. *)
Definition createNewPane (cwd sourcePaneId paneIdFile : string) : Async (option string) :=
  let* command := reads (buildShowCommand cwd) in
  await spawnTmux ["split-window"; "-h"; "-p"; "25"; "-d"; "-P"; "-F"; "#{pane_id}"; command] in
  let* answer := reads splitWindow in
  let '(code, paneId) := answer in
  if (code =? 0) && Str.truthy (Str.trim paneId) then
    await writes (fun w => setPanes ({[Str.trim paneId]} ∪ panes w) w) in
    await writes (savePaneId paneIdFile (Str.trim paneId)) in
    await selectPane sourcePaneId in
    ret (Some (Str.trim paneId))
  else ret None.

Definition spawnBrowser (cwd : string) : Async (option string) :=
  let* inTmux := reads detectTmux in
  if negb inTmux then
    await writes (consoleError "file-browser requires tmux. Please run inside a tmux session.") in
    ret None
  else
    let* sourcePaneId := getCurrentPaneId in
    let paneIdFile := getPaneIdFile sourcePaneId in
    let* existingPaneId := reads (readPaneId paneIdFile) in
    let* live := reads (fun w => truthyId existingPaneId
                                 && paneExists (default EmptyString existingPaneId) w) in
    if live then
      await reusePane (default EmptyString existingPaneId) cwd in
      ret existingPaneId
    else createNewPane cwd sourcePaneId paneIdFile.

(** A pane that is killed is gone. *)
Definition killPane (paneId : string) : Async unit :=
  await spawnTmux ["kill-pane"; "-t"; paneId] in
  writes (fun w => setPanes (panes w ∖ {[paneId]}) w).

Definition closeBrowser : Async unit :=
  let* sourcePaneId := getCurrentPaneId in
  let paneIdFile := getPaneIdFile sourcePaneId in
  let* paneId := reads (readPaneId paneIdFile) in
  if negb (truthyId paneId) then ret tt
  else
    let* live := reads (paneExists (default EmptyString paneId)) in
    await (if live then killPane (default EmptyString paneId) else ret tt) in
    writes (clearPaneId paneIdFile).

Definition toggleBrowser (cwd : string) : Async unit :=
  let* sourcePaneId := getCurrentPaneId in
  let paneIdFile := getPaneIdFile sourcePaneId in
  let* paneId := reads (readPaneId paneIdFile) in
  let* live := reads (fun w => truthyId paneId && paneExists (default EmptyString paneId) w) in
  if live then closeBrowser
  else
    await writes (clearPaneId paneIdFile) in
    await spawnBrowser cwd in
    ret tt.

(** Whether the identity file of the current session is on disk. *)
Definition identityFileExists (w : World) : bool :=
  bool_decide (is_Some (files w !! getPaneIdFile (paneQuery w))).

End Terminal.

(* ===================================================================== *)
(** ** cli.ts                                                             *)
(* ===================================================================== *)

Module Cli.
Import Terminal.

(** The commands of [main] that act on the pane and on the socket.
    ([show] runs the view, and any other word prints the usage; they
    are outside this model.) For [refresh], [id] is [args[1]]. *)
Inductive Command :=
| Toggle (cwd : string)
| Close
| Refresh (id : option string).

Section WithSocket.
(** [JSON.parse] as in [Ipc]; the truth value of a reply, for [!result];
    and, for a socket path, what the event loop delivers to the call of
    [sendCommand] on it. *)
Variable JSON : Type.
Variable JSON_parse : string -> option JSON.
Variable JSON_truthy : JSON -> bool.
Variable socketEvents : string -> list Ipc.Event.

(** The exit code of a process whose [main] ended: 0 when the promise
    resolved, 1 when an exception was not caught. *)
Definition exitCode {A} (outcome : option A) : Z :=
  match outcome with Some _ => 0 | None => 1 end.

(** [main] with the exit code of the process; [None] where the process
    does not end, its promise still pending. [process.exit(1)] is the
    code 1 at the place of the call. *)
Definition main (command : Command) (w : World) : World * option Z :=
  match command with
  | Toggle cwd =>
      let '(w, outcome) := toggleBrowser cwd w in (w, Some (exitCode outcome))
  | Close =>
      let '(w, outcome) := closeBrowser w in (w, Some (exitCode outcome))
  | Refresh id =>
      if negb (truthyId id)
      then (consoleError "Usage: file-browser refresh <id>" w, Some 1)
      else
        let socketPath := Ipc.getSocketPath (default EmptyString id) in
        match Ipc.settled (Ipc.run JSON JSON_parse (socketEvents socketPath)) with
        | None => (w, None)
        | Some result =>
            if match result with Some v => JSON_truthy v | None => false end
            then (w, Some 0)
            else (consoleError "Failed to send refresh command" w, Some 1)
        end
  end.

End WithSocket.

(** [getArg(name)] over the arguments [args]: [None] is [undefined]. *)
Definition getArg (args : list string) (name : string) : option string :=
  let idx := Str.indexOf ("--" +:+ name) args in
  if idx =? -1 then None else args !! Z.to_nat (idx + 1).

End Cli.

(* ===================================================================== *)
(** ** Concrete hosts, file systems and worlds                            *)
(* ===================================================================== *)

(** Instances on which the definitions above are evaluated. *)
Module Demo.
Import Tree.

Definition lowerChar (c : ascii) : ascii :=
  let n := nat_of_ascii c in
  if (65 <=? n)%nat && (n <=? 90)%nat then ascii_of_nat (n + 32) else c.

Definition swapCaseChar (c : ascii) : ascii :=
  let n := nat_of_ascii c in
  if (65 <=? n)%nat && (n <=? 90)%nat then ascii_of_nat (n + 32)
  else if (97 <=? n)%nat && (n <=? 122)%nat then ascii_of_nat (n - 32)
  else c.

Fixpoint mapChars (f : ascii -> ascii) (s : string) : string :=
  match s with
  | EmptyString => EmptyString
  | String c s' => String (f c) (mapChars f s')
  end.

(** A collation in the manner of the runtime's default one, for names of
    letters and digits only (it does not order punctuation as the
    runtime does): letters compare without regard to case first, and on
    a tie the lower-case letter comes first. The key of a name is
    its lower-case form, a separator, and its case-swapped form; keys
    compare by code units. *)
Definition collationKey (s : string) : string :=
  mapChars lowerChar s +:+ String (ascii_of_nat 0) (mapChars swapCaseChar s).

Definition comparisonZ (c : comparison) : Z :=
  match c with Lt => -1 | Eq => 0 | Gt => 1 end.

Definition collate (a b : string) : Z :=
  comparisonZ (String.compare (collationKey a) (collationKey b)).

(** [path.join] and [path.relative] on normalised paths, the second for
    a path below the root. *)
Definition joinPath (a b : string) : string := a +:+ "/" +:+ b.
Definition relativePath (root p : string) : string := Str.drop (String.length root + 1) p.

(** Globs without wildcards, as [Bun.Glob] matches them: the pattern
    matches the string it spells, and every exclamation mark at its
    start negates the match. *)
Fixpoint literalGlob (pattern s : string) : bool :=
  match pattern with
  | String c rest =>
      if Ascii.eqb c "!"%char then negb (literalGlob rest s) else String.eqb pattern s
  | EmptyString => String.eqb pattern s
  end.

Definition demoRuntime : Runtime :=
  {| localeCompare := collate;
     globMatch := literalGlob;
     join := joinPath;
     relative := relativePath |}.

Fixpoint lookupPath {V} (k : string) (m : list (string * V)) : option V :=
  match m with
  | [] => None
  | (k', v) :: t => if String.eqb k' k then Some v else lookupPath k t
  end.

(** A file system given by its directories and its readable files. *)
Definition mkFS (dirs : list (string * list Dirent)) (texts : list (string * string))
  : FileSystem :=
  {| readdirSync := fun p => lookupPath p dirs;
     existsSync := fun p => match lookupPath p texts with Some _ => true | None => false end;
     readFileSync := fun p => lookupPath p texts |}.

Definition file (nm : string) : Dirent := {| d_name := nm; d_isDirectory := false |}.
Definition dir (nm : string) : Dirent := {| d_name := nm; d_isDirectory := true |}.

Definition decimal (n : nat) : string := NilEmpty.string_of_uint (Nat.to_uint n).

(** [n] files f0, f1, ... in one directory. *)
Definition flatFiles (n : nat) : list Dirent :=
  List.map (fun i => file ("f" +:+ decimal i)) (seq 0 n).

Definition flatFS (n : nat) : FileSystem := mkFS [("/r", flatFiles n)] [].

(** /r/a/b/c/d/e/f: five nested directories and a file in the last. *)
Definition chainFS : FileSystem :=
  mkFS [("/r", [dir "a"]);
        ("/r/a", [dir "b"]);
        ("/r/a/b", [dir "c"]);
        ("/r/a/b/c", [dir "d"]);
        ("/r/a/b/c/d", [dir "e"]);
        ("/r/a/b/c/d/e", [file "f"])] [].

(** Two files whose names differ in case. *)
Definition caseFS : FileSystem := mkFS [("/r", [file "B"; file "a"])] [].

(** A small forest: a directory with a file and a directory, and a file. *)
Definition smallForest : list TreeNode :=
  [MkTreeNode "src" "/r/src" true
     (Some [MkTreeNode "lib" "/r/src/lib" true
              (Some [MkTreeNode "a.ts" "/r/src/lib/a.ts" false None None]) None;
            MkTreeNode "cli.ts" "/r/src/cli.ts" false None None]) None;
   MkTreeNode "README.md" "/r/README.md" false None None].

Definition lines (l : list string) : string :=
  fold_right (fun line rest => line +:+ String Str.LF rest) EmptyString l.

(** The output of the status query for a modified a/b.txt and an added
    a/c/d.txt. *)
Definition statusOutput : string := lines [" M a/b.txt"; "A  a/c/d.txt"].

(** A change below a dependency directory at the top level, and one
    below such a directory further down. *)
Definition nestedIgnoreOutput : string :=
  lines [" M node_modules/x"; " M pkg/node_modules/x"].

(** The messages of the protocol, and [JSON.parse] on the texts that
    [JSON.stringify] gives for those without a payload; every other text
    of this model throws. *)
Inductive Message := MsgClose | MsgPing | MsgRefresh | MsgReady | MsgPong.

Definition quoted (s : string) : string :=
  String Str.DQUOTE (s +:+ String Str.DQUOTE EmptyString).

(** What the status query prints for the modified file
    node_modules/a b.txt: git puts a path that holds a space between
    double quotes. *)
Definition quotedPathOutput : string :=
  lines [" M " +:+ quoted "node_modules/a b.txt"].

Definition typed (tag : string) : string :=
  "{" +:+ quoted "type" +:+ ":" +:+ quoted tag +:+ "}".

Definition parseMessage (s : string) : option Message :=
  if String.eqb s (typed "close") then Some MsgClose
  else if String.eqb s (typed "ping") then Some MsgPing
  else if String.eqb s (typed "refresh") then Some MsgRefresh
  else if String.eqb s (typed "ready") then Some MsgReady
  else if String.eqb s (typed "pong") then Some MsgPong
  else None.

(** The ping message and its line feed, cut in two after the first
    eleven characters. *)
Definition pingLine : string := typed "ping" +:+ String Str.LF EmptyString.
Definition pingHead : string := Str.take 11 pingLine.
Definition pingTail : string := Str.drop 11 pingLine.

(** A reply that is not JSON. *)
Definition badReply : string := "oops" +:+ String Str.LF EmptyString.

(** A session in pane %1 of the multiplexer; a shell outside the
    multiplexer, with the executable installed and no server running,
    and the same shell with no executable; and the session with an
    identity file that is on disk and empty. *)
Definition baseWorld : Terminal.World :=
  {| Terminal.env_TMUX := true;
     Terminal.tmuxBinary := true;
     Terminal.scriptDir := "/opt/file-browser/src";
     Terminal.files := ∅;
     Terminal.panes := {["%1"]};
     Terminal.currentPane := "%1" +:+ String Str.LF EmptyString;
     Terminal.splitWindow := (0, "%2" +:+ String Str.LF EmptyString);
     Terminal.tmuxLog := [];
     Terminal.stderr := [] |}.

Definition noTmuxWorld : Terminal.World :=
  {| Terminal.env_TMUX := false;
     Terminal.tmuxBinary := true;
     Terminal.scriptDir := "/opt/file-browser/src";
     Terminal.files := ∅;
     Terminal.panes := ∅;
     Terminal.currentPane := EmptyString;
     Terminal.splitWindow := (1, EmptyString);
     Terminal.tmuxLog := [];
     Terminal.stderr := [] |}.

Definition noBinaryWorld : Terminal.World :=
  {| Terminal.env_TMUX := false;
     Terminal.tmuxBinary := false;
     Terminal.scriptDir := "/opt/file-browser/src";
     Terminal.files := ∅;
     Terminal.panes := ∅;
     Terminal.currentPane := EmptyString;
     Terminal.splitWindow := (1, EmptyString);
     Terminal.tmuxLog := [];
     Terminal.stderr := [] |}.

Definition blankIdentityWorld : Terminal.World :=
  Terminal.setFiles {["/tmp/file-browser-pane-1" := EmptyString]} baseWorld.

End Demo.

(* ===================================================================== *)
(** * Properties                                                          *)
(* ===================================================================== *)

(** ** Facts on the string primitives *)

Section StrFacts.

Lemma append_nil_r s : s +:+ EmptyString = s.
Proof.
  induction s as [|c s IH]; [reflexivity|].
  change (String c s +:+ EmptyString) with (String c (s +:+ EmptyString)). by rewrite IH.
Qed.

Lemma append_assoc a b c : (a +:+ b) +:+ c = a +:+ (b +:+ c).
Proof.
  induction a as [|x a IH]; [reflexivity|].
  change ((String x a +:+ b) +:+ c) with (String x ((a +:+ b) +:+ c)). by rewrite IH.
Qed.

Lemma reverse_app a b : Str.reverse (a +:+ b) = Str.reverse b +:+ Str.reverse a.
Proof.
  induction a as [|x a IH].
  - change (EmptyString +:+ b) with b. cbn [Str.reverse]. by rewrite append_nil_r.
  - change (String x a +:+ b) with (String x (a +:+ b)). cbn [Str.reverse].
    by rewrite IH, append_assoc.
Qed.

Lemma reverse_involutive s : Str.reverse (Str.reverse s) = s.
Proof.
  induction s as [|c s IH]; [reflexivity|]. cbn [Str.reverse].
  rewrite reverse_app, IH. reflexivity.
Qed.

Lemma string_by_length (P : string -> Prop) :
  (forall s, (forall t, (String.length t < String.length s)%nat -> P t) -> P s) ->
  forall s, P s.
Proof.
  intros H s. remember (String.length s) as n eqn:E.
  revert s E. induction n as [n IH] using lt_wf_ind. intros s ->.
  apply H. intros t Ht. by apply (IH (String.length t)).
Qed.

Section Strip.
Variable p1 : ascii -> bool.
Variable p2 : ascii -> ascii -> bool.
Variable p3 : ascii -> ascii -> ascii -> bool.

(** Whether the string starts with a white-space character. *)
Definition headSpace (s : string) : bool :=
  match s with
  | EmptyString => false
  | String c1 r1 =>
      p1 c1
      || match r1 with
         | EmptyString => false
         | String c2 r2 =>
             p2 c1 c2
             || match r2 with
                | EmptyString => false
                | String c3 _ => p3 c1 c2 c3
                end
         end
  end.

Lemma stripSpaces_id s : headSpace s = false -> Str.stripSpaces p1 p2 p3 s = s.
Proof.
  destruct s as [|c1 [|c2 [|c3 r]]]; cbn [headSpace Str.stripSpaces]; [done| | |].
  - rewrite orb_false_r. by intros ->.
  - intros H. apply orb_false_iff in H as [-> H]. rewrite orb_false_r in H. by rewrite H.
  - intros H. apply orb_false_iff in H as [-> H]. apply orb_false_iff in H as [-> ->]. done.
Qed.

(** The cases of [stripSpaces], as an induction principle. *)
Lemma stripSpaces_cases (P : string -> Prop) :
  (forall s, headSpace s = false -> P s) ->
  (forall c1 r, p1 c1 = true -> P r -> P (String c1 r)) ->
  (forall c1 c2 r, p1 c1 = false -> p2 c1 c2 = true -> P r -> P (String c1 (String c2 r))) ->
  (forall c1 c2 c3 r, p1 c1 = false -> p2 c1 c2 = false -> p3 c1 c2 c3 = true ->
                      P r -> P (String c1 (String c2 (String c3 r)))) ->
  forall s, P s.
Proof.
  intros H0 H1 H2 H3. induction s as [s IH] using string_by_length.
  destruct s as [|c1 r1]; [by apply H0|].
  destruct (p1 c1) eqn:E1; [apply H1; [done|]; apply IH; cbn; lia|].
  destruct r1 as [|c2 r2]; [apply H0; cbn; by rewrite E1|].
  destruct (p2 c1 c2) eqn:E2; [apply H2; [done|done|]; apply IH; cbn; lia|].
  destruct r2 as [|c3 r3]; [apply H0; cbn; by rewrite E1, E2|].
  destruct (p3 c1 c2 c3) eqn:E3; [apply H3; [done|done|done|]; apply IH; cbn; lia|].
  apply H0. cbn. by rewrite E1, E2, E3.
Qed.

Lemma stripSpaces_1 c1 r : p1 c1 = true ->
  Str.stripSpaces p1 p2 p3 (String c1 r) = Str.stripSpaces p1 p2 p3 r.
Proof. intros H. cbn [Str.stripSpaces]. by rewrite H. Qed.

Lemma stripSpaces_2 c1 c2 r : p1 c1 = false -> p2 c1 c2 = true ->
  Str.stripSpaces p1 p2 p3 (String c1 (String c2 r)) = Str.stripSpaces p1 p2 p3 r.
Proof. intros H1 H2. cbn [Str.stripSpaces]. by rewrite H1, H2. Qed.

Lemma stripSpaces_3 c1 c2 c3 r : p1 c1 = false -> p2 c1 c2 = false -> p3 c1 c2 c3 = true ->
  Str.stripSpaces p1 p2 p3 (String c1 (String c2 (String c3 r))) = Str.stripSpaces p1 p2 p3 r.
Proof. intros H1 H2 H3. cbn [Str.stripSpaces]. by rewrite H1, H2, H3. Qed.

Lemma stripSpaces_head s : headSpace (Str.stripSpaces p1 p2 p3 s) = false.
Proof.
  induction s as [s H | c1 r H1 IH | c1 c2 r H1 H2 IH | c1 c2 c3 r H1 H2 H3 IH]
    using stripSpaces_cases.
  - by rewrite stripSpaces_id.
  - by rewrite stripSpaces_1.
  - by rewrite stripSpaces_2.
  - by rewrite stripSpaces_3.
Qed.

Lemma stripSpaces_idempotent s :
  Str.stripSpaces p1 p2 p3 (Str.stripSpaces p1 p2 p3 s) = Str.stripSpaces p1 p2 p3 s.
Proof. apply stripSpaces_id, stripSpaces_head. Qed.

(** What is stripped is a prefix. *)
Lemma stripSpaces_suffix s : exists y, s = y +:+ Str.stripSpaces p1 p2 p3 s.
Proof.
  induction s as [s H | c1 r H1 [y IH] | c1 c2 r H1 H2 [y IH] | c1 c2 c3 r H1 H2 H3 [y IH]]
    using stripSpaces_cases.
  - exists EmptyString. by rewrite stripSpaces_id.
  - exists (String c1 y). rewrite stripSpaces_1 by done.
    change (String c1 y +:+ ?t) with (String c1 (y +:+ t)). by rewrite <- IH.
  - exists (String c1 (String c2 y)). rewrite stripSpaces_2 by done.
    change (String c1 (String c2 y) +:+ ?t) with (String c1 (String c2 (y +:+ t))).
    by rewrite <- IH.
  - exists (String c1 (String c2 (String c3 y))). rewrite stripSpaces_3 by done.
    change (String c1 (String c2 (String c3 y)) +:+ ?t)
      with (String c1 (String c2 (String c3 (y +:+ t)))).
    by rewrite <- IH.
Qed.

(** A white-space character at the start of a string is at the start of
    every string that it starts. *)
Lemma headSpace_app u z : headSpace u = true -> headSpace (u +:+ z) = true.
Proof.
  destruct u as [|c1 [|c2 [|c3 r]]]; [done| | |].
  - cbn [headSpace]. rewrite orb_false_r. intros H.
    change (String c1 EmptyString +:+ z) with (String c1 z). cbn [headSpace]. by rewrite H.
  - cbn [headSpace]. rewrite orb_false_r. intros H.
    change (String c1 (String c2 EmptyString) +:+ z) with (String c1 (String c2 z)).
    cbn [headSpace]. apply orb_true_iff in H as [-> | ->]; [done|]. by rewrite orb_true_r.
  - change (String c1 (String c2 (String c3 r)) +:+ z)
      with (String c1 (String c2 (String c3 (r +:+ z)))). done.
Qed.

End Strip.

Definition startsWithSpace : string -> bool :=
  headSpace Str.isSpace Str.isSpace2 Str.isSpace3.

Lemma trimEnd_idempotent s : Str.trimEnd (Str.trimEnd s) = Str.trimEnd s.
Proof.
  unfold Str.trimEnd. by rewrite reverse_involutive, stripSpaces_idempotent.
Qed.

(** What [trimEnd] removes is a suffix. *)
Lemma trimEnd_prefix s : exists z, s = Str.trimEnd s +:+ z.
Proof.
  unfold Str.trimEnd.
  destruct (stripSpaces_suffix Str.isSpace (fun c2 c1 => Str.isSpace2 c1 c2)
              (fun c3 c2 c1 => Str.isSpace3 c1 c2 c3) (Str.reverse s)) as [y Hy].
  exists (Str.reverse y). rewrite <- reverse_app, <- Hy. by rewrite reverse_involutive.
Qed.

Lemma trimStart_id s : startsWithSpace s = false -> Str.trimStart s = s.
Proof. apply stripSpaces_id. Qed.

Lemma trimEnd_startsWithSpace s :
  startsWithSpace s = false -> startsWithSpace (Str.trimEnd s) = false.
Proof.
  intros H. destruct (trimEnd_prefix s) as [z Hz].
  destruct (startsWithSpace (Str.trimEnd s)) eqn:E; [|done].
  apply (headSpace_app _ _ _ _ z) in E. unfold startsWithSpace in H.
  rewrite <- Hz in E. congruence.
Qed.

Lemma trim_startsWithSpace s : startsWithSpace (Str.trim s) = false.
Proof. apply trimEnd_startsWithSpace, stripSpaces_head. Qed.

Lemma trim_idempotent s : Str.trim (Str.trim s) = Str.trim s.
Proof.
  unfold Str.trim at 1. rewrite trimStart_id by apply trim_startsWithSpace.
  unfold Str.trim. apply trimEnd_idempotent.
Qed.

(** The last byte of a white-space character of several bytes is not
    below 128. *)
Lemma isSpace2_last x c : (nat_of_ascii c < 128)%nat -> Str.isSpace2 x c = false.
Proof.
  intros Hc. unfold Str.isSpace2. destruct (Nat.eqb_spec (nat_of_ascii c) 160); [lia|].
  apply andb_false_r.
Qed.

Lemma isSpace3_last x y c : (nat_of_ascii c < 128)%nat -> Str.isSpace3 x y c = false.
Proof.
  intros Hc. unfold Str.isSpace3. cbv zeta.
  destruct (Nat.eqb_spec (nat_of_ascii c) 128); [lia|].
  destruct (Nat.eqb_spec (nat_of_ascii c) 159); [lia|].
  destruct (Nat.eqb_spec (nat_of_ascii c) 168); [lia|].
  destruct (Nat.eqb_spec (nat_of_ascii c) 169); [lia|].
  destruct (Nat.eqb_spec (nat_of_ascii c) 175); [lia|].
  destruct (Nat.eqb_spec (nat_of_ascii c) 191); [lia|].
  destruct (Nat.leb_spec 128 (nat_of_ascii c)); [lia|].
  rewrite ?andb_false_l, ?andb_false_r, ?orb_false_r. reflexivity.
Qed.

(** A byte below 128 that is no white space ends no white-space
    character. *)
Lemma trimEnd_snoc s c :
  (nat_of_ascii c < 128)%nat -> Str.isSpace c = false ->
  Str.trimEnd (s +:+ String c EmptyString) = s +:+ String c EmptyString.
Proof.
  intros Hc Hs. unfold Str.trimEnd. rewrite reverse_app.
  change (Str.reverse (String c EmptyString) +:+ Str.reverse s)
    with (String c (Str.reverse s)).
  rewrite stripSpaces_id.
  - change (String c (Str.reverse s)) with (Str.reverse (String c EmptyString) +:+ Str.reverse s).
    by rewrite <- reverse_app, reverse_involutive.
  - pose proof (fun x => isSpace2_last x c Hc) as H2.
    pose proof (fun x y => isSpace3_last x y c Hc) as H3.
    destruct (Str.reverse s) as [|c2 [|c3 r]]; cbn [headSpace]; by rewrite Hs, ?H2, ?H3.
Qed.

Lemma trimStart_snoc s c :
  (nat_of_ascii c < 128)%nat -> Str.isSpace c = false ->
  startsWithSpace s = false ->
  startsWithSpace (s +:+ String c EmptyString) = false.
Proof.
  intros Hc Hs.
  pose proof (fun x => isSpace2_last x c Hc) as H2.
  pose proof (fun x y => isSpace3_last x y c Hc) as H3.
  unfold startsWithSpace.
  destruct s as [|c1 [|c2 [|c3 r]]].
  - intros _. change (EmptyString +:+ String c EmptyString) with (String c EmptyString).
    cbn [headSpace]. by rewrite Hs.
  - cbn [headSpace]. rewrite orb_false_r. intros H.
    change (String c1 EmptyString +:+ String c EmptyString) with (String c1 (String c EmptyString)).
    cbn [headSpace]. by rewrite H, H2.
  - cbn [headSpace]. rewrite orb_false_r. intros H. apply orb_false_iff in H as [Ha Hb].
    change (String c1 (String c2 EmptyString) +:+ String c EmptyString)
      with (String c1 (String c2 (String c EmptyString))).
    cbn [headSpace]. by rewrite Ha, Hb, H3.
  - change (String c1 (String c2 (String c3 r)) +:+ String c EmptyString)
      with (String c1 (String c2 (String c3 (r +:+ String c EmptyString)))). done.
Qed.

Lemma trim_snoc s c :
  Str.trim s = s -> (nat_of_ascii c < 128)%nat -> Str.isSpace c = false ->
  Str.trim (s +:+ String c EmptyString) = s +:+ String c EmptyString.
Proof.
  intros Hs Hc Hsp. unfold Str.trim.
  rewrite trimStart_id; [by apply trimEnd_snoc|].
  apply trimStart_snoc; [done | done |]. rewrite <- Hs. apply trim_startsWithSpace.
Qed.

Lemma endsWithChar_snoc s c : Str.endsWithChar c (s +:+ String c EmptyString) = true.
Proof.
  induction s as [|d s IH]; [cbn; apply Ascii.eqb_refl|].
  change (String d s +:+ String c EmptyString) with (String d (s +:+ String c EmptyString)).
  cbn [Str.endsWithChar]. rewrite IH. by destruct s.
Qed.

Lemma dropLast_snoc s c : Str.dropLast (s +:+ String c EmptyString) = s.
Proof.
  induction s as [|d s IH]; [reflexivity|].
  change (String d s +:+ String c EmptyString) with (String d (s +:+ String c EmptyString)).
  cbn [Str.dropLast]. rewrite IH. by destruct s.
Qed.

Lemma charBytes_one c : (nat_of_ascii c < 128)%nat -> Str.charBytes c = 1%nat.
Proof.
  intros H. unfold Str.charBytes. cbv zeta.
  destruct (Nat.ltb_spec (nat_of_ascii c) 192); [done | lia].
Qed.

(** Past three characters of one byte each, [substring(3)] is the rest. *)
Lemma substringFrom_3 x y z s :
  (nat_of_ascii x < 128)%nat -> (nat_of_ascii y < 128)%nat -> (nat_of_ascii z < 128)%nat ->
  Str.substringFrom 3 (String x (String y (String z s))) = s.
Proof.
  intros Hx Hy Hz. cbn [Str.substringFrom].
  rewrite (charBytes_one x Hx). cbn [Nat.ltb Nat.leb Nat.sub Str.drop].
  rewrite (charBytes_one y Hy). cbn [Nat.ltb Nat.leb Nat.sub Str.drop].
  rewrite (charBytes_one z Hz). cbn [Nat.ltb Nat.leb Nat.sub Str.drop].
  by destruct s.
Qed.

(** The primitives on characters of several bytes: [trim] removes a
    no-break space (U+00A0) before a name and a line separator (U+2028)
    after it; and past the two code units of a character of four bytes
    (U+1F600) and one more, [substring(3)] is the rest. *)
Example trim_removes_unicode_white_space :
  let byte n := Str.byteOf n in
  Str.trim (String (byte 194) (String (byte 160)
              ("a" +:+ String (byte 226) (String (byte 128) (String (byte 168) EmptyString)))))
  = "a".
Proof. vm_compute. reflexivity. Qed.

Example substring_counts_code_units :
  let byte n := Str.byteOf n in
  Str.substringFrom 3
    (String (byte 240) (String (byte 159) (String (byte 152) (String (byte 128) " x"))))
  = "x".
Proof. vm_compute. reflexivity. Qed.

Lemma endsWithChar_snoc_other s c d :
  c <> d -> Str.endsWithChar c (s +:+ String d EmptyString) = false.
Proof.
  intros Hne. induction s as [|x s IH].
  - cbn. by apply Ascii.eqb_neq.
  - change (String x s +:+ String d EmptyString) with (String x (s +:+ String d EmptyString)).
    cbn [Str.endsWithChar]. rewrite IH. by destruct s.
Qed.

(** A text between double quotes has no white space around it. *)
Lemma trim_quoted p : Str.trim (Demo.quoted p) = Demo.quoted p.
Proof.
  unfold Str.trim, Demo.quoted. rewrite trimStart_id.
  - apply (trimEnd_snoc (String Str.DQUOTE p)); [vm_compute; lia | reflexivity].
  - change (String Str.DQUOTE (p +:+ String Str.DQUOTE EmptyString))
      with (String Str.DQUOTE p +:+ String Str.DQUOTE EmptyString).
    destruct p as [|c1 [|c2 p]]; reflexivity.
Qed.

End StrFacts.

(** ** Induction on trees *)

Section TreeNodeInd.
Import Tree.
Variable P : TreeNode -> Prop.
Hypothesis step : forall nm pth d kids g,
    Forall P (default [] kids) -> P (MkTreeNode nm pth d kids g).

Fixpoint TreeNode_nested_ind (nd : TreeNode) : P nd :=
  match nd with
  | MkTreeNode nm pth d kids g =>
      step nm pth d kids g
        (match kids as k return Forall P (default [] k) with
         | Some l0 =>
             (fix all (l : list TreeNode) : Forall P l :=
                match l with
                | [] => @List.Forall_nil _ P
                | x :: r => @List.Forall_cons _ P x r (TreeNode_nested_ind x) (all r)
                end) l0
         | None => @List.Forall_nil _ P
         end)
  end.
End TreeNodeInd.

(** ** The flattening index *)

Section Flatten.
Import Tree FileTree.

(** What one call of [walk] appends: [ext] sits at the indices from
    [base] on, and [p] is the parent index the call was given. *)
Definition extLinked (base : nat) (p : Z) (ext : list FlatEntry) : Prop :=
  forall (k : nat) (e : FlatEntry), ext !! k = Some e ->
    (parentIndex e = p
     \/ Z.of_nat base <= parentIndex e < Z.of_nat base + Z.of_nat (length ext))
    /\ (firstChildIndex e = -1
        \/ exists (k' : nat) (c : FlatEntry),
            firstChildIndex e = Z.of_nat base + Z.of_nat k'
            /\ ext !! k' = Some c
            /\ parentIndex c = Z.of_nat base + Z.of_nat k).

Lemma extLinked_nil base p : extLinked base p [].
Proof. intros k e H. rewrite lookup_nil in H. discriminate. Qed.

Lemma extLinked_app base p e1 e2 :
  extLinked base p e1 ->
  extLinked (base + length e1) p e2 ->
  extLinked base p (e1 ++ e2).
Proof.
  intros H1 H2 k e Hk.
  rewrite length_app.
  apply lookup_app_Some in Hk as [Hk | [Hge Hk]].
  - destruct (H1 k e Hk) as [Hp Hc]. split.
    + destruct Hp as [-> | Hp]; [by left | right; lia].
    + destruct Hc as [-> | (k' & c & Hf & Hl & Hpc)]; [by left | right].
      exists k', c. split_and!; auto. by apply lookup_app_l_Some.
  - destruct (H2 _ e Hk) as [Hp Hc]. split.
    + destruct Hp as [-> | Hp]; [by left | right; lia].
    + destruct Hc as [-> | (k' & c & Hf & Hl & Hpc)]; [by left | right].
      exists (length e1 + k')%nat, c. split_and!.
      * lia.
      * rewrite lookup_app_r by lia.
        by replace (length e1 + k' - length e1)%nat with k' by lia.
      * lia.
Qed.

Lemma alter_snoc {A} (f : A -> A) (l : list A) (x : A) :
  alter f (length l) (l ++ [x]) = l ++ [f x].
Proof.
  replace (length l) with (length l + 0)%nat by lia.
  by rewrite alter_app_r.
Qed.

(** The inner loop of [walkNode] is [walk]. *)
Lemma walkNode_unfold nd isLast d pre p flat :
  walkNode nd isLast d pre p flat =
  let myIndex := length flat in
  let flat1 :=
    flat ++ [{| node := nd; depth := d; prefix := pre;
                connector := if isLast then "└── " else "├── ";
                parentIndex := p; firstChildIndex := -1 |}] in
  match children nd with
  | Some ((_ :: _) as kids) =>
      walk kids (d + 1) (pre +:+ (if isLast then "    " else "│   "))
           (Z.of_nat myIndex)
           (alter (setFirstChildIndex (Z.of_nat (length flat1))) myIndex flat1)
  | _ => flat1
  end.
Proof.
  destruct nd as [nm pth dr [[|k ks]|] g]; try reflexivity.
  cbn [walkNode children]. cbv zeta.
  set (nd := MkTreeNode nm pth dr (Some (k :: ks)) g).
  cbn [walk].
  match goal with |- _ ks ?fl = _ => generalize fl end.
  generalize ks as l.
  induction l as [|c r IH]; intros fl; [reflexivity|].
  cbn [walk]. apply IH.
Qed.

(** What [walkNode] and [walk] append, and how it is linked. *)
Definition nodeAppends (nd : TreeNode) : Prop :=
  forall isLast d pre p flat,
  exists e ext,
    walkNode nd isLast d pre p flat = flat ++ e :: ext
    /\ parentIndex e = p
    /\ extLinked (length flat) p (e :: ext).

Definition walkAppends (l : list TreeNode) : Prop :=
  forall d pre p flat,
  exists ext,
    walk l d pre p flat = flat ++ ext
    /\ extLinked (length flat) p ext
    /\ (l <> [] -> exists e, ext !! 0%nat = Some e /\ parentIndex e = p).

Lemma walk_appends l : Forall nodeAppends l -> walkAppends l.
Proof.
  induction 1 as [|c r Hc _ IH]; intros d pre p flat.
  - exists []. rewrite app_nil_r. split_and!; [done | apply extLinked_nil | done].
  - cbn [walk].
    destruct (Hc (isLastOf r) d pre p flat) as (e & ext1 & -> & Hpe & Hl1).
    destruct (IH d pre p (flat ++ e :: ext1)) as (ext2 & -> & Hl2 & _).
    exists ((e :: ext1) ++ ext2). split_and!.
    + by rewrite <- app_assoc.
    + apply extLinked_app; [done|]. by rewrite length_app in Hl2.
    + intros _. exists e. done.
Qed.

Lemma walkNode_appends nd : nodeAppends nd.
Proof.
  induction nd as [nm pth dr kids g IH] using TreeNode_nested_ind.
  intros isLast d pre p flat. rewrite walkNode_unfold. cbv zeta.
  set (e0 := {| node := MkTreeNode nm pth dr kids g; depth := d; prefix := pre;
                connector := if isLast then "└── " else "├── ";
                parentIndex := p; firstChildIndex := -1 |}).
  cbn [children].
  assert (Hleaf : extLinked (length flat) p [e0]).
  { intros k e Hk. destruct k as [|k]; [|by rewrite lookup_cons, lookup_nil in Hk].
    cbn in Hk. injection Hk as <-. split; by left. }
  destruct kids as [[|k ks]|].
  - exists e0, []. done.
  - change (Forall nodeAppends (k :: ks)) in IH. apply walk_appends in IH.
    rewrite alter_snoc.
    set (e1 := setFirstChildIndex _ e0).
    destruct (IH (d + 1) (pre +:+ (if isLast then "    " else "│   "))
                 (Z.of_nat (length flat)) (flat ++ [e1]))
      as (ext & -> & Hl & Hhd).
    destruct (Hhd ltac:(done)) as (c0 & Hc0 & Hpc0).
    exists e1, ext. split_and!.
    + by rewrite <- app_assoc.
    + done.
    + rewrite length_app in Hl. cbn [length] in Hl.
      intros j e Hj. destruct j as [|j].
      * cbn in Hj. injection Hj as <-. split; [by left|right].
        exists 1%nat, c0. split_and!.
        -- subst e1. cbn. rewrite length_app. cbn. lia.
        -- done.
        -- lia.
      * cbn in Hj. destruct (Hl j e Hj) as [Hp Hc]. cbn [length]. split.
        -- right. destruct Hp as [-> | Hp]; lia.
        -- destruct Hc as [-> | (k' & c & Hf & Hlk & Hpc)]; [by left|right].
           exists (S k'), c. split_and!; [lia | done | lia].
  - exists e0, []. done.
Qed.

Lemma flattenTree_linked nodes : extLinked 0 (-1) (flattenTree nodes).
Proof.
  unfold flattenTree.
  destruct (walk_appends nodes) with (d := 0) (pre := EmptyString) (p := -1)
                                     (flat := @nil FlatEntry)
    as (ext & -> & Hl & _).
  - apply Forall_forall. intros nd _. apply walkNode_appends.
  - done.
Qed.

(** C1. For every forest, every entry [e] of [flattenTree], found at
    index [i], has [firstChildIndex = -1] or the entry at
    [firstChildIndex] has [parentIndex = i]; and [parentIndex] and
    [firstChildIndex] are [-1] or indices into the sequence. *)
Theorem C1_flattenTree_links (nodes : list TreeNode) (i : nat) (e : FlatEntry) :
  flattenTree nodes !! i = Some e ->
  (firstChildIndex e = -1
   \/ exists c, at_ (flattenTree nodes) (firstChildIndex e) = Some c
               /\ parentIndex c = Z.of_nat i)
  /\ (parentIndex e = -1
      \/ 0 <= parentIndex e < Z.of_nat (length (flattenTree nodes)))
  /\ (firstChildIndex e = -1
      \/ 0 <= firstChildIndex e < Z.of_nat (length (flattenTree nodes))).
Proof.
  intros Hi.
  destruct (flattenTree_linked nodes i e Hi) as [Hp Hc].
  split_and!.
  - destruct Hc as [-> | (k' & c & Hf & Hl & Hpc)]; [by left | right].
    exists c. split; [|lia]. unfold at_. rewrite Hf.
    destruct (Z.ltb_spec (Z.of_nat 0 + Z.of_nat k') 0); [lia|].
    by replace (Z.to_nat (Z.of_nat 0 + Z.of_nat k')) with k' by lia.
  - destruct Hp as [-> | Hp]; [by left | right; lia].
  - destruct Hc as [-> | (k' & c & Hf & Hl & Hpc)]; [by left | right].
    apply lookup_lt_Some in Hl. lia.
Qed.

End Flatten.

(** ** Measures of a forest *)

Section Measures.
Import Tree FileTree.

(** How many levels below the walked root the deepest node of a forest
    sits: the entries of the root are one level below it, their
    children two levels, and so on; 0 for the empty forest. *)
Fixpoint nodeNesting (nd : TreeNode) : Z :=
  let 'MkTreeNode _ _ _ kids _ := nd in
  1 + match kids with
      | Some l =>
          (fix deepest (l : list TreeNode) : Z :=
             match l with [] => 0 | c :: rest => Z.max (nodeNesting c) (deepest rest) end) l
      | None => 0
      end.

Fixpoint forestNesting (nodes : list TreeNode) : Z :=
  match nodes with
  | [] => 0
  | nd :: rest => Z.max (nodeNesting nd) (forestNesting rest)
  end.

Lemma countNode_eq nm pth d kids g :
  countNode (MkTreeNode nm pth d kids g)
  = 1 + match kids with Some l => countNodes l | None => 0 end.
Proof.
  destruct kids as [l|]; reflexivity.
Qed.

Lemma nodeNesting_eq nm pth d kids g :
  nodeNesting (MkTreeNode nm pth d kids g)
  = 1 + match kids with Some l => forestNesting l | None => 0 end.
Proof.
  destruct kids as [l|]; reflexivity.
Qed.

Lemma countNodes_app a b : countNodes (a ++ b) = countNodes a + countNodes b.
Proof. induction a as [|x a IH]; cbn [countNodes app]; lia. Qed.

Lemma forestNesting_app a b :
  forestNesting (a ++ b) = Z.max (forestNesting a) (forestNesting b).
Proof.
  induction a as [|x a IH]; cbn [forestNesting app].
  - assert (0 <= forestNesting b); [|lia].
    induction b as [|y b IHb]; cbn [forestNesting]; lia.
  - lia.
Qed.

Lemma forestNesting_nonneg l : 0 <= forestNesting l.
Proof. induction l as [|y b IHb]; cbn [forestNesting]; lia. Qed.

Lemma countNode_pos nd : 1 <= countNode nd.
Proof.
  induction nd as [nm pth d kids g IH] using TreeNode_nested_ind.
  rewrite countNode_eq. destruct kids as [l|]; [|lia]. cbn in IH.
  assert (0 <= countNodes l); [|lia].
  induction IH as [|c r Hc _ IHr]; cbn [countNodes]; lia.
Qed.

Lemma countNodes_nonneg l : 0 <= countNodes l.
Proof.
  induction l as [|x l IH]; cbn [countNodes]; [lia|].
  pose proof (countNode_pos x). lia.
Qed.

End Measures.

(** ** The rows of the flattening: how many, and how deep *)

Section FlattenShape.
Import Tree FileTree.

(** What [walkNode] appends for a node: one row per node of its
    subtree, each at a depth from the node's own on, within the nesting
    of the subtree. *)
Definition nodeRows (nd : TreeNode) : Prop :=
  forall isLast d pre p flat,
  exists ext,
    walkNode nd isLast d pre p flat = flat ++ ext
    /\ Forall (fun e => d <= depth e < d + nodeNesting nd) ext
    /\ Z.of_nat (length ext) = countNode nd.

Lemma walk_rows l :
  Forall nodeRows l ->
  forall d pre p flat,
  exists ext,
    FileTree.walk l d pre p flat = flat ++ ext
    /\ Forall (fun e => d <= depth e < d + forestNesting l) ext
    /\ Z.of_nat (length ext) = countNodes l.
Proof.
  induction 1 as [|c r Hc _ IH]; intros d pre p flat.
  - exists []. rewrite app_nil_r. split_and!; [done | constructor | done].
  - cbn [FileTree.walk forestNesting countNodes].
    destruct (Hc (isLastOf r) d pre p flat) as (ext1 & -> & Hd1 & Hn1).
    destruct (IH d pre p (flat ++ ext1)) as (ext2 & -> & Hd2 & Hn2).
    exists (ext1 ++ ext2). split_and!.
    + by rewrite <- app_assoc.
    + apply Forall_app. split; (eapply Forall_impl; [eassumption|]); cbn; intros e He; lia.
    + rewrite length_app. lia.
Qed.

Lemma walkNode_rows nd : nodeRows nd.
Proof.
  induction nd as [nm pth dr kids g IH] using TreeNode_nested_ind.
  intros isLast d pre p flat. rewrite walkNode_unfold. cbv zeta.
  rewrite nodeNesting_eq, countNode_eq. cbn [children].
  set (e0 := {| node := MkTreeNode nm pth dr kids g; depth := d; prefix := pre;
                connector := if isLast then "└── " else "├── ";
                parentIndex := p; firstChildIndex := -1 |}).
  assert (Hleaf : forall h, 0 <= h -> Forall (fun e => d <= depth e < d + (1 + h)) [e0]).
  { intros h Hh. repeat constructor; cbn; lia. }
  destruct kids as [[|k ks]|].
  - exists [e0]. split_and!; [done | by apply Hleaf | done].
  - change (Forall nodeRows (k :: ks)) in IH. pose proof (walk_rows _ IH) as IHk.
    rewrite alter_snoc.
    set (e1 := setFirstChildIndex _ e0).
    destruct (IHk (d + 1) (pre +:+ (if isLast then "    " else "│   "))
                  (Z.of_nat (length flat)) (flat ++ [e1]))
      as (ext & -> & Hd & Hn).
    exists (e1 :: ext). split_and!.
    + by rewrite <- app_assoc.
    + pose proof (forestNesting_nonneg (k :: ks)).
      apply List.Forall_cons; [subst e1 e0; cbn [depth setFirstChildIndex]; lia|].
      eapply Forall_impl; [exact Hd|]. cbn. intros e He. lia.
    + cbn [length]. lia.
  - exists [e0]. split_and!; [done | by apply Hleaf | done].
Qed.

Lemma flattenTree_rows nodes :
  Forall (fun e => 0 <= depth e < forestNesting nodes) (flattenTree nodes)
  /\ Z.of_nat (length (flattenTree nodes)) = countNodes nodes.
Proof.
  unfold flattenTree.
  destruct (walk_rows nodes) with (d := 0) (pre := EmptyString) (p := -1)
                                  (flat := @nil FlatEntry)
    as (ext & -> & Hd & Hn).
  - apply Forall_forall. intros nd _. apply walkNode_rows.
  - done.
Qed.

End FlattenShape.

(** ** The stable sort *)

Section SortFacts.
Context {A : Type} (cmp : A -> A -> Z).

Lemma insertBy_Permutation x l : Str.insertBy cmp x l ≡ₚ x :: l.
Proof.
  induction l as [|y t IH]; cbn [Str.insertBy]; [done|].
  destruct (cmp x y <=? 0); [done|].
  rewrite IH. apply Permutation_swap.
Qed.

Lemma sortBy_Permutation l : Str.sortBy cmp l ≡ₚ l.
Proof.
  induction l as [|x t IH]; cbn [Str.sortBy]; [done|].
  by rewrite insertBy_Permutation, IH.
Qed.

Definition cmpLe (a b : A) : Prop := cmp a b <= 0.

Hypothesis cmp_total : forall a b, cmpLe a b \/ cmpLe b a.
Hypothesis cmp_trans : forall a b c, cmpLe a b -> cmpLe b c -> cmpLe a c.

Lemma insertBy_sorted x l :
  StronglySorted cmpLe l -> StronglySorted cmpLe (Str.insertBy cmp x l).
Proof.
  induction 1 as [|y t Hs IH Hall]; cbn [Str.insertBy].
  - repeat constructor.
  - destruct (Z.leb_spec (cmp x y) 0) as [Hle|Hgt].
    + apply SSorted_cons; [by apply SSorted_cons|].
      apply List.Forall_cons; [done|].
      eapply Forall_impl; [exact Hall|]. intros z Hz. by eapply cmp_trans.
    + apply SSorted_cons; [done|].
      rewrite insertBy_Permutation. apply List.Forall_cons; [|done].
      destruct (cmp_total x y) as [H|H]; [unfold cmpLe in H; lia | done].
Qed.

Lemma sortBy_sorted l : StronglySorted cmpLe (Str.sortBy cmp l).
Proof.
  induction l as [|x t IH]; cbn [Str.sortBy]; [constructor|].
  by apply insertBy_sorted.
Qed.

End SortFacts.

(** ** The all-files walk *)

Section WalkFacts.
Import Tree FileTree.
Context {R : Runtime}.
Variable fs : FileSystem.
Variable rootPath : string.
Variable D M : Z.
Variable statics globs : list string.

Local Abbreviation walkLoop' := (Tree.walkLoop rootPath M statics globs).
Local Abbreviation walk' := (Tree.walk fs rootPath D M statics globs).

(** What a call at [depth] with the counter at [c] may return: the
    counter grows by the number of nodes emitted, never passes the cap
    from below, and the nodes stay within the levels left. *)
Definition walkResultOK (depth c : Z) (res : option (list TreeNode * Z)) : Prop :=
  match res with
  | Some (nodes, c') =>
      c' = c + countNodes nodes
      /\ c' <= Z.max c M
      /\ forestNesting nodes <= Z.max 0 (D + 1 - depth)
  | None => True
  end.

Lemma walkLoop_ok recurse dirPath depth :
  depth <= D ->
  (forall p c, walkResultOK (depth + 1) c (recurse p c)) ->
  forall entries nodes c,
    forestNesting nodes <= D + 1 - depth ->
    match walkLoop' recurse dirPath entries nodes c with
    | Some (nodes', c') =>
        c' - countNodes nodes' = c - countNodes nodes
        /\ c' <= Z.max c M
        /\ forestNesting nodes' <= D + 1 - depth
    | None => True
    end.
Proof.
  intros Hd Hrec entries.
  induction entries as [|e rest IH]; intros nodes c Hn; cbn [walkLoop].
  - split_and!; [done | lia | done].
  - destruct (Z.geb_spec c M) as [Hge|Hlt]; [split_and!; [done | lia | done]|].
    destruct (shouldIgnore _ _ _ _ _); [by apply IH|].
    destruct (d_isDirectory e).
    + pose proof (Hrec (join dirPath (d_name e)) (c + 1)) as Hr.
      destruct (recurse _ _) as [[kids c1]|]; [|done].
      destruct Hr as (Hc1 & Hcap & Hnest).
      match goal with |- context [walkLoop' _ _ _ ?ns _] => specialize (IH ns c1) end.
      rewrite forestNesting_app, countNodes_app in IH. cbn [forestNesting countNodes] in IH.
      rewrite nodeNesting_eq, countNode_eq in IH.
      destruct (walkLoop' _ _ _ _ _) as [[nodes' c']|]; [|done].
      destruct IH as (H1 & H2 & H3); [lia|]. split_and!; lia.
    + match goal with |- context [walkLoop' _ _ _ ?ns ?cc] => specialize (IH ns cc) end.
      rewrite forestNesting_app, countNodes_app in IH. cbn [forestNesting countNodes] in IH.
      rewrite nodeNesting_eq, countNode_eq in IH.
      destruct (walkLoop' _ _ _ _ _) as [[nodes' c']|]; [|done].
      destruct IH as (H1 & H2 & H3); [lia|]. split_and!; lia.
Qed.

Lemma walk_ok fuel : forall dirPath depth c,
  walkResultOK depth c (walk' fuel dirPath depth c).
Proof.
  induction fuel as [|fuel IH]; intros dirPath depth c; cbn [Tree.walk]; [done|].
  destruct (Z.gtb_spec depth D) as [Hgt|Hle]; cbn [orb].
  { cbn. pose proof (forestNesting_nonneg []). cbn in *. lia. }
  destruct (Z.geb_spec c M) as [Hge|Hlt].
  { cbn. lia. }
  destruct (readdirSync fs dirPath) as [entries|]; [|cbn; lia].
  pose proof (walkLoop_ok (fun p c0 => walk' fuel p (depth + 1) c0) dirPath depth
                Hle (fun p c0 => IH p (depth + 1) c0)
                (Str.sortBy compareEntries entries) [] c) as H.
  cbn [forestNesting countNodes] in H.
  destruct (walkLoop' _ _ _ _ _) as [[nodes' c']|]; [|done].
  destruct H as (H1 & H2 & H3); [lia|]. cbn. split_and!; lia.
Qed.

(** The walk returns: the fuel never runs out before the depth bound
    stops the recursion. *)
Lemma walkLoop_returns recurse dirPath :
  (forall p c, is_Some (recurse p c)) ->
  forall entries nodes c, is_Some (walkLoop' recurse dirPath entries nodes c).
Proof.
  intros Hrec entries.
  induction entries as [|e rest IH]; intros nodes c; cbn [walkLoop]; [done|].
  destruct (c >=? M); [done|].
  destruct (shouldIgnore _ _ _ _ _); [by apply IH|].
  destruct (d_isDirectory e); [|by apply IH].
  destruct (Hrec (join dirPath (d_name e)) (c + 1)) as [[kids c1] ->]. by apply IH.
Qed.

Lemma walk_returns fuel : forall dirPath depth c,
  (Z.to_nat (D + 1 - depth) < fuel)%nat ->
  is_Some (walk' fuel dirPath depth c).
Proof.
  induction fuel as [|fuel IH]; intros dirPath depth c Hf; [lia|]. cbn [Tree.walk].
  destruct (Z.gtb_spec depth D) as [Hgt|Hle]; cbn [orb]; [done|].
  destruct (c >=? M); [done|].
  destruct (readdirSync fs dirPath) as [entries|]; [|done].
  apply walkLoop_returns. intros p c0. apply IH. lia.
Qed.

(** Once the counter is at the cap, neither a call of [walk] nor the
    loop of any directory adds a node. *)
Lemma walkLoop_at_cap recurse dirPath entries nodes c :
  M <= c -> walkLoop' recurse dirPath entries nodes c = Some (nodes, c).
Proof.
  intros Hc. destruct entries as [|e rest]; [done|]. cbn [walkLoop].
  destruct (Z.geb_spec c M); [done | lia].
Qed.

Lemma walk_at_cap fuel dirPath depth c :
  M <= c -> walk' (S fuel) dirPath depth c = Some ([], c).
Proof.
  intros Hc. cbn [Tree.walk].
  destruct (Z.geb_spec c M); [|lia]. by rewrite orb_true_r.
Qed.

(** A directory of files only, none of them ignored: the loop takes
    them in order until the cap. *)
Definition plainFile (dirPath : string) (e : Dirent) : bool :=
  negb (d_isDirectory e)
  && negb (shouldIgnore (d_name e) (relative rootPath (join dirPath (d_name e)))
                        false statics globs).

Lemma walkLoop_plain_files recurse dirPath entries :
  forallb (plainFile dirPath) entries = true ->
  forall nodes c, c <= M ->
    exists nodes',
      walkLoop' recurse dirPath entries nodes c
      = Some (nodes', Z.min M (c + Z.of_nat (length entries)))
      /\ countNodes nodes'
         = countNodes nodes + (Z.min M (c + Z.of_nat (length entries)) - c).
Proof.
  induction entries as [|e rest IH]; intros Hall nodes c Hc.
  - exists nodes. cbn [walkLoop length]. split; [f_equal; f_equal|]; lia.
  - cbn [forallb] in Hall. apply andb_true_iff in Hall as [He Hrest].
    unfold plainFile in He. apply andb_true_iff in He as [Hf Hi].
    apply negb_true_iff in Hf, Hi.
    cbn [walkLoop length]. destruct (Z.geb_spec c M) as [Hge|Hlt].
    + exists nodes. split; [f_equal; f_equal|]; lia.
    + rewrite Hf, Hi.
      destruct (IH Hrest
                  (nodes ++ [MkTreeNode (d_name e) (join dirPath (d_name e)) false None None])
                  (c + 1)) as (nodes' & -> & Hcount); [lia|].
      exists nodes'. split; [f_equal; f_equal; lia|].
      rewrite Hcount, countNodes_app. cbn [countNodes]. rewrite countNode_eq. lia.
Qed.

End WalkFacts.

Section WalkTreeFacts.
Import Tree FileTree.
Context {R : Runtime}.

Lemma walkTree_result fs rootPath options :
  exists c,
    Tree.walk fs rootPath (default 4 (maxDepth options)) (default 200 (maxEntries options))
      (default DEFAULT_IGNORE (ignorePatterns options)) (parseGitignore fs rootPath)
      (walkFuel (default 4 (maxDepth options))) rootPath 0 0
    = Some (walkTree fs rootPath options, c).
Proof.
  unfold walkTree.
  destruct (walk_returns fs rootPath (default 4 (maxDepth options))
              (default 200 (maxEntries options))
              (default DEFAULT_IGNORE (ignorePatterns options))
              (parseGitignore fs rootPath)
              (walkFuel (default 4 (maxDepth options))) rootPath 0 0)
    as [[nodes c] ->].
  - unfold walkFuel. rewrite Z.sub_0_r. lia.
  - by exists c.
Qed.

Lemma walkTree_count_le_cap fs rootPath options :
  countNodes (walkTree fs rootPath options) <= Z.max 0 (default 200 (maxEntries options)).
Proof.
  destruct (walkTree_result fs rootPath options) as [c Hc].
  pose proof (walk_ok fs rootPath (default 4 (maxDepth options))
                (default 200 (maxEntries options))
                (default DEFAULT_IGNORE (ignorePatterns options))
                (parseGitignore fs rootPath)
                (walkFuel (default 4 (maxDepth options))) rootPath 0 0) as H.
  rewrite Hc in H. cbn in H. lia.
Qed.

Lemma walkTree_nesting fs rootPath options :
  forestNesting (walkTree fs rootPath options)
  <= Z.max 0 (default 4 (maxDepth options) + 1).
Proof.
  destruct (walkTree_result fs rootPath options) as [c Hc].
  pose proof (walk_ok fs rootPath (default 4 (maxDepth options))
                (default 200 (maxEntries options))
                (default DEFAULT_IGNORE (ignorePatterns options))
                (parseGitignore fs rootPath)
                (walkFuel (default 4 (maxDepth options))) rootPath 0 0) as H.
  rewrite Hc in H. cbn in H. lia.
Qed.

Lemma walkTree_flat_directory fs rootPath entries :
  readdirSync fs rootPath = Some entries ->
  forallb (plainFile rootPath DEFAULT_IGNORE (parseGitignore fs rootPath) rootPath) entries
  = true ->
  countNodes (walkTree fs rootPath noOptions) = Z.min 200 (Z.of_nat (length entries)).
Proof.
  intros Hread Hall. unfold walkTree. cbn [noOptions maxDepth maxEntries ignorePatterns default
    from_option id walkFuel Tree.walk]. cbn [Z.gtb Z.geb Z.compare orb]. rewrite Hread.
  destruct (walkLoop_plain_files rootPath 200 DEFAULT_IGNORE (parseGitignore fs rootPath)
              (fun p c => Tree.walk fs rootPath 4 200 DEFAULT_IGNORE
                            (parseGitignore fs rootPath) (Z.to_nat (4 + 1)) p (0 + 1) c)
              rootPath (Str.sortBy compareEntries entries))
    with (nodes := @nil TreeNode) (c := 0) as (nodes' & Hw & Hcount).
  - apply forallb_forall. intros e He.
    rewrite forallb_forall in Hall. apply Hall.
    apply list_elem_of_In. apply list_elem_of_In in He.
    by rewrite sortBy_Permutation in He.
  - lia.
  - rewrite Hw, Hcount. rewrite (Permutation_length (sortBy_Permutation _ entries)).
    cbn [countNodes]. lia.
Qed.

(** C2. The cap on entries is one for the whole walk. With 500 files in
    one directory, none of them ignored, and the default options, the
    forest has exactly 200 nodes; for every file system and every
    options the forest has at most [maxEntries] nodes in all; and with
    the counter at the cap neither a call of [walk] nor the loop of any
    directory adds a node. *)
Theorem C2_entry_cap_is_global (fs : FileSystem) (rootPath : string) (entries : list Dirent) :
  readdirSync fs rootPath = Some entries ->
  length entries = 500%nat ->
  forallb (plainFile rootPath DEFAULT_IGNORE (parseGitignore fs rootPath) rootPath) entries
  = true ->
  countNodes (walkTree fs rootPath noOptions) = 200
  /\ (forall fs' rootPath' options,
         countNodes (walkTree fs' rootPath' options)
         <= Z.max 0 (default 200 (maxEntries options)))
  /\ (forall fs' rootPath' maxDepth_ maxEntries_ statics globs fuel recurse
             dirPath depth rest nodes entryCount,
         maxEntries_ <= entryCount ->
         Tree.walk fs' rootPath' maxDepth_ maxEntries_ statics globs (S fuel)
                   dirPath depth entryCount = Some ([], entryCount)
         /\ walkLoop rootPath' maxEntries_ statics globs recurse dirPath rest nodes entryCount
            = Some (nodes, entryCount)).
Proof.
  intros Hread Hlen Hall. split_and!.
  - rewrite (walkTree_flat_directory fs rootPath entries Hread Hall), Hlen. lia.
  - apply walkTree_count_le_cap.
  - intros. split; [by apply walk_at_cap | by apply walkLoop_at_cap].
Qed.

End WalkTreeFacts.

Lemma C2_witness_500_files :
  FileTree.countNodes (@Tree.walkTree Demo.demoRuntime (Demo.flatFS 500) "/r" Tree.noOptions)
  = 200.
Proof.
  apply (@C2_entry_cap_is_global Demo.demoRuntime (Demo.flatFS 500) "/r" (Demo.flatFiles 500)).
  - reflexivity.
  - vm_compute. reflexivity.
  - vm_compute. reflexivity.
Defined.

(** C7, as amended. [walkTree] reads the directories at depths 0 to
    [maxDepth], the root being at depth 0, so no node of the forest is
    nested deeper than [maxDepth + 1] levels below the root: 5 levels
    with the default [maxDepth] of 4. Counted from the entries of the
    root as depth 0, as the rows of [flattenTree] count it, no row of
    the default walk is deeper than 4. *)
Theorem C7_nesting_within_maxDepth_plus_one
        {R : Runtime} (fs : Tree.FileSystem) (rootPath : string) (options : Tree.WalkOptions) :
  forestNesting (Tree.walkTree fs rootPath options)
  <= Z.max 0 (default 4 (Tree.maxDepth options) + 1)
  /\ forestNesting (Tree.walkTree fs rootPath Tree.noOptions) <= 5
  /\ Forall (fun e => 0 <= FileTree.depth e <= 4)
            (FileTree.flattenTree (Tree.walkTree fs rootPath Tree.noOptions)).
Proof.
  pose proof (walkTree_nesting fs rootPath Tree.noOptions) as H. cbn in H.
  split_and!; [apply walkTree_nesting | lia |].
  eapply Forall_impl; [apply flattenTree_rows|]. cbn. intros e He. lia.
Qed.

(** C7, as stated, fails: under /r/a/b/c/d the directory e sits 5 levels
    below the root and is emitted by the default walk (its own entries
    are not). *)
Lemma C7_counterexample_fifth_level :
  @Tree.walkTree Demo.demoRuntime Demo.chainFS "/r" Tree.noOptions
  = [Tree.MkTreeNode "a" "/r/a" true (Some
      [Tree.MkTreeNode "b" "/r/a/b" true (Some
        [Tree.MkTreeNode "c" "/r/a/b/c" true (Some
          [Tree.MkTreeNode "d" "/r/a/b/c/d" true (Some
            [Tree.MkTreeNode "e" "/r/a/b/c/d/e" true (Some []) None]) None]) None]) None]) None]
  /\ forestNesting (@Tree.walkTree Demo.demoRuntime Demo.chainFS "/r" Tree.noOptions) = 5
  /\ ~ forestNesting (@Tree.walkTree Demo.demoRuntime Demo.chainFS "/r" Tree.noOptions) <= 4.
Proof.
  split_and!; [vm_compute; reflexivity | vm_compute; reflexivity |].
  intros H. vm_compute in H. by apply H.
Qed.

(** ** Sibling order *)

Section SiblingOrder.
Import Tree.

(** A property of every sibling group of a forest: of the top level and
    of the children of every node. *)
Inductive everyGroup (P : list TreeNode -> Prop) : list TreeNode -> Prop :=
| everyGroup_intro nodes :
    P nodes ->
    (forall nd kids, nd ∈ nodes -> children nd = Some kids -> everyGroup P kids) ->
    everyGroup P nodes.

(** Directories before files, and two nodes of one kind by [le] on
    their names. *)
Definition dirsFirstThen (le : string -> string -> Prop) (a b : TreeNode) : Prop :=
  (isDir a = true /\ isDir b = false)
  \/ (isDir a = isDir b /\ le (name a) (name b)).

(** The order of the claim as stated: names by their code units. *)
Definition codeUnitLe (x y : string) : Prop := String.compare x y <> Gt.

Definition entryOf (nd : TreeNode) : Dirent :=
  {| d_name := name nd; d_isDirectory := isDir nd |}.

Lemma StronglySorted_sublist {A} (Rel : A -> A -> Prop) (l1 l2 : list A) :
  l1 `sublist_of` l2 -> StronglySorted Rel l2 -> StronglySorted Rel l1.
Proof.
  induction 1 as [|x l1 l2 Hs IH|x l1 l2 Hs IH]; intros Hsorted.
  - constructor.
  - apply StronglySorted_inv in Hsorted as [Ht Hall].
    apply SSorted_cons; [by apply IH|].
    apply Forall_forall. intros y Hy. rewrite Forall_forall in Hall.
    apply Hall. by eapply elem_of_sublist.
  - apply StronglySorted_inv in Hsorted as [Ht _]. by apply IH.
Qed.

Lemma StronglySorted_weaken {A} (R1 R2 : A -> A -> Prop) (l : list A) :
  (forall a b, R1 a b -> R2 a b) -> StronglySorted R1 l -> StronglySorted R2 l.
Proof.
  intros Himp. induction 1 as [|x l Hs IH Hall]; [constructor|].
  apply SSorted_cons; [done|]. eapply Forall_impl; [exact Hall | auto].
Qed.

Context {R : Runtime}.

Definition localeLe (x y : string) : Prop := localeCompare x y <= 0.

Lemma compareKind_le a b x y :
  compareKind a b x y <= 0 <-> (a = true /\ b = false) \/ (a = b /\ localeLe x y).
Proof.
  unfold compareKind, localeLe. destruct a, b; cbn; split; intros H.
  all: try (right; split; [reflexivity | exact H]).
  all: try (destruct H as [[? ?] | [? ?]]; congruence || lia).
  all: try (left; split; reflexivity).
  all: try lia.
Qed.

Lemma compareNodes_le a b :
  compareNodes a b <= 0 <-> dirsFirstThen localeLe a b.
Proof. apply compareKind_le. Qed.

Context {L : RuntimeLaws R}.

Lemma compareKind_total a b x y :
  compareKind a b x y <= 0 \/ compareKind b a y x <= 0.
Proof.
  rewrite !compareKind_le. destruct a, b; auto.
  - destruct (localeCompare_total x y); [left | right]; right; done.
  - destruct (localeCompare_total x y); [left | right]; right; done.
Qed.

Lemma compareKind_trans a b c x y z :
  compareKind a b x y <= 0 -> compareKind b c y z <= 0 -> compareKind a c x z <= 0.
Proof.
  rewrite !compareKind_le.
  intros [[-> ->] | [-> Hxy]] [[? ?] | [<- Hyz]]; try congruence; auto.
  right. split; [done|]. by eapply localeCompare_trans.
Qed.

Lemma sortBy_nodes_sorted l :
  StronglySorted (dirsFirstThen localeLe) (Str.sortBy compareNodes l).
Proof.
  eapply StronglySorted_weaken; [|apply (sortBy_sorted compareNodes)].
  - intros a b. apply compareNodes_le.
  - intros a b. apply compareKind_total.
  - intros a b c. apply compareKind_trans.
Qed.

Lemma sortBy_entries_sorted l :
  StronglySorted (cmpLe compareEntries) (Str.sortBy compareEntries l).
Proof.
  apply sortBy_sorted.
  - intros a b. apply compareKind_total.
  - intros a b c. apply compareKind_trans.
Qed.

Definition siblingsSorted : list TreeNode -> Prop :=
  everyGroup (StronglySorted (dirsFirstThen localeLe)).

(** *** The all-files walk *)

Section Walk.
Variable fs : FileSystem.
Variable rootPath : string.
Variable D M : Z.
Variable statics globs : list string.

Definition kidsSorted (nd : TreeNode) : Prop :=
  forall kids, children nd = Some kids -> siblingsSorted kids.

Lemma walkLoop_added recurse dirPath :
  (forall p c kids c', recurse p c = Some (kids, c') -> siblingsSorted kids) ->
  forall entries nodes c nodes' c',
    walkLoop rootPath M statics globs recurse dirPath entries nodes c = Some (nodes', c') ->
    exists added,
      nodes' = nodes ++ added
      /\ List.map entryOf added `sublist_of` entries
      /\ Forall kidsSorted added.
Proof.
  intros Hrec entries.
  induction entries as [|e rest IH]; intros nodes c nodes' c' Hw; cbn [walkLoop] in Hw.
  - injection Hw as <- <-. exists []. by rewrite app_nil_r.
  - destruct (c >=? M).
    { injection Hw as <- <-. exists []. rewrite app_nil_r. split_and!; [done| |done].
      apply sublist_nil_l. }
    destruct (shouldIgnore _ _ _ _ _).
    { destruct (IH _ _ _ _ Hw) as (added & -> & Hsub & Hk).
      exists added. split_and!; [done | by apply sublist_cons | done]. }
    destruct e as [nm isd]. cbn [d_name d_isDirectory] in Hw. destruct isd.
    + destruct (recurse _ _) as [[kids c1]|] eqn:Hr; [|done].
      destruct (IH _ _ _ _ Hw) as (added & -> & Hsub & Hk).
      eexists (_ :: added). split_and!.
      * by rewrite <- app_assoc.
      * cbn [List.map]. by apply sublist_skip.
      * apply List.Forall_cons; [|done]. intros kids' Hkids. cbn in Hkids.
        injection Hkids as <-. by eapply Hrec.
    + destruct (IH _ _ _ _ Hw) as (added & -> & Hsub & Hk).
      eexists (_ :: added). split_and!.
      * by rewrite <- app_assoc.
      * cbn [List.map]. by apply sublist_skip.
      * apply List.Forall_cons; [|done]. intros kids' Hkids. discriminate.
Qed.

Lemma walk_sorted fuel : forall dirPath depth c nodes c',
  Tree.walk fs rootPath D M statics globs fuel dirPath depth c = Some (nodes, c') ->
  siblingsSorted nodes.
Proof.
  assert (Hnil : siblingsSorted []).
  { constructor; [constructor|]. intros nd kids Hin. by apply elem_of_nil in Hin. }
  induction fuel as [|fuel IH]; intros dirPath depth c nodes c' Hw; [done|].
  cbn [Tree.walk] in Hw.
  destruct ((depth >? D) || (c >=? M)); [by injection Hw as <- <-|].
  destruct (readdirSync fs dirPath) as [entries|]; [|by injection Hw as <- <-].
  apply walkLoop_added in Hw as (added & -> & Hsub & Hk).
  2:{ intros p c0 kids c1. apply IH. }
  rewrite app_nil_l. constructor.
  - pose proof (StronglySorted_sublist _ _ _ Hsub (sortBy_entries_sorted entries)) as Hs.
    clear -Hs. induction added as [|a added IH]; [constructor|].
    cbn [List.map] in Hs. apply StronglySorted_inv in Hs as [Ht Hall].
    apply SSorted_cons; [by apply IH|].
    apply Forall_forall. intros b Hb. apply compareNodes_le.
    rewrite Forall_forall in Hall. apply (Hall (entryOf b)).
    apply list_elem_of_In, in_map, list_elem_of_In, Hb.
  - intros nd kids Hin. rewrite Forall_forall in Hk. by apply Hk.
Qed.

End Walk.

Lemma walkTree_sorted fs rootPath options : siblingsSorted (walkTree fs rootPath options).
Proof.
  destruct (walkTree_result fs rootPath options) as [c Hc].
  by eapply walk_sorted.
Qed.

End SiblingOrder.

(** ** Induction on buckets *)

Section DirBucketInd.
Import Tree.
Variable P : DirBucket -> Prop.
Hypothesis step : forall files subdirs,
    Forall (fun kv => P (snd kv)) subdirs -> P (MkBucket files subdirs).

Fixpoint DirBucket_nested_ind (b : DirBucket) : P b :=
  match b with
  | MkBucket files subdirs =>
      step files subdirs
        ((fix all (l : list (string * DirBucket)) : Forall (fun kv => P (snd kv)) l :=
            match l with
            | [] => @List.Forall_nil _ _
            | kv :: r =>
                @List.Forall_cons _ (fun kv => P (snd kv)) kv r
                  (DirBucket_nested_ind (snd kv)) (all r)
            end) subdirs)
  end.
End DirBucketInd.

(** ** Git-diff mode: the shape of the forest *)

Section GitTreeFacts.
Import Tree.
Context {R : Runtime}.

Definition dirNode (rootPath parentPath : string) (kv : string * DirBucket) : TreeNode :=
  MkTreeNode (fst kv) (join rootPath (dirFullPath parentPath (fst kv))) true
    (Some (bucketToNodes rootPath (snd kv) (dirFullPath parentPath (fst kv)))) None.

Lemma bucketToNodes_unfold rootPath files subdirs parentPath :
  bucketToNodes rootPath (MkBucket files subdirs) parentPath
  = Str.sortBy compareNodes
      (List.map (dirNode rootPath parentPath) subdirs ++ List.map (fileNode rootPath) files).
Proof.
  cbn [bucketToNodes]. f_equal. f_equal.
  induction subdirs as [|[k v] t IH]; [reflexivity|].
  cbn [List.map]. by rewrite <- IH.
Qed.

Lemma bucketToNodes_elem rootPath files subdirs parentPath nd :
  nd ∈ bucketToNodes rootPath (MkBucket files subdirs) parentPath
  <-> (exists kv, kv ∈ subdirs /\ nd = dirNode rootPath parentPath kv)
      \/ (exists f, f ∈ files /\ nd = fileNode rootPath f).
Proof.
  rewrite bucketToNodes_unfold, sortBy_Permutation, elem_of_app.
  rewrite !list_elem_of_fmap. split.
  - intros [(kv & -> & H) | (f & -> & H)]; [left | right]; eauto.
  - intros [(kv & H & ->) | (f & H & ->)]; [left | right]; eauto.
Qed.

Context {L : RuntimeLaws R}.

Lemma bucketToNodes_sorted rootPath bucket :
  forall parentPath, siblingsSorted (bucketToNodes rootPath bucket parentPath).
Proof.
  induction bucket as [files subdirs IH] using DirBucket_nested_ind.
  intros parentPath. constructor.
  - rewrite bucketToNodes_unfold. apply sortBy_nodes_sorted.
  - intros nd kids Hin Hkids.
    apply bucketToNodes_elem in Hin as [(kv & Hkv & ->) | (f & Hf & ->)].
    + cbn in Hkids. injection Hkids as <-.
      rewrite Forall_forall in IH. by apply IH.
    + discriminate.
Qed.

Lemma buildGitTree_sorted execOutput rootPath :
  siblingsSorted (buildGitTree execOutput rootPath).
Proof.
  unfold buildGitTree. destruct (_ =? 0).
  - constructor; [constructor|]. intros nd kids Hin. by apply elem_of_nil in Hin.
  - apply bucketToNodes_sorted.
Qed.

(** C3, as amended. In every forest of either build mode, in every
    sibling group all directories precede all files, and nodes of one
    kind are in the order of [localeCompare] on their names (the
    collation of the runtime, which is not the order of code units). *)
Theorem C3_siblings_sorted_by_localeCompare
        (fs : FileSystem) (rootPath : string) (options : WalkOptions)
        (execOutput : option string) :
  everyGroup (StronglySorted (dirsFirstThen localeLe)) (walkTree fs rootPath options)
  /\ everyGroup (StronglySorted (dirsFirstThen localeLe)) (buildGitTree execOutput rootPath).
Proof. split; [apply walkTree_sorted | apply buildGitTree_sorted]. Qed.

End GitTreeFacts.

(** ** The concrete collation is a lawful comparator *)

Section DemoLaws.

Lemma string_compare_le_trans (a : string) : forall b c,
  String.compare a b <> Gt -> String.compare b c <> Gt -> String.compare a c <> Gt.
Proof.
  induction a as [|x a IH]; intros [|y b] [|z c]; cbn [String.compare]; try congruence.
  unfold Ascii.compare.
  generalize (N_of_ascii x) as nx, (N_of_ascii y) as ny, (N_of_ascii z) as nz.
  intros nx ny nz.
  destruct (N.compare_spec nx ny) as [-> | Hxy | Hxy]; [| |congruence].
  - destruct (N.compare_spec ny nz) as [-> | Hyz | Hyz]; [apply IH | congruence | congruence].
  - destruct (N.compare_spec ny nz) as [-> | Hyz | Hyz]; [| |congruence].
    + intros _ _. destruct (N.compare_spec nx nz); [lia | congruence | lia].
    + intros _ _. destruct (N.compare_spec nx nz); [lia | congruence | lia].
Qed.

Lemma collate_le a b :
  Demo.collate a b <= 0 <-> String.compare (Demo.collationKey a) (Demo.collationKey b) <> Gt.
Proof.
  unfold Demo.collate. destruct (String.compare _ _); cbn; split; (lia || congruence).
Qed.

Lemma demoRuntime_laws : RuntimeLaws Demo.demoRuntime.
Proof.
  split; cbn [localeCompare Demo.demoRuntime].
  - intros a b. rewrite !collate_le, (String.compare_antisym (Demo.collationKey b)).
    destruct (String.compare _ _); cbn; [left | left | right]; congruence.
  - intros a b c. rewrite !collate_le. apply string_compare_le_trans.
Qed.

End DemoLaws.

Lemma C3_witness_sorted_forests :
  everyGroup (StronglySorted (dirsFirstThen (@localeLe Demo.demoRuntime)))
             (@Tree.walkTree Demo.demoRuntime Demo.caseFS "/r" Tree.noOptions)
  /\ everyGroup (StronglySorted (dirsFirstThen (@localeLe Demo.demoRuntime)))
                (@Tree.buildGitTree Demo.demoRuntime (Some Demo.statusOutput) "/r").
Proof.
  exact (@C3_siblings_sorted_by_localeCompare Demo.demoRuntime demoRuntime_laws
           Demo.caseFS "/r" Tree.noOptions (Some Demo.statusOutput)).
Defined.

(** C3, as stated, fails: for a directory with the files B and a, the
    collation puts a before B, while by code units B (66) comes before
    a (97). *)
Lemma C3_counterexample_case_order :
  @Tree.walkTree Demo.demoRuntime Demo.caseFS "/r" Tree.noOptions
  = [Tree.MkTreeNode "a" "/r/a" false None None;
     Tree.MkTreeNode "B" "/r/B" false None None]
  /\ ~ everyGroup (StronglySorted (dirsFirstThen codeUnitLe))
         (@Tree.walkTree Demo.demoRuntime Demo.caseFS "/r" Tree.noOptions).
Proof.
  assert (E : @Tree.walkTree Demo.demoRuntime Demo.caseFS "/r" Tree.noOptions
              = [Tree.MkTreeNode "a" "/r/a" false None None;
                 Tree.MkTreeNode "B" "/r/B" false None None])
    by (vm_compute; reflexivity).
  split; [exact E|]. rewrite E. intros H. inversion H as [nodes Hs _ Enodes].
  apply StronglySorted_inv in Hs as [_ Hall].
  apply Forall_cons in Hall as [[[Hd _] | [_ Hle]] _].
  - discriminate Hd.
  - apply Hle. vm_compute. reflexivity.
Qed.

(** ** Ignore rules *)

Section IgnoreRules.
Import Tree.
Context {R : Runtime}.

(** The rule in the words of the specification: the relative path is
    tested as it is, for files and directories alike. *)
Definition shouldIgnoreAsSpecified (name relPath : string) (isDir : bool)
           (staticNames patterns : list string) : Prop :=
  In name staticNames
  \/ exists p, In p patterns
       /\ (globMatch p relPath = true
           \/ globMatch p name = true
           \/ (isDir = true /\ globMatch p (name +:+ "/") = true)).

(** The rule of the code: for a directory the relative path is tested
    with a separator appended. *)
Definition shouldIgnoreRule (name relPath : string) (isDir : bool)
           (staticNames patterns : list string) : Prop :=
  In name staticNames
  \/ exists p, In p patterns
       /\ (globMatch p (if isDir then relPath +:+ "/" else relPath) = true
           \/ globMatch p name = true
           \/ (isDir = true /\ globMatch p (name +:+ "/") = true)).

Lemma includes_In x l : Str.includes x l = true <-> In x l.
Proof.
  unfold Str.includes. rewrite existsb_exists. split.
  - intros (y & Hy & E). apply String.eqb_eq in E. by subst.
  - intros H. exists x. split; [done | apply String.eqb_refl].
Qed.

Lemma shouldIgnore_rule name relPath isDir staticNames patterns :
  shouldIgnore name relPath isDir staticNames patterns = true
  <-> shouldIgnoreRule name relPath isDir staticNames patterns.
Proof.
  unfold shouldIgnore, shouldIgnoreRule.
  destruct (Str.includes name staticNames) eqn:Hs.
  - apply includes_In in Hs. split; auto.
  - assert (Hn : ~ In name staticNames).
    { intros H. apply includes_In in H. congruence. }
    rewrite existsb_exists. split.
    + intros (p & Hp & Hm). right. exists p. split; [done|].
      apply orb_true_iff in Hm as [Hm | Hm]; [apply orb_true_iff in Hm as [Hm | Hm]|]; auto.
      apply andb_true_iff in Hm as [-> Hm]. auto.
    + intros [H | (p & Hp & Hm)]; [done|]. exists p. split; [done|].
      destruct Hm as [-> | [-> | [-> ->]]]; rewrite ?orb_true_r; done.
Qed.

Lemma parseGitignore_keeps fs rootPath content line :
  existsSync fs (join rootPath ".gitignore") = true ->
  readFileSync fs (join rootPath ".gitignore") = Some content ->
  In line (Str.split Str.LF content) ->
  Str.truthy (Str.trim line) = true ->
  Str.startsWithChar Str.HASH (Str.trim line) = false ->
  In (Str.trim line) (parseGitignore fs rootPath).
Proof.
  intros He Hr Hin Ht Hh. unfold parseGitignore. rewrite He, Hr. cbn [negb].
  apply filter_In. split; [by apply in_map|]. by rewrite Ht, Hh.
Qed.

(** What [Bun.Glob] does with an exclamation mark at the start of a
    pattern: the glob matches exactly the strings that the rest of the
    pattern does not match. *)
Definition negatesAtBang (p : string) : Prop :=
  forall s, globMatch ("!" +:+ p) s = negb (globMatch p s).

(** Whether a pattern matches an entry in every form that
    [shouldIgnore] tests. *)
Definition matchesAllForms (p name relPath : string) (isDir : bool) : bool :=
  globMatch p (if isDir then relPath +:+ "/" else relPath)
  && globMatch p name
  && (negb isDir || globMatch p (name +:+ "/")).

Lemma shouldIgnore_negated name relPath isDir p :
  negatesAtBang p ->
  shouldIgnore name relPath isDir [] ["!" +:+ p]
  = negb (matchesAllForms p name relPath isDir).
Proof.
  intros Hn. unfold shouldIgnore, matchesAllForms. cbn [Str.includes existsb].
  rewrite !Hn, orb_false_r. destruct isDir; cbn [andb negb orb].
  - by rewrite !negb_andb.
  - by rewrite orb_false_r, andb_true_r, negb_andb.
Qed.


End IgnoreRules.

(** The concrete matcher negates at the mark, as [Bun.Glob] does. *)
Lemma demoRuntime_negates p : @negatesAtBang Demo.demoRuntime p.
Proof. intros s. reflexivity. Qed.


(** ** Git-diff mode: which changes reach the forest *)

Section GitIgnore.
Import Tree.
Context {R : Runtime}.

(** The forest has the file with these path segments: a chain of
    directory nodes named by all segments but the last, and a file node
    named by the last. *)
Fixpoint hasPath (forest : list TreeNode) (parts : list string) : Prop :=
  match parts with
  | [] => False
  | [nm] => exists nd, nd ∈ forest /\ name nd = nm /\ isDir nd = false
  | d :: rest =>
      exists nd kids, nd ∈ forest /\ name nd = d /\ isDir nd = true
                      /\ children nd = Some kids /\ hasPath kids rest
  end.

(** The bucket has the file item below the directories [dirs]. *)
Fixpoint bucketHas (bucket : DirBucket) (dirs : list string) (f : FileItem) : Prop :=
  match dirs with
  | [] => f ∈ bucketFiles bucket
  | d :: rest => exists sub, (d, sub) ∈ bucketSubdirs bucket /\ bucketHas sub rest f
  end.

Lemma split_nonempty sep s : Str.split sep s <> [].
Proof.
  destruct s as [|c s]; cbn [Str.split]; [done|].
  destruct (Ascii.eqb c sep); [done|]. by destruct (Str.split sep s).
Qed.

Lemma mapUpdate_keys {V} k (g : V -> V) m :
  List.map fst (mapUpdate k g m) = List.map fst m.
Proof.
  induction m as [|[k' v] t IH]; [reflexivity|]. cbn [mapUpdate].
  destruct (String.eqb k' k); cbn [List.map fst]; [reflexivity | by rewrite IH].
Qed.

Lemma mapUpdate_hit {V} k (g : V -> V) m :
  mapHas k m = true -> exists v, (k, v) ∈ m /\ (k, g v) ∈ mapUpdate k g m.
Proof.
  induction m as [|[k' v] t IH]; [discriminate|]. cbn [mapHas existsb fst mapUpdate].
  destruct (String.eqb_spec k' k) as [-> | Hne]; cbn [orb].
  - intros _. exists v. split; apply list_elem_of_here.
  - intros H. destruct (IH H) as (v0 & H1 & H2).
    exists v0. split; by apply list_elem_of_further.
Qed.

Lemma mapUpdate_keeps {V} k (g : V -> V) m k0 v0 :
  (k0, v0) ∈ m -> (k0, v0) ∈ mapUpdate k g m \/ (k0, g v0) ∈ mapUpdate k g m.
Proof.
  induction m as [|[k' v] t IH]; intros Hin; [by apply elem_of_nil in Hin|].
  cbn [mapUpdate]. apply elem_of_cons in Hin as [E | Hin].
  - injection E as -> ->. destruct (String.eqb k' k); [right | left]; apply list_elem_of_here.
  - destruct (String.eqb k' k).
    + left. by apply list_elem_of_further.
    + destruct (IH Hin); [left | right]; by apply list_elem_of_further.
Qed.

Lemma mapHas_snoc {V} k (m : list (string * V)) v : mapHas k (m ++ [(k, v)]) = true.
Proof.
  unfold mapHas. rewrite existsb_app. cbn. by rewrite String.eqb_refl, orb_true_r.
Qed.

Lemma addFile_has dirs f : forall bucket, bucketHas (addFile dirs f bucket) dirs f.
Proof.
  induction dirs as [|d rest IH]; intros [files subdirs]; cbn [addFile bucketHas].
  - cbn [bucketFiles]. apply elem_of_app. right. apply list_elem_of_here.
  - cbn [bucketSubdirs].
    assert (Hhas : mapHas d (if mapHas d subdirs then subdirs
                             else subdirs ++ [(d, emptyBucket)]) = true).
    { destruct (mapHas d subdirs) eqn:E; [done | apply mapHas_snoc]. }
    destruct (mapUpdate_hit d (addFile rest f) _ Hhas) as (v & _ & Hin).
    exists (addFile rest f v). split; [done | apply IH].
Qed.

Lemma addFile_keeps dirs' f' : forall bucket dirs f,
  bucketHas bucket dirs f -> bucketHas (addFile dirs' f' bucket) dirs f.
Proof.
  induction dirs' as [|d' rest' IH]; intros [files subdirs] dirs f Hhas.
  - cbn [addFile]. destruct dirs as [|d rest]; cbn [bucketHas bucketFiles bucketSubdirs] in *.
    + apply elem_of_app. by left.
    + done.
  - cbn [addFile]. destruct dirs as [|d rest]; cbn [bucketHas bucketFiles bucketSubdirs] in *.
    + done.
    + destruct Hhas as (sub & Hin & Hsub).
      assert (Hin1 : (d, sub) ∈ (if mapHas d' subdirs then subdirs
                                  else subdirs ++ [(d', emptyBucket)])).
      { destruct (mapHas d' subdirs); [done | apply elem_of_app; by left]. }
      destruct (mapUpdate_keeps d' (addFile rest' f') _ d sub Hin1) as [H | H].
      * by exists sub.
      * exists (addFile rest' f' sub). split; [done | by apply IH].
Qed.

Definition itemOf (change : GitFileEntry) : FileItem :=
  {| f_name := List.last (Str.split Str.SLASH (relPath change)) EmptyString;
     f_relPath := relPath change;
     f_status := status change |}.

Definition dirsOf (change : GitFileEntry) : list string :=
  removelast (Str.split Str.SLASH (relPath change)).

Definition kept (change : GitFileEntry) : bool :=
  negb (Str.includes (topDir (relPath change)) DEFAULT_IGNORE).

Lemma addChange_keeps change bucket dirs f :
  bucketHas bucket dirs f -> bucketHas (addChange bucket change) dirs f.
Proof.
  intros H. unfold addChange. destruct (Str.includes _ _); [done|]. by apply addFile_keeps.
Qed.

Lemma fold_addChange_keeps changes : forall bucket dirs f,
  bucketHas bucket dirs f -> bucketHas (fold_left addChange changes bucket) dirs f.
Proof.
  induction changes as [|c t IH]; intros bucket dirs f H; [done|].
  cbn [fold_left]. apply IH. by apply addChange_keeps.
Qed.

Lemma fold_addChange_has changes change : forall bucket,
  In change changes -> kept change = true ->
  bucketHas (fold_left addChange changes bucket) (dirsOf change) (itemOf change).
Proof.
  induction changes as [|c t IH]; intros bucket Hin Hk; [done|].
  cbn [fold_left]. destruct Hin as [-> | Hin]; [|by apply IH].
  apply fold_addChange_keeps. unfold addChange, kept in *.
  apply negb_true_iff in Hk. rewrite Hk. apply addFile_has.
Qed.

Lemma bucketToNodes_has rootPath dirs f : forall bucket parentPath,
  bucketHas bucket dirs f ->
  hasPath (bucketToNodes rootPath bucket parentPath) (dirs ++ [f_name f]).
Proof.
  induction dirs as [|d rest IH]; intros [files subdirs] parentPath Hhas;
    cbn [bucketHas bucketFiles bucketSubdirs] in Hhas.
  - cbn [app hasPath]. exists (fileNode rootPath f). split_and!; [|done|done].
    apply bucketToNodes_elem. right. by exists f.
  - destruct Hhas as (sub & Hin & Hsub).
    change ((d :: rest) ++ [f_name f]) with (d :: (rest ++ [f_name f])).
    assert (Hgoal : exists nd kids,
               nd ∈ bucketToNodes rootPath (MkBucket files subdirs) parentPath
               /\ name nd = d /\ isDir nd = true /\ children nd = Some kids
               /\ hasPath kids (rest ++ [f_name f])).
    { exists (dirNode rootPath parentPath (d, sub)). eexists. split_and!.
      - apply bucketToNodes_elem. left. by exists (d, sub).
      - done.
      - done.
      - reflexivity.
      - by apply IH. }
    cbn [hasPath]. destruct (rest ++ [f_name f]) eqn:E; [|exact Hgoal].
    by destruct rest.
Qed.

(** No entry of the root bucket carries a name of the default set. *)
Definition rootClean (bucket : DirBucket) : Prop :=
  Forall (fun k => Str.includes k DEFAULT_IGNORE = false)
         (List.map fst (bucketSubdirs bucket) ++ List.map f_name (bucketFiles bucket)).

Lemma addChange_clean bucket change : rootClean bucket -> rootClean (addChange bucket change).
Proof.
  intros Hc. unfold addChange, topDir.
  destruct (Str.includes _ _) eqn:Hi; [done|].
  pose proof (split_nonempty Str.SLASH (relPath change)) as Hne.
  destruct (Str.split Str.SLASH (relPath change)) as [|p [|q rest]] eqn:Hparts; [done| |].
  - destruct bucket as [files subdirs]. cbn [removelast addFile List.last hd] in *.
    unfold rootClean in *. cbn [bucketSubdirs bucketFiles f_name] in *.
    rewrite map_app, app_assoc. apply Forall_app. split; [done|].
    cbn. by constructor.
  - destruct bucket as [files subdirs].
    change (removelast (p :: q :: rest)) with (p :: removelast (q :: rest)).
    cbn [addFile hd] in *.
    unfold rootClean in *. cbn [bucketSubdirs bucketFiles] in *.
    rewrite mapUpdate_keys. destruct (mapHas p subdirs); [done|].
    rewrite map_app. cbn [List.map fst].
    apply Forall_app in Hc as [H1 H2]. rewrite !Forall_app. split_and!; [done | | done].
    by constructor.
Qed.

Lemma fold_addChange_clean changes : forall bucket,
  rootClean bucket -> rootClean (fold_left addChange changes bucket).
Proof.
  induction changes as [|c t IH]; intros bucket H; [done|].
  cbn [fold_left]. apply IH. by apply addChange_clean.
Qed.

Lemma buildGitTree_top_names execOutput rootPath nd :
  nd ∈ buildGitTree execOutput rootPath -> Str.includes (name nd) DEFAULT_IGNORE = false.
Proof.
  unfold buildGitTree. destruct (_ =? 0); [intros H; by apply elem_of_nil in H|].
  pose proof (fold_addChange_clean (getGitChanges execOutput) emptyBucket) as Hc.
  destruct (fold_left addChange _ _) as [files subdirs].
  unfold rootClean in Hc. cbn [bucketSubdirs bucketFiles] in Hc.
  specialize (Hc ltac:(constructor)). apply Forall_app in Hc as [H1 H2].
  rewrite Forall_forall in H1, H2.
  intros Hin. apply bucketToNodes_elem in Hin as [(kv & Hkv & ->) | (f & Hf & ->)].
  - cbn [name dirNode]. apply H1. by apply list_elem_of_fmap_2.
  - cbn [name fileNode]. apply H2. by apply list_elem_of_fmap_2.
Qed.

Lemma hasPath_head forest parts :
  hasPath forest parts -> exists nd, nd ∈ forest /\ name nd = hd EmptyString parts.
Proof.
  destruct parts as [|p [|q rest]]; cbn [hasPath hd]; [done| |].
  - intros (nd & H1 & H2 & _). by exists nd.
  - intros (nd & kids & H1 & H2 & _). by exists nd.
Qed.

(** In git-diff mode a path, as [getGitChanges] read it from the status
    line, is tested against the default ignore set by its first segment
    only: a change whose first segment is in the set is not in the
    forest, and every other change is, whatever its deeper segments
    are. *)
Lemma first_segment_rule
      (execOutput : option string) (rootPath : string) (change : GitFileEntry) :
  In change (getGitChanges execOutput) ->
  (Str.includes (topDir (relPath change)) DEFAULT_IGNORE = true ->
   ~ hasPath (buildGitTree execOutput rootPath) (Str.split Str.SLASH (relPath change)))
  /\ (Str.includes (topDir (relPath change)) DEFAULT_IGNORE = false ->
      hasPath (buildGitTree execOutput rootPath) (Str.split Str.SLASH (relPath change))).
Proof.
  intros Hin. split.
  - intros Hi Hp. apply hasPath_head in Hp as (nd & Hnd & Hname).
    apply buildGitTree_top_names in Hnd. unfold topDir in Hi. congruence.
  - intros Hi. unfold buildGitTree.
    destruct (Z.eqb_spec (Z.of_nat (length (getGitChanges execOutput))) 0) as [E|_].
    { destruct (getGitChanges execOutput); [done | cbn in E; lia]. }
    pose proof (fold_addChange_has (getGitChanges execOutput) change emptyBucket Hin) as Hb.
    unfold kept in Hb. rewrite Hi in Hb. specialize (Hb eq_refl).
    apply (bucketToNodes_has rootPath) with (parentPath := EmptyString) in Hb.
    unfold dirsOf, itemOf in Hb. cbn [f_name] in Hb.
    rewrite <- app_removelast_last in Hb; [done | apply split_nonempty].
Qed.

End GitIgnore.

(** For paths that git prints as they are: node_modules/x is dropped
    and pkg/node_modules/x is in the forest. *)
Lemma nested_node_modules_example :
  ~ hasPath (@Tree.buildGitTree Demo.demoRuntime (Some Demo.nestedIgnoreOutput) "/r")
            ["node_modules"; "x"]
  /\ hasPath (@Tree.buildGitTree Demo.demoRuntime (Some Demo.nestedIgnoreOutput) "/r")
             ["pkg"; "node_modules"; "x"].
Proof.
  split.
  - refine (proj1 (@first_segment_rule Demo.demoRuntime
                     (Some Demo.nestedIgnoreOutput) "/r"
                     {| Tree.relPath := "node_modules/x"; Tree.status := Tree.StM |} _) _).
    + vm_compute. left. reflexivity.
    + vm_compute. reflexivity.
  - refine (proj2 (@first_segment_rule Demo.demoRuntime
                     (Some Demo.nestedIgnoreOutput) "/r"
                     {| Tree.relPath := "pkg/node_modules/x"; Tree.status := Tree.StM |} _) _).
    + vm_compute. right. left. reflexivity.
    + vm_compute. reflexivity.
Qed.

(** C10. The first segment that is tested is that of the text after the
    status letters, and git prints a path that holds a space between
    double quotes. For the modified file node_modules/a b.txt the status
    line carries the quoted path; [getGitChanges] keeps the quotes, the
    first segment is the quote followed by node_modules, which is not
    in the set, and the change is in the forest, below a directory
    named by that segment. (The file node_modules/x, printed as it is,
    is dropped.) So it is for every path that is printed between
    quotes: its first segment starts with the quote and is never in the
    set. For every status output the test is on the text as read: a
    change is in the forest exactly when the first segment of that text
    is not in the set. *)
Theorem C10_quoted_path_is_not_dropped :
  Tree.getGitChanges (Some Demo.quotedPathOutput)
  = [{| Tree.relPath := Demo.quoted "node_modules/a b.txt"; Tree.status := Tree.StM |}]
  /\ Tree.topDir (Demo.quoted "node_modules/a b.txt") = String Str.DQUOTE "node_modules"
  /\ Str.includes (String Str.DQUOTE "node_modules") Tree.DEFAULT_IGNORE = false
  /\ @Tree.buildGitTree Demo.demoRuntime (Some Demo.quotedPathOutput) "/r"
     = [Tree.MkTreeNode (String Str.DQUOTE "node_modules")
          ("/r/" +:+ String Str.DQUOTE "node_modules") true
          (Some [Tree.MkTreeNode ("a b.txt" +:+ String Str.DQUOTE EmptyString)
                   ("/r/" +:+ Demo.quoted "node_modules/a b.txt") false None
                   (Some Tree.StM)])
          None]
  /\ @Tree.buildGitTree Demo.demoRuntime (Some (Demo.lines [" M node_modules/x"])) "/r" = []
  /\ (forall x y sep p,
         (nat_of_ascii x < 128)%nat -> (nat_of_ascii y < 128)%nat ->
         (nat_of_ascii sep < 128)%nat ->
         Tree.relPath (Tree.parseStatusLine (String x (String y (String sep (Demo.quoted p)))))
         = Demo.quoted p
         /\ Str.includes (Tree.topDir (Demo.quoted p)) Tree.DEFAULT_IGNORE = false)
  /\ (forall (R : Runtime) execOutput rootPath change,
         In change (Tree.getGitChanges execOutput) ->
         (Str.includes (Tree.topDir (Tree.relPath change)) Tree.DEFAULT_IGNORE = true ->
          ~ hasPath (Tree.buildGitTree execOutput rootPath)
              (Str.split Str.SLASH (Tree.relPath change)))
         /\ (Str.includes (Tree.topDir (Tree.relPath change)) Tree.DEFAULT_IGNORE = false ->
             hasPath (Tree.buildGitTree execOutput rootPath)
               (Str.split Str.SLASH (Tree.relPath change)))).
Proof.
  split_and!;
    [vm_compute; reflexivity | vm_compute; reflexivity | vm_compute; reflexivity
     | vm_compute; reflexivity | vm_compute; reflexivity | |].
  - intros x y sep p Hx Hy Hs. split.
    + unfold Tree.parseStatusLine. cbn [Tree.relPath].
      rewrite substringFrom_3, trim_quoted by done.
      assert (E : Str.endsWithChar Str.SLASH (Demo.quoted p) = false).
      { apply (endsWithChar_snoc_other (String Str.DQUOTE p)). by vm_compute. }
      by rewrite E.
    + unfold Tree.topDir, Demo.quoted. cbn [Str.split].
      change (Ascii.eqb Str.DQUOTE Str.SLASH) with false. cbv iota.
      by destruct (Str.split Str.SLASH (p +:+ String Str.DQUOTE EmptyString)).
  - intros R execOutput rootPath change. apply first_segment_rule.
Qed.

Lemma C1_witness_small_forest :
  exists e,
    FileTree.flattenTree Demo.smallForest !! 0%nat = Some e
    /\ (FileTree.firstChildIndex e = -1
        \/ exists c, FileTree.at_ (FileTree.flattenTree Demo.smallForest)
                                  (FileTree.firstChildIndex e) = Some c
                     /\ FileTree.parentIndex c = Z.of_nat 0)
    /\ (FileTree.parentIndex e = -1
        \/ 0 <= FileTree.parentIndex e
           < Z.of_nat (length (FileTree.flattenTree Demo.smallForest)))
    /\ (FileTree.firstChildIndex e = -1
        \/ 0 <= FileTree.firstChildIndex e
           < Z.of_nat (length (FileTree.flattenTree Demo.smallForest))).
Proof.
  destruct (FileTree.flattenTree Demo.smallForest !! 0%nat) as [e|] eqn:E.
  - exists e. split; [reflexivity|].
    exact (C1_flattenTree_links Demo.smallForest 0 e E).
  - vm_compute in E. discriminate E.
Defined.

(** ** The control socket *)

Section IpcFacts.
Import Ipc.
Context {JSON : Type} (JSON_parse : string -> option JSON).

(** The server keeps no buffer: what a connection delivers is what each
    read delivers on its own. *)
Lemma serverReads_cons data reads :
  serverReads JSON JSON_parse (data :: reads)
  = serverData JSON JSON_parse data ++ serverReads JSON JSON_parse reads.
Proof. reflexivity. Qed.

(** A read none of whose lines parses delivers nothing. *)
Lemma serverData_no_parse data :
  Forall (fun line => JSON_parse line = None) (Str.split Str.LF data) ->
  serverData JSON JSON_parse data = [].
Proof.
  unfold serverData. induction 1 as [|line rest Hl _ IH]; [reflexivity|].
  cbn [flat_map]. rewrite Hl, IH. by destruct (Str.truthy _).
Qed.

(** With the timer cleared and the promise pending, the passing of time
    changes nothing. *)
Lemma timer_cleared_stays (c : Client JSON) (n : nat) :
  timeoutArmed c = false ->
  fold_left (step JSON JSON_parse) (repeat (EvTimerFires) n) c = c.
Proof.
  intros H. induction n as [|n IH]; [reflexivity|].
  cbn [repeat fold_left step]. by rewrite H.
Qed.

(** The failures that do resolve to [null]: the connection fails, the
    socket closes or errs, or the timer fires while it is armed. *)
Lemma resolves_null_on_failure (ev : Event) :
  ev = EvClose \/ ev = EvError \/ ev = EvConnectFailed \/ ev = EvTimerFires ->
  settled (run JSON JSON_parse [ev]) = Some None.
Proof. intros [-> | [-> | [-> | ->]]]; reflexivity. Qed.

Lemma split_snoc_LF s :
  Str.split Str.LF (s +:+ String Str.LF EmptyString) = Str.split Str.LF s ++ [EmptyString].
Proof.
  induction s as [|c s IH]; [reflexivity|].
  change (String c s +:+ String Str.LF EmptyString)
    with (String c (s +:+ String Str.LF EmptyString)).
  cbn [Str.split]. rewrite IH.
  destruct (Ascii.eqb c Str.LF); [reflexivity|].
  destruct (Str.split Str.LF s) as [|h t] eqn:E; [|reflexivity].
  by destruct (split_nonempty Str.LF s).
Qed.

(** The first line that parses resolves the promise with its value. *)
Lemma resolves_with_reply line msg :
  Str.split Str.LF line = [line] ->
  Str.truthy (Str.trim line) = true ->
  JSON_parse line = Some msg ->
  settled (run JSON JSON_parse [EvOpen; EvData (line +:+ String Str.LF EmptyString)])
  = Some (Some msg).
Proof.
  intros Hsplit Ht Hp. cbn [run fold_left step sendCommandStart appendBuffer buffer].
  assert (E : Str.split Str.LF (EmptyString +:+ (line +:+ String Str.LF EmptyString))
              = [line; EmptyString]).
  { change (EmptyString +:+ (line +:+ String Str.LF EmptyString))
      with (line +:+ String Str.LF EmptyString).
    by rewrite split_snoc_LF, Hsplit. }
  rewrite E. cbn [dataLines]. by rewrite Ht, Hp.
Qed.

End IpcFacts.

(** C5. The server does not buffer: the ping message delivered in one
    read reaches [onMessage] once, and the same bytes delivered in two
    reads reach it not at all, each part failing to parse on its own.
    (The client's handler, by contrast, appends every read to a buffer
    before it splits.) *)
Theorem C5_fragmented_message_is_lost :
  Demo.pingHead +:+ Demo.pingTail = Demo.pingLine
  /\ Ipc.serverReads Demo.Message Demo.parseMessage [Demo.pingLine] = [Demo.MsgPing]
  /\ Ipc.serverReads Demo.Message Demo.parseMessage [Demo.pingHead; Demo.pingTail] = [].
Proof. split_and!; vm_compute; reflexivity. Qed.

(** C6. A reply that does not parse cancels the timer and leaves the
    promise pending: [clearTimeout] runs before [JSON.parse] throws.
    With the connection left open nothing resolves the promise, however
    long the caller waits. *)
Theorem C6_malformed_reply_never_resolves :
  Ipc.settled
    (Ipc.run Demo.Message Demo.parseMessage [Ipc.EvOpen; Ipc.EvData Demo.badReply]) = None
  /\ Ipc.timeoutArmed
       (Ipc.run Demo.Message Demo.parseMessage [Ipc.EvOpen; Ipc.EvData Demo.badReply]) = false
  /\ forall n,
       Ipc.settled
         (Ipc.run Demo.Message Demo.parseMessage
            ([Ipc.EvOpen; Ipc.EvData Demo.badReply] ++ repeat Ipc.EvTimerFires n)) = None.
Proof.
  split_and!; [vm_compute; reflexivity | vm_compute; reflexivity |].
  intros n. unfold Ipc.run. rewrite fold_left_app.
  rewrite timer_cleared_stays; vm_compute; reflexivity.
Qed.

(** ** The pane lifecycle *)

Section TerminalFacts.
Import Terminal Cli.

Definition identityFile (w : World) : string := getPaneIdFile (paneQuery w).

(** The state [PaneActive]: an identity is recorded and its pane is
    live. *)
Definition paneActive (w : World) : bool :=
  truthyId (readPaneId (identityFile w) w)
  && paneExists (default EmptyString (readPaneId (identityFile w) w)) w.

Definition requiresTmux : string :=
  "file-browser requires tmux. Please run inside a tmux session.".

(** The world after [kill-pane] on a pane. *)
Definition killed (id : string) (w : World) : World :=
  setPanes (panes w ∖ {[id]}) (tmux ["kill-pane"; "-t"; id] w).

(** The world after a split that printed [out] and the return of the
    focus. *)
Definition splitCall (cwd : string) (w : World) : list string :=
  ["split-window"; "-h"; "-p"; "25"; "-d"; "-P"; "-F"; "#{pane_id}"; buildShowCommand cwd w].

Definition opened (cwd file src out : string) (w : World) : World :=
  tmux ["select-pane"; "-t"; src]
    (savePaneId file (Str.trim out)
       (setPanes ({[Str.trim out]} ∪ panes w) (tmux (splitCall cwd w) w))).

(** Without the executable the three entry points die at their first
    or second step. *)
Lemma closeBrowser_dies w : tmuxBinary w = false -> closeBrowser w = (w, None).
Proof. intros H. unfold closeBrowser, bind, getCurrentPaneId. by rewrite H. Qed.

Lemma toggleBrowser_dies cwd w : tmuxBinary w = false -> toggleBrowser cwd w = (w, None).
Proof. intros H. unfold toggleBrowser, bind, getCurrentPaneId. by rewrite H. Qed.

(** With the executable, the three entry points in explicit form. *)
Lemma closeBrowser_runs w :
  tmuxBinary w = true ->
  closeBrowser w
  = match readPaneId (identityFile w) w with
    | Some id =>
        if Str.truthy id
        then (clearPaneId (identityFile w) (if paneExists id w then killed id w else w),
              Some tt)
        else (w, Some tt)
    | None => (w, Some tt)
    end.
Proof.
  intros H. unfold closeBrowser, bind, getCurrentPaneId, reads. rewrite H.
  fold (identityFile w).
  destruct (readPaneId (identityFile w) w) as [id|]; cbn [truthyId negb]; [|done].
  destruct (Str.truthy id); cbn [negb default from_option Datatypes.id]; [|done].
  destruct (paneExists id w) eqn:E; [|done].
  unfold killPane, bind, spawnTmux, writes. by rewrite H.
Qed.

Lemma createNewPane_runs cwd src file w :
  tmuxBinary w = true ->
  createNewPane cwd src file w
  = if (fst (splitWindow w) =? 0) && Str.truthy (Str.trim (snd (splitWindow w)))
    then (opened cwd file src (snd (splitWindow w)) w, Some (Some (Str.trim (snd (splitWindow w)))))
    else (tmux (splitCall cwd w) w, Some None).
Proof.
  intros H. unfold createNewPane, bind, reads, spawnTmux. rewrite H.
  cbn [splitWindow tmux]. destruct (splitWindow w) as [code out]. cbn [fst snd].
  destruct ((code =? 0) && Str.truthy (Str.trim out)); [|done].
  unfold writes, selectPane, spawnTmux, bind. cbn [tmuxBinary savePaneId setFiles setPanes tmux].
  by rewrite H.
Qed.

Lemma spawnBrowser_without_tmux cwd w :
  env_TMUX w = false -> spawnBrowser cwd w = (consoleError requiresTmux w, Some None).
Proof. intros H. unfold spawnBrowser, bind, reads, detectTmux. by rewrite H. Qed.

Lemma toggleBrowser_runs cwd w :
  tmuxBinary w = true ->
  toggleBrowser cwd w
  = if paneActive w then closeBrowser w
    else (fst (spawnBrowser cwd (clearPaneId (identityFile w) w)),
          match snd (spawnBrowser cwd (clearPaneId (identityFile w) w)) with
          | Some _ => Some tt
          | None => None
          end).
Proof.
  intros H. unfold toggleBrowser, bind, getCurrentPaneId, reads. rewrite H.
  fold (identityFile w). fold (paneActive w).
  destruct (paneActive w); [done|]. unfold writes.
  by destruct (spawnBrowser cwd (clearPaneId (identityFile w) w)) as [w' [r|]].
Qed.

(** Where [closeBrowser] finds an identity, it leaves none, whether or
    not the pane was live; where it finds no file, there is none. *)
Lemma closeBrowser_clears w :
  tmuxBinary w = true ->
  (files w !! identityFile w = None
   \/ exists content, files w !! identityFile w = Some content
                      /\ Str.truthy (Str.trim content) = true) ->
  identityFileExists (after closeBrowser w) = false
  /\ returned closeBrowser w = true
  /\ tmuxBinary (after closeBrowser w) = true.
Proof.
  intros Hb H. unfold after, returned. rewrite closeBrowser_runs by done.
  unfold identityFileExists, readPaneId. fold (identityFile w).
  destruct H as [Hn | (content & Hc & Ht)].
  - rewrite Hn. cbn [fst snd]. fold (identityFile w). rewrite Hn.
    split_and!; [|done|done]. apply bool_decide_eq_false. by intros [? ?].
  - rewrite Hc, Ht. cbn [fst snd]. split_and!; [|done|].
    + apply bool_decide_eq_false. intros [x Hx].
      destruct (paneExists (Str.trim content) w); cbn in Hx;
        unfold identityFile in Hx; by rewrite lookup_delete_eq in Hx.
    + by destruct (paneExists (Str.trim content) w).
Qed.

(** An identity file that is empty or blank stops [closeBrowser] before
    it clears anything. *)
Lemma closeBrowser_blank w content :
  tmuxBinary w = true ->
  files w !! identityFile w = Some content ->
  Str.truthy (Str.trim content) = false ->
  closeBrowser w = (w, Some tt).
Proof.
  intros Hb Hc Ht. rewrite closeBrowser_runs by done. unfold readPaneId.
  by rewrite Hc, Ht.
Qed.

(** C8. With an empty identity file on disk, [closeBrowser] returns at
    its first test and the file stays: after one call and after two the
    identity file of the session still exists. ([toggleBrowser] clears
    the file in this state.) *)
Theorem C8_blank_identity_file_survives_close :
  identityFileExists Demo.blankIdentityWorld = true
  /\ closeBrowser Demo.blankIdentityWorld = (Demo.blankIdentityWorld, Some tt)
  /\ identityFileExists (after closeBrowser (after closeBrowser Demo.blankIdentityWorld)) = true
  /\ files (clearPaneId (identityFile Demo.blankIdentityWorld) Demo.blankIdentityWorld)
     !! identityFile Demo.blankIdentityWorld = None.
Proof.
  assert (E : closeBrowser Demo.blankIdentityWorld = (Demo.blankIdentityWorld, Some tt)).
  { apply (closeBrowser_blank _ EmptyString); [reflexivity | | reflexivity].
    vm_compute identityFile. apply lookup_singleton_eq. }
  assert (X : identityFileExists Demo.blankIdentityWorld = true).
  { apply bool_decide_eq_true. exists EmptyString.
    vm_compute getPaneIdFile. apply lookup_singleton_eq. }
  split_and!; [done | done | unfold after; by rewrite !E | ].
  vm_compute identityFile. apply lookup_delete_eq.
Qed.

Section Exit.
Context {JSON : Type} (JSON_parse : string -> option JSON) (JSON_truthy : JSON -> bool).
Context (socketEvents : string -> list Ipc.Event).

Local Notation main := (Cli.main JSON JSON_parse JSON_truthy socketEvents).

Lemma paneActive_binary w : paneActive w = true -> tmuxBinary w = true.
Proof.
  unfold paneActive, paneExists. intros H.
  apply andb_true_iff in H as [_ H]. by apply andb_true_iff in H as [H _].
Qed.


End Exit.

End TerminalFacts.



(** ** Further properties of the specification *)

(** The flattening has one row per node of the forest. *)
Theorem flattenTree_one_row_per_node (nodes : list Tree.TreeNode) :
  Z.of_nat (length (FileTree.flattenTree nodes)) = FileTree.countNodes nodes.
Proof. apply flattenTree_rows. Qed.

Section DefaultIgnore.
Import Tree.
Context {R : Runtime}.
Variable fs : FileSystem.
Variable rootPath : string.
Variable D M : Z.
Variable statics globs : list string.

Definition namesKept : list TreeNode -> Prop :=
  everyGroup (Forall (fun nd => Str.includes (name nd) statics = false)).

Lemma shouldIgnore_static nm relPath isd :
  shouldIgnore nm relPath isd statics globs = false -> Str.includes nm statics = false.
Proof. unfold shouldIgnore. by destruct (Str.includes nm statics). Qed.

Lemma walkLoop_names recurse dirPath :
  (forall p c kids c', recurse p c = Some (kids, c') -> namesKept kids) ->
  forall entries nodes c nodes' c',
    walkLoop rootPath M statics globs recurse dirPath entries nodes c = Some (nodes', c') ->
    exists added,
      nodes' = nodes ++ added
      /\ Forall (fun nd => Str.includes (name nd) statics = false) added
      /\ Forall (fun nd => forall kids, children nd = Some kids -> namesKept kids) added.
Proof.
  intros Hrec entries.
  induction entries as [|e rest IH]; intros nodes c nodes' c' Hw; cbn [walkLoop] in Hw.
  - injection Hw as <- <-. exists []. by rewrite app_nil_r.
  - destruct (c >=? M).
    { injection Hw as <- <-. exists []. by rewrite app_nil_r. }
    destruct (shouldIgnore _ _ _ _ _) eqn:Hi.
    { by apply IH in Hw. }
    apply shouldIgnore_static in Hi.
    destruct (d_isDirectory e).
    + destruct (recurse _ _) as [[kids c1]|] eqn:Hr; [|done].
      destruct (IH _ _ _ _ Hw) as (added & -> & Hn & Hk).
      eexists (_ :: added). split_and!.
      * by rewrite <- app_assoc.
      * by apply List.Forall_cons.
      * apply List.Forall_cons; [|done]. intros kids' Hkids. cbn in Hkids.
        injection Hkids as <-. by eapply Hrec.
    + destruct (IH _ _ _ _ Hw) as (added & -> & Hn & Hk).
      eexists (_ :: added). split_and!.
      * by rewrite <- app_assoc.
      * by apply List.Forall_cons.
      * apply List.Forall_cons; [|done]. intros kids' Hkids. discriminate.
Qed.

Lemma walk_names fuel : forall dirPath depth c nodes c',
  Tree.walk fs rootPath D M statics globs fuel dirPath depth c = Some (nodes, c') ->
  namesKept nodes.
Proof.
  assert (Hnil : namesKept []).
  { constructor; [constructor|]. intros nd kids Hin. by apply elem_of_nil in Hin. }
  induction fuel as [|fuel IH]; intros dirPath depth c nodes c' Hw; [done|].
  cbn [Tree.walk] in Hw.
  destruct ((depth >? D) || (c >=? M)); [by injection Hw as <- <-|].
  destruct (readdirSync fs dirPath) as [entries|]; [|by injection Hw as <- <-].
  apply walkLoop_names in Hw as (added & -> & Hn & Hk).
  2:{ intros p c0 kids c1. apply IH. }
  rewrite app_nil_l. constructor; [done|].
  intros nd kids Hin. rewrite Forall_forall in Hk. by apply Hk.
Qed.

End DefaultIgnore.

(** X1. With the default ignore set, no node of an all-files build, at
    any level, carries a name of the set (.git, node_modules, ...),
    whatever the ignore file holds and whatever the bounds are. *)
Theorem walkTree_never_emits_default_ignored
        {R : Runtime} (fs : Tree.FileSystem) (rootPath : string)
        (maxDepth_ maxEntries_ : option Z) :
  everyGroup (Forall (fun nd => Str.includes (Tree.name nd) Tree.DEFAULT_IGNORE = false))
    (Tree.walkTree fs rootPath
       {| Tree.maxDepth := maxDepth_; Tree.maxEntries := maxEntries_;
          Tree.ignorePatterns := None |}).
Proof.
  destruct (walkTree_result fs rootPath
              {| Tree.maxDepth := maxDepth_; Tree.maxEntries := maxEntries_;
                 Tree.ignorePatterns := None |}) as [c Hc].
  by eapply walk_names.
Qed.

(** Git-diff mode groups by directory: for a modified a/b.txt and an
    added a/c/d.txt the forest is the one directory a, holding the
    directory c (with d.txt) before the file b.txt. *)
Example buildGitTree_groups_by_directory :
  @Tree.buildGitTree Demo.demoRuntime (Some Demo.statusOutput) "/r"
  = [Tree.MkTreeNode "a" "/r/a" true (Some
       [Tree.MkTreeNode "c" "/r/a/c" true (Some
          [Tree.MkTreeNode "d.txt" "/r/a/c/d.txt" false None (Some Tree.StA)]) None;
        Tree.MkTreeNode "b.txt" "/r/a/b.txt" false None (Some Tree.StM)]) None].
Proof. vm_compute. reflexivity. Qed.



(** ** The all-files build against the file system *)

Section Mirror.
Import Tree.
Context {R : Runtime}.
Variable fs : FileSystem.
Variable rootPath : string.
Variable statics globs : list string.

(** The forest mirrors the directory [dirPath]: every node is an entry
    of the listing of [dirPath], with the name and the kind of that
    entry and the path of the entry below [dirPath]; the entry is not
    ignored; a file has no children, and the children of a directory
    mirror that directory. *)
Inductive Mirrors : string -> list TreeNode -> Prop :=
| Mirrors_intro dirPath forest :
    (forall nd, nd ∈ forest ->
       exists entries e,
         readdirSync fs dirPath = Some entries /\ e ∈ entries
         /\ name nd = d_name e /\ isDir nd = d_isDirectory e
         /\ path nd = join dirPath (d_name e)
         /\ gitStatus nd = None
         /\ shouldIgnore (d_name e) (relative rootPath (path nd)) (d_isDirectory e)
                         statics globs = false
         /\ (d_isDirectory e = false -> children nd = None)
         /\ (d_isDirectory e = true ->
             exists kids, children nd = Some kids /\ Mirrors (path nd) kids)) ->
    Mirrors dirPath forest.

Definition mirrored (dirPath : string) (nd : TreeNode) : Prop :=
  exists entries e,
    readdirSync fs dirPath = Some entries /\ e ∈ entries
    /\ name nd = d_name e /\ isDir nd = d_isDirectory e
    /\ path nd = join dirPath (d_name e)
    /\ gitStatus nd = None
    /\ shouldIgnore (d_name e) (relative rootPath (path nd)) (d_isDirectory e)
                    statics globs = false
    /\ (d_isDirectory e = false -> children nd = None)
    /\ (d_isDirectory e = true ->
        exists kids, children nd = Some kids /\ Mirrors (path nd) kids).

Lemma Mirrors_nil dirPath : Mirrors dirPath [].
Proof. constructor. intros nd H. by apply elem_of_nil in H. Qed.

Variable D M : Z.

Lemma walkLoop_mirrored recurse dirPath listing :
  readdirSync fs dirPath = Some listing ->
  (forall p c kids c', recurse p c = Some (kids, c') -> Mirrors p kids) ->
  forall entries nodes c nodes' c',
    (forall e, e ∈ entries -> e ∈ listing) ->
    walkLoop rootPath M statics globs recurse dirPath entries nodes c = Some (nodes', c') ->
    exists added, nodes' = nodes ++ added /\ Forall (mirrored dirPath) added.
Proof.
  intros Hlist Hrec entries.
  induction entries as [|e rest IH]; intros nodes c nodes' c' Hsub Hw; cbn [walkLoop] in Hw.
  - injection Hw as <- <-. exists []. by rewrite app_nil_r.
  - assert (Hrest : forall e0, e0 ∈ rest -> e0 ∈ listing).
    { intros e0 H0. apply Hsub. by apply list_elem_of_further. }
    assert (He : e ∈ listing) by (apply Hsub; apply list_elem_of_here).
    destruct (c >=? M).
    { injection Hw as <- <-. exists []. by rewrite app_nil_r. }
    destruct (shouldIgnore _ _ _ _ _) eqn:Hi.
    { by eapply IH. }
    destruct (d_isDirectory e) eqn:Hd.
    + destruct (recurse _ _) as [[kids c1]|] eqn:Hr; [|done].
      destruct (IH _ _ _ _ Hrest Hw) as (added & -> & Hadd).
      eexists (_ :: added). split; [by rewrite <- app_assoc|].
      apply List.Forall_cons; [|done].
      exists listing, e. rewrite Hd. cbn [name isDir path gitStatus children].
      split_and!; try done.
      intros _. exists kids. split; [done | by eapply Hrec].
    + destruct (IH _ _ _ _ Hrest Hw) as (added & -> & Hadd).
      eexists (_ :: added). split; [by rewrite <- app_assoc|].
      apply List.Forall_cons; [|done].
      exists listing, e. rewrite Hd. cbn [name isDir path gitStatus children].
      split_and!; done.
Qed.

Lemma walk_mirrors fuel : forall dirPath depth c nodes c',
  Tree.walk fs rootPath D M statics globs fuel dirPath depth c = Some (nodes, c') ->
  Mirrors dirPath nodes.
Proof.
  induction fuel as [|fuel IH]; intros dirPath depth c nodes c' Hw; [done|].
  cbn [Tree.walk] in Hw.
  destruct ((depth >? D) || (c >=? M)); [injection Hw as <- <-; apply Mirrors_nil|].
  destruct (readdirSync fs dirPath) as [listing|] eqn:Hl;
    [|injection Hw as <- <-; apply Mirrors_nil].
  eapply walkLoop_mirrored in Hw as (added & -> & Hadd).
  - rewrite app_nil_l. constructor. intros nd Hnd.
    rewrite Forall_forall in Hadd. destruct (Hadd nd Hnd) as (entries & e & H).
    by exists entries, e.
  - exact Hl.
  - intros p c0 kids c1. apply IH.
  - intros e He. by rewrite sortBy_Permutation in He.
Qed.

(** A directory that holds files only: the loop takes the entries that
    are not ignored, in order, until the cap. *)
Definition keptEntry (dirPath : string) (e : Dirent) : bool :=
  negb (shouldIgnore (d_name e) (relative rootPath (join dirPath (d_name e)))
                     (d_isDirectory e) statics globs).

Definition entryNode (dirPath : string) (e : Dirent) : TreeNode :=
  MkTreeNode (d_name e) (join dirPath (d_name e)) (d_isDirectory e) None None.

Lemma walkLoop_files_only recurse dirPath entries :
  forallb (fun e => negb (d_isDirectory e)) entries = true ->
  forall nodes c,
  exists c',
    walkLoop rootPath M statics globs recurse dirPath entries nodes c
    = Some (nodes ++ List.map (entryNode dirPath)
                       (List.firstn (Z.to_nat (M - c))
                                    (List.filter (keptEntry dirPath) entries)),
            c').
Proof.
  induction entries as [|e rest IH]; intros Hall nodes c.
  - exists c. cbn [walkLoop List.filter]. rewrite firstn_nil. cbn. by rewrite app_nil_r.
  - cbn [forallb] in Hall. apply andb_true_iff in Hall as [He Hrest].
    apply negb_true_iff in He. cbn [walkLoop]. destruct (Z.geb_spec c M) as [Hge|Hlt].
    + exists c. replace (Z.to_nat (M - c)) with 0%nat by lia. cbn. by rewrite app_nil_r.
    + cbn [List.filter]. unfold keptEntry at 1. rewrite He.
      destruct (shouldIgnore _ _ _ _ _) eqn:Hi; cbn [negb].
      * apply (IH Hrest).
      * destruct (IH Hrest
                    (nodes ++ [MkTreeNode (d_name e) (join dirPath (d_name e)) false None None])
                    (c + 1)) as (c' & ->).
        exists c'. f_equal. f_equal. rewrite <- app_assoc. f_equal.
        replace (Z.to_nat (M - c)) with (S (Z.to_nat (M - (c + 1)))) by lia.
        cbn [List.firstn List.map app]. unfold entryNode at 2. by rewrite He.
Qed.

End Mirror.

(** X3. Every node of an all-files build is an entry of the file system:
    at every level a node has the name and the kind of an entry of the
    listing of its parent directory, its path is the parent's path
    joined with its name (the root's path at the top level), it is not
    an ignored entry, it carries no git status, a file node has no
    children and a directory node has a child list that mirrors that
    directory in turn. *)
Theorem walkTree_mirrors_file_system
        {R : Runtime} (fs : Tree.FileSystem) (rootPath : string) (options : Tree.WalkOptions) :
  Mirrors fs rootPath (default Tree.DEFAULT_IGNORE (Tree.ignorePatterns options))
          (Tree.parseGitignore fs rootPath) rootPath
          (Tree.walkTree fs rootPath options).
Proof.
  destruct (walkTree_result fs rootPath options) as [c Hc].
  by eapply walk_mirrors.
Qed.

(** X4. The empty cases of the all-files build: a negative [maxDepth], a
    [maxEntries] of zero or less, or a root that cannot be listed give
    the empty forest. *)
Theorem walkTree_empty_cases
        {R : Runtime} (fs : Tree.FileSystem) (rootPath : string) (options : Tree.WalkOptions) :
  default 4 (Tree.maxDepth options) < 0
  \/ default 200 (Tree.maxEntries options) <= 0
  \/ Tree.readdirSync fs rootPath = None ->
  Tree.walkTree fs rootPath options = [].
Proof.
  intros H. unfold Tree.walkTree, Tree.walkFuel. cbn [Tree.walk].
  destruct (Z.gtb_spec 0 (default 4 (Tree.maxDepth options))) as [?|Hd]; [done|].
  destruct (Z.geb_spec 0 (default 200 (Tree.maxEntries options))) as [?|Hm]; [done|].
  cbn [orb]. destruct H as [H | [H | H]]; [lia | lia |]. by rewrite H.
Qed.

Lemma walkTree_empty_cases_witness :
  @Tree.walkTree Demo.demoRuntime (Demo.flatFS 3) "/r"
     {| Tree.maxDepth := None; Tree.maxEntries := Some 0; Tree.ignorePatterns := None |} = []
  /\ @Tree.walkTree Demo.demoRuntime (Demo.flatFS 3) "/nowhere" Tree.noOptions = [].
Proof.
  split.
  - apply (@walkTree_empty_cases Demo.demoRuntime). right. left. cbn. lia.
  - apply (@walkTree_empty_cases Demo.demoRuntime). right. right. reflexivity.
Defined.

(** X5. Truncation at the cap is by sorted order: for a root that holds
    files only, the forest is the sorted listing without the ignored
    entries, cut after the first [maxEntries] of them, one file node
    per entry. *)
Theorem walkTree_flat_directory_is_sorted_prefix
        {R : Runtime} (fs : Tree.FileSystem) (rootPath : string) (options : Tree.WalkOptions)
        (entries : list Tree.Dirent) :
  Tree.readdirSync fs rootPath = Some entries ->
  forallb (fun e => negb (Tree.d_isDirectory e)) entries = true ->
  0 <= default 4 (Tree.maxDepth options) ->
  Tree.walkTree fs rootPath options
  = List.map (entryNode rootPath)
      (List.firstn (Z.to_nat (default 200 (Tree.maxEntries options)))
         (List.filter
            (keptEntry rootPath (default Tree.DEFAULT_IGNORE (Tree.ignorePatterns options))
                       (Tree.parseGitignore fs rootPath) rootPath)
            (Str.sortBy Tree.compareEntries entries))).
Proof.
  intros Hread Hfiles Hd. unfold Tree.walkTree, Tree.walkFuel. cbn [Tree.walk].
  destruct (Z.gtb_spec 0 (default 4 (Tree.maxDepth options))) as [?|_]; [lia|]. cbn [orb].
  destruct (Z.geb_spec 0 (default 200 (Tree.maxEntries options))) as [Hm|Hm].
  { replace (Z.to_nat _) with 0%nat by lia. reflexivity. }
  rewrite Hread.
  match goal with |- context [Tree.walkLoop _ _ _ _ ?rec _ _ _ _] =>
    destruct (walkLoop_files_only rootPath
                (default Tree.DEFAULT_IGNORE (Tree.ignorePatterns options))
                (Tree.parseGitignore fs rootPath)
                (default 200 (Tree.maxEntries options))
                rec rootPath (Str.sortBy Tree.compareEntries entries))
      with (nodes := @nil Tree.TreeNode) (c := 0) as (c' & ->)
  end.
  - apply forallb_forall. intros e He. rewrite forallb_forall in Hfiles. apply Hfiles.
    apply list_elem_of_In. apply list_elem_of_In in He. by rewrite sortBy_Permutation in He.
  - by rewrite Z.sub_0_r.
Qed.

Lemma walkTree_flat_directory_witness :
  @Tree.walkTree Demo.demoRuntime Demo.caseFS "/r" Tree.noOptions
  = List.map (@entryNode Demo.demoRuntime "/r")
      (List.firstn (Z.to_nat 200)
         (List.filter
            (@keptEntry Demo.demoRuntime "/r" Tree.DEFAULT_IGNORE
               (@Tree.parseGitignore Demo.demoRuntime Demo.caseFS "/r") "/r")
            (Str.sortBy (@Tree.compareEntries Demo.demoRuntime)
                        [Demo.file "B"; Demo.file "a"]))).
Proof.
  apply (@walkTree_flat_directory_is_sorted_prefix Demo.demoRuntime Demo.caseFS "/r"
           Tree.noOptions [Demo.file "B"; Demo.file "a"]).
  - reflexivity.
  - reflexivity.
  - cbn. lia.
Defined.


(** ** Git-diff mode: the status lines *)

(** X6. A status line is read back: for two status characters and a
    separator, each of one byte (status letters are), and a path that
    has no white space around it, Unicode white space included, the
    change carries that path; a single trailing slash (a directory) is
    removed. *)
Theorem parseStatusLine_reads_path (x y sep : ascii) (p : string) :
  (nat_of_ascii x < 128)%nat -> (nat_of_ascii y < 128)%nat ->
  (nat_of_ascii sep < 128)%nat ->
  Str.trim p = p ->
  Str.endsWithChar Str.SLASH p = false ->
  Tree.relPath (Tree.parseStatusLine (String x (String y (String sep p)))) = p
  /\ Tree.relPath
       (Tree.parseStatusLine
          (String x (String y (String sep (p +:+ String Str.SLASH EmptyString))))) = p.
Proof.
  intros Hx Hy Hz Ht He. unfold Tree.parseStatusLine. cbn [Tree.relPath].
  rewrite !substringFrom_3 by done. split.
  - by rewrite Ht, He.
  - rewrite trim_snoc; [|done|vm_compute; lia|reflexivity].
    by rewrite endsWithChar_snoc, dropLast_snoc.
Qed.

Lemma parseStatusLine_reads_path_witness :
  Tree.relPath (Tree.parseStatusLine " M src/cli.ts") = "src/cli.ts"
  /\ Tree.relPath (Tree.parseStatusLine " M src/cli.ts/") = "src/cli.ts".
Proof.
  apply (parseStatusLine_reads_path " "%char "M"%char " "%char "src/cli.ts");
    (reflexivity || (vm_compute; lia)).
Defined.

(** ** Git-diff mode: every change once, no empty directory *)

Section GitCount.
Import Tree.
Context {R : Runtime}.

(** The file nodes of a forest, at every level. *)
Fixpoint fileNodesOf (nd : TreeNode) : Z :=
  let 'MkTreeNode _ _ isd kids _ := nd in
  (if isd then 0 else 1)
  + match kids with
    | Some l =>
        (fix sum (l : list TreeNode) : Z :=
           match l with [] => 0 | c :: rest => fileNodesOf c + sum rest end) l
    | None => 0
    end.

Fixpoint fileNodes (forest : list TreeNode) : Z :=
  match forest with
  | [] => 0
  | nd :: rest => fileNodesOf nd + fileNodes rest
  end.

(** The file items of a bucket, at every level. *)
Fixpoint bucketTotal (bucket : DirBucket) : Z :=
  let 'MkBucket files subdirs := bucket in
  Z.of_nat (length files)
  + (fix sum (l : list (string * DirBucket)) : Z :=
       match l with [] => 0 | kv :: rest => bucketTotal (snd kv) + sum rest end) subdirs.

Fixpoint subdirsTotal (l : list (string * DirBucket)) : Z :=
  match l with
  | [] => 0
  | kv :: rest => bucketTotal (snd kv) + subdirsTotal rest
  end.

Lemma fileNodesOf_eq nm pth isd kids g :
  fileNodesOf (MkTreeNode nm pth isd kids g)
  = (if isd then 0 else 1) + match kids with Some l => fileNodes l | None => 0 end.
Proof. destruct kids; reflexivity. Qed.

Lemma bucketTotal_eq files subdirs :
  bucketTotal (MkBucket files subdirs) = Z.of_nat (length files) + subdirsTotal subdirs.
Proof. reflexivity. Qed.

Lemma fileNodes_app a b : fileNodes (a ++ b) = fileNodes a + fileNodes b.
Proof. induction a as [|x a IH]; cbn [fileNodes app]; lia. Qed.

Lemma fileNodes_Permutation a b : a ≡ₚ b -> fileNodes a = fileNodes b.
Proof. induction 1; cbn [fileNodes]; lia. Qed.

Lemma fileNodes_nonneg forest : 0 <= fileNodes forest.
Proof.
  assert (H : forall nd, 0 <= fileNodesOf nd).
  { intros nd. induction nd as [nm pth d kids g IH] using TreeNode_nested_ind.
    rewrite fileNodesOf_eq. destruct kids as [l|]; [|destruct d; lia]. cbn in IH.
    assert (0 <= fileNodes l); [|destruct d; lia].
    induction IH as [|c r Hc _ IHr]; cbn [fileNodes]; lia. }
  induction forest as [|x l IH]; cbn [fileNodes]; [lia|]. pose proof (H x). lia.
Qed.

Lemma subdirsTotal_app a b : subdirsTotal (a ++ b) = subdirsTotal a + subdirsTotal b.
Proof. induction a as [|x a IH]; cbn [subdirsTotal app]; lia. Qed.

Lemma mapUpdate_total k g m :
  mapHas k m = true ->
  (forall v, bucketTotal (g v) = bucketTotal v + 1) ->
  subdirsTotal (mapUpdate k g m) = subdirsTotal m + 1.
Proof.
  intros Hhas Hg. induction m as [|[k' v] t IH]; [discriminate|].
  cbn [mapHas existsb fst] in Hhas. cbn [mapUpdate].
  destruct (String.eqb k' k); cbn [orb] in Hhas; cbn [subdirsTotal snd].
  - rewrite Hg. lia.
  - fold (mapHas k t) in Hhas. rewrite (IH Hhas). lia.
Qed.

Lemma addFile_total dirs f : forall bucket,
  bucketTotal (addFile dirs f bucket) = bucketTotal bucket + 1.
Proof.
  induction dirs as [|d rest IH]; intros [files subdirs]; cbn [addFile];
    rewrite !bucketTotal_eq.
  - rewrite length_app. cbn [length]. lia.
  - rewrite mapUpdate_total; [| |exact IH].
    + destruct (mapHas d subdirs); [lia|].
      rewrite subdirsTotal_app. cbn. lia.
    + destruct (mapHas d subdirs) eqn:E; [done | apply mapHas_snoc].
Qed.

Lemma fold_addChange_total changes : forall bucket,
  bucketTotal (fold_left addChange changes bucket)
  = bucketTotal bucket + Z.of_nat (length (List.filter kept changes)).
Proof.
  induction changes as [|c t IH]; intros bucket; cbn [fold_left List.filter]; [cbn; lia|].
  rewrite IH. unfold addChange, kept at 2.
  destruct (Str.includes _ _); cbn [negb]; [lia|].
  rewrite addFile_total. cbn [length]. lia.
Qed.

Lemma bucketToNodes_fileNodes rootPath bucket :
  forall parentPath, fileNodes (bucketToNodes rootPath bucket parentPath) = bucketTotal bucket.
Proof.
  induction bucket as [files subdirs IH] using DirBucket_nested_ind.
  intros parentPath. rewrite bucketToNodes_unfold, bucketTotal_eq.
  rewrite (fileNodes_Permutation _ _ (sortBy_Permutation _ _)), fileNodes_app.
  assert (H1 : fileNodes (List.map (dirNode rootPath parentPath) subdirs)
               = subdirsTotal subdirs).
  { induction IH as [|kv t Hkv _ IHt]; [reflexivity|].
    cbn [List.map fileNodes subdirsTotal]. rewrite IHt.
    unfold dirNode at 1. rewrite fileNodesOf_eq, Hkv. lia. }
  assert (H2 : fileNodes (List.map (fileNode rootPath) files) = Z.of_nat (length files)).
  { clear. induction files as [|f t IHt]; [reflexivity|].
    cbn [List.map fileNodes length]. rewrite IHt. unfold fileNode. rewrite fileNodesOf_eq. lia. }
  lia.
Qed.

(** No directory of the bucket is empty, at any level. *)
Fixpoint populated (bucket : DirBucket) : Prop :=
  let 'MkBucket _ subdirs := bucket in
  (fix all (l : list (string * DirBucket)) : Prop :=
     match l with
     | [] => True
     | kv :: rest => (1 <= bucketTotal (snd kv) /\ populated (snd kv)) /\ all rest
     end) subdirs.

Lemma populated_eq files subdirs :
  populated (MkBucket files subdirs)
  <-> Forall (fun kv => 1 <= bucketTotal (snd kv) /\ populated (snd kv)) subdirs.
Proof.
  cbn [populated]. induction subdirs as [|kv t IH].
  - split; [constructor | done].
  - rewrite Forall_cons. by rewrite <- IH.
Qed.

Lemma mapUpdate_Forall {V} (Q : string * V -> Prop) k g m :
  Forall Q m -> (forall v, Q (k, v) -> Q (k, g v)) -> Forall Q (mapUpdate k g m).
Proof.
  intros Hm Hg. induction Hm as [|[k' v] t Hkv Ht IH]; [constructor|]. cbn [mapUpdate].
  destruct (String.eqb_spec k' k) as [-> | _]; apply List.Forall_cons; auto.
Qed.

Lemma mapUpdate_fresh {V} k (g : V -> V) m v :
  mapHas k m = false -> mapUpdate k g (m ++ [(k, v)]) = m ++ [(k, g v)].
Proof.
  induction m as [|[k' v'] t IH]; cbn [mapHas existsb fst app mapUpdate].
  - intros _. by rewrite String.eqb_refl.
  - destruct (String.eqb k' k); cbn [orb]; [discriminate|].
    intros H. fold (mapHas k t) in H. by rewrite (IH H).
Qed.

Lemma addFile_populated dirs f : forall bucket,
  populated bucket -> populated (addFile dirs f bucket).
Proof.
  induction dirs as [|d rest IH]; intros [files subdirs] Hp; cbn [addFile].
  - apply populated_eq. by apply populated_eq in Hp.
  - apply populated_eq. apply populated_eq in Hp.
    destruct (mapHas d subdirs) eqn:E.
    + apply mapUpdate_Forall; [done|]. cbn [snd]. intros v [Ht Hv].
      rewrite addFile_total. split; [lia | by apply IH].
    + rewrite mapUpdate_fresh by done. apply Forall_app. split; [done|].
      apply Forall_singleton. cbn [snd]. rewrite addFile_total. split; [cbn; lia|].
      apply IH. by cbn.
Qed.

Lemma fold_addChange_populated changes : forall bucket,
  populated bucket -> populated (fold_left addChange changes bucket).
Proof.
  induction changes as [|c t IH]; intros bucket Hp; [done|]. cbn [fold_left]. apply IH.
  unfold addChange. destruct (Str.includes _ _); [done | by apply addFile_populated].
Qed.

(** The shape of a node of git-diff mode. *)
Definition gitNodeShape (nd : TreeNode) : Prop :=
  if isDir nd
  then gitStatus nd = None /\ exists kids, children nd = Some kids /\ kids <> []
  else children nd = None /\ is_Some (gitStatus nd).

Lemma bucketToNodes_shape rootPath bucket :
  populated bucket ->
  forall parentPath,
    everyGroup (Forall gitNodeShape) (bucketToNodes rootPath bucket parentPath).
Proof.
  induction bucket as [files subdirs IH] using DirBucket_nested_ind.
  intros Hp parentPath. apply populated_eq in Hp.
  rewrite Forall_forall in IH, Hp. constructor.
  - apply Forall_forall. intros nd Hin.
    apply bucketToNodes_elem in Hin as [(kv & Hkv & ->) | (f & Hf & ->)].
    + cbn. split; [done|]. eexists. split; [reflexivity|].
      intros Hnil. destruct (Hp kv Hkv) as [Ht _].
      rewrite <- (bucketToNodes_fileNodes rootPath) with
          (parentPath := dirFullPath parentPath (fst kv)) in Ht.
      rewrite Hnil in Ht. cbn in Ht. lia.
    + cbn. split; [done | by eexists].
  - intros nd kids Hin Hkids.
    apply bucketToNodes_elem in Hin as [(kv & Hkv & ->) | (f & Hf & ->)]; [|discriminate].
    cbn in Hkids. injection Hkids as <-. apply IH; [done|]. by apply Hp.
Qed.

End GitCount.

(** X7. Git-diff mode shows every change once: the file nodes of the
    forest, counted at all levels, are as many as the changes whose
    first segment is not in the default ignore set, also where a path
    is reported twice. *)
Theorem buildGitTree_one_file_node_per_change
        {R : Runtime} (execOutput : option string) (rootPath : string) :
  fileNodes (Tree.buildGitTree execOutput rootPath)
  = Z.of_nat (length (List.filter kept (Tree.getGitChanges execOutput))).
Proof.
  unfold Tree.buildGitTree.
  destruct (Z.eqb_spec (Z.of_nat (length (Tree.getGitChanges execOutput))) 0) as [E|_].
  - destruct (Tree.getGitChanges execOutput); [reflexivity | cbn in E; lia].
  - rewrite bucketToNodes_fileNodes, fold_addChange_total. cbn. lia.
Qed.

(** X8. The shape of the forest of git-diff mode, at every level: a
    directory node carries no status and has at least one child; a file
    node has no children and carries a status. *)
Theorem buildGitTree_node_shape
        {R : Runtime} (execOutput : option string) (rootPath : string) :
  everyGroup (Forall gitNodeShape) (Tree.buildGitTree execOutput rootPath).
Proof.
  unfold Tree.buildGitTree. destruct (_ =? 0).
  - constructor; [constructor|]. intros nd kids Hin. by apply elem_of_nil in Hin.
  - apply bucketToNodes_shape. apply fold_addChange_populated. by cbn.
Qed.

(** X9. The empty cases of git-diff mode: where every reported change
    lies under a top-level name of the default ignore set, the forest is
    empty; so it is where the query fails or reports nothing. *)
Theorem buildGitTree_empty_cases
        {R : Runtime} (execOutput : option string) (rootPath : string) :
  (forall change, In change (Tree.getGitChanges execOutput) ->
                  Str.includes (Tree.topDir (Tree.relPath change)) Tree.DEFAULT_IGNORE = true) ->
  Tree.buildGitTree execOutput rootPath = [].
Proof.
  intros Hall. unfold Tree.buildGitTree. destruct (_ =? 0); [reflexivity|].
  assert (E : fold_left Tree.addChange (Tree.getGitChanges execOutput) Tree.emptyBucket
              = Tree.emptyBucket).
  { revert Hall. generalize (Tree.getGitChanges execOutput) as changes.
    induction changes as [|c t IH]; intros Hall; [reflexivity|].
    cbn [fold_left]. unfold Tree.addChange at 2.
    rewrite (Hall c (or_introl eq_refl)). apply IH. intros c' Hc'. apply Hall. by right. }
  rewrite E. reflexivity.
Qed.

Lemma buildGitTree_empty_cases_witness :
  @Tree.buildGitTree Demo.demoRuntime (Some (Demo.lines [" M node_modules/x"; "?? .git/y"])) "/r"
  = []
  /\ @Tree.buildGitTree Demo.demoRuntime None "/r" = [].
Proof.
  split.
  - apply (@buildGitTree_empty_cases Demo.demoRuntime).
    intros change H. vm_compute in H. destruct H as [<- | [<- | []]]; reflexivity.
  - apply (@buildGitTree_empty_cases Demo.demoRuntime). intros change [].
Defined.

(** ** The flattening: order, parents, indentation *)

Section FlattenOrder.
Import Tree FileTree.

(** Depth-first pre-order: a node, then the pre-order of its children. *)
Fixpoint preorderOf (nd : TreeNode) : list TreeNode :=
  nd :: match children nd with
        | Some l =>
            (fix each (l : list TreeNode) : list TreeNode :=
               match l with [] => [] | c :: rest => preorderOf c ++ each rest end) l
        | None => []
        end.

Fixpoint preorder (forest : list TreeNode) : list TreeNode :=
  match forest with
  | [] => []
  | nd :: rest => preorderOf nd ++ preorder rest
  end.

Lemma preorderOf_eq nd :
  preorderOf nd = nd :: match children nd with Some l => preorder l | None => [] end.
Proof. destruct nd as [nm pth d [l|] g]; reflexivity. Qed.

Definition nodePreorder (nd : TreeNode) : Prop :=
  forall isLast d pre p flat,
  exists ext,
    walkNode nd isLast d pre p flat = flat ++ ext
    /\ List.map node ext = preorderOf nd.

Lemma walk_preorder l :
  Forall nodePreorder l ->
  forall d pre p flat,
  exists ext,
    FileTree.walk l d pre p flat = flat ++ ext /\ List.map node ext = preorder l.
Proof.
  induction 1 as [|c r Hc _ IH]; intros d pre p flat.
  - exists []. by rewrite app_nil_r.
  - cbn [FileTree.walk preorder].
    destruct (Hc (isLastOf r) d pre p flat) as (ext1 & -> & H1).
    destruct (IH d pre p (flat ++ ext1)) as (ext2 & -> & H2).
    exists (ext1 ++ ext2). split; [by rewrite <- app_assoc|].
    by rewrite map_app, H1, H2.
Qed.

Lemma walkNode_preorder nd : nodePreorder nd.
Proof.
  induction nd as [nm pth dr kids g IH] using TreeNode_nested_ind.
  intros isLast d pre p flat. rewrite walkNode_unfold, preorderOf_eq. cbv zeta.
  cbn [children].
  destruct kids as [[|k ks]|].
  - eexists [_]. split; reflexivity.
  - change (Forall nodePreorder (k :: ks)) in IH. pose proof (walk_preorder _ IH) as IHk.
    rewrite alter_snoc.
    match goal with |- context [FileTree.walk _ ?d' ?pre' ?p' ?fl] =>
      destruct (IHk d' pre' p' fl) as (ext & -> & Hm) end.
    eexists (_ :: ext). split; [by rewrite <- app_assoc|].
    cbn [List.map]. by rewrite Hm.
  - eexists [_]. split; reflexivity.
Qed.

Lemma jsLength_app a b : Str.jsLength (a +:+ b) = Str.jsLength a + Str.jsLength b.
Proof.
  induction a as [|c a IH]; [reflexivity|].
  change (String c a +:+ b) with (String c (a +:+ b)). cbn [Str.jsLength]. lia.
Qed.

(** What one call of [walk] at depth [d], with a prefix of width [w] and
    the parent index [p], appends from index [base] on: every row has a
    connector of width 4 and a prefix of 4 columns per level below [d];
    a row at depth [d] has the parent [p], and any other row has its
    parent among the rows appended before it, one level up. *)
Definition rowsIndented (base : nat) (p d w : Z) (ext : list FlatEntry) : Prop :=
  forall (k : nat) (e : FlatEntry), ext !! k = Some e ->
    Str.jsLength (connector e) = 4
    /\ Str.jsLength (prefix e) = w + 4 * (depth e - d)
    /\ ((parentIndex e = p /\ depth e = d)
        \/ exists (k' : nat) (pe : FlatEntry),
            (k' < k)%nat /\ ext !! k' = Some pe
            /\ parentIndex e = Z.of_nat base + Z.of_nat k'
            /\ depth e = depth pe + 1).

Lemma rowsIndented_app base p d w e1 e2 :
  rowsIndented base p d w e1 ->
  rowsIndented (base + length e1) p d w e2 ->
  rowsIndented base p d w (e1 ++ e2).
Proof.
  intros H1 H2 k e Hk.
  apply lookup_app_Some in Hk as [Hk | [Hge Hk]].
  - destruct (H1 k e Hk) as (Hc & Hw & Hp). split_and!; [done | done |].
    destruct Hp as [Hp | (k' & pe & Hlt & Hl & Hpi & Hd)]; [by left | right].
    exists k', pe. split_and!; try done. by apply lookup_app_l_Some.
  - destruct (H2 _ e Hk) as (Hc & Hw & Hp). split_and!; [done | done |].
    destruct Hp as [Hp | (k' & pe & Hlt & Hl & Hpi & Hd)]; [by left | right].
    exists (length e1 + k')%nat, pe. split_and!; [lia | | lia | done].
    rewrite lookup_app_r by lia.
    by replace (length e1 + k' - length e1)%nat with k' by lia.
Qed.

Definition nodeIndented (nd : TreeNode) : Prop :=
  forall isLast d pre p flat,
  exists ext,
    walkNode nd isLast d pre p flat = flat ++ ext
    /\ rowsIndented (length flat) p d (Str.jsLength pre) ext.

Lemma walk_indented l :
  Forall nodeIndented l ->
  forall d pre p flat,
  exists ext,
    FileTree.walk l d pre p flat = flat ++ ext
    /\ rowsIndented (length flat) p d (Str.jsLength pre) ext.
Proof.
  induction 1 as [|c r Hc _ IH]; intros d pre p flat.
  - exists []. rewrite app_nil_r. split; [done|]. intros k e Hk.
    by rewrite lookup_nil in Hk.
  - cbn [FileTree.walk].
    destruct (Hc (isLastOf r) d pre p flat) as (ext1 & -> & H1).
    destruct (IH d pre p (flat ++ ext1)) as (ext2 & -> & H2).
    exists (ext1 ++ ext2). split; [by rewrite <- app_assoc|].
    apply rowsIndented_app; [done|]. by rewrite length_app in H2.
Qed.

Lemma walkNode_indented nd : nodeIndented nd.
Proof.
  induction nd as [nm pth dr kids g IH] using TreeNode_nested_ind.
  intros isLast d pre p flat. rewrite walkNode_unfold. cbv zeta. cbn [children].
  set (e0 := {| node := MkTreeNode nm pth dr kids g; depth := d; prefix := pre;
                connector := if isLast then "└── " else "├── ";
                parentIndex := p; firstChildIndex := -1 |}).
  assert (Hrow : forall v k e, [setFirstChildIndex v e0] !! k = Some e ->
            Str.jsLength (connector e) = 4
            /\ Str.jsLength (prefix e) = Str.jsLength pre + 4 * (depth e - d)
            /\ parentIndex e = p /\ depth e = d).
  { intros v k e Hk. destruct k as [|k]; [|by rewrite lookup_cons, lookup_nil in Hk].
    cbn in Hk. injection Hk as <-. unfold e0, setFirstChildIndex.
    cbn [connector prefix depth parentIndex].
    split_and!; [by destruct isLast | lia | done | done]. }
  assert (Hleaf : rowsIndented (length flat) p d (Str.jsLength pre) [e0]).
  { intros k e Hk. destruct (Hrow (-1) k e Hk) as (? & ? & ? & ?). split_and!; auto. }
  destruct kids as [[|k ks]|].
  - by exists [e0].
  - change (Forall nodeIndented (k :: ks)) in IH. pose proof (walk_indented _ IH) as IHk.
    rewrite alter_snoc.
    set (e1 := setFirstChildIndex _ e0).
    destruct (IHk (d + 1) (pre +:+ (if isLast then "    " else "│   "))
                  (Z.of_nat (length flat)) (flat ++ [e1]))
      as (ext & -> & Hl).
    exists (e1 :: ext). split; [by rewrite <- app_assoc|].
    rewrite length_app in Hl. cbn [length] in Hl.
    assert (Hw : Str.jsLength (pre +:+ (if isLast then "    " else "│   "))
                 = Str.jsLength pre + 4).
    { rewrite jsLength_app. by destruct isLast. }
    rewrite Hw in Hl.
    intros j e Hj. destruct j as [|j].
    + destruct (Hrow _ 0%nat e Hj) as (? & ? & ? & ?). split_and!; auto.
    + cbn in Hj. destruct (Hl j e Hj) as (Hc & Hpw & Hp). split_and!; [done | lia |].
      right. destruct Hp as [[Hp Hd] | (k' & pe & Hlt & Hlk & Hpi & Hd)].
      * exists 0%nat, e1. split_and!; [lia | done | lia | subst e1 e0; cbn; lia].
      * exists (S k'), pe. split_and!; [lia | done | lia | done].
  - by exists [e0].
Qed.

Lemma flattenTree_indented nodes : rowsIndented 0 (-1) 0 0 (flattenTree nodes).
Proof.
  unfold flattenTree.
  destruct (walk_indented nodes) with (d := 0) (pre := EmptyString) (p := -1)
                                      (flat := @nil FlatEntry)
    as (ext & -> & Hl).
  - apply Forall_forall. intros nd _. apply walkNode_indented.
  - done.
Qed.

(** What one call of [walk] appends from index [base] on: a row whose
    node has children points to the next row, which is the row of the
    first child; any other row points to none. *)
Definition rowsChildNext (base : nat) (ext : list FlatEntry) : Prop :=
  forall (k : nat) (e : FlatEntry), ext !! k = Some e ->
    match children (node e) with
    | Some (c :: _) =>
        firstChildIndex e = Z.of_nat base + Z.of_nat k + 1
        /\ exists row, ext !! S k = Some row /\ node row = c
    | _ => firstChildIndex e = -1
    end.

Lemma rowsChildNext_app base e1 e2 :
  rowsChildNext base e1 ->
  rowsChildNext (base + length e1) e2 ->
  rowsChildNext base (e1 ++ e2).
Proof.
  intros H1 H2 k e Hk.
  apply lookup_app_Some in Hk as [Hk | [Hge Hk]].
  - specialize (H1 k e Hk). destruct (children (node e)) as [[|c r]|]; [done| |done].
    destruct H1 as (Hf & row & Hr & Hn). split; [done|].
    exists row. split; [|done]. by apply lookup_app_l_Some.
  - specialize (H2 _ e Hk). destruct (children (node e)) as [[|c r]|]; [done| |done].
    destruct H2 as (Hf & row & Hr & Hn). split; [lia|].
    exists row. split; [|done]. rewrite lookup_app_r by lia.
    by replace (S k - length e1)%nat with (S (k - length e1)) by lia.
Qed.

Definition nodeChildNext (nd : TreeNode) : Prop :=
  forall isLast d pre p flat,
  exists e ext,
    walkNode nd isLast d pre p flat = flat ++ e :: ext
    /\ node e = nd
    /\ rowsChildNext (length flat) (e :: ext).

Lemma walk_childNext l :
  Forall nodeChildNext l ->
  forall d pre p flat,
  exists ext,
    FileTree.walk l d pre p flat = flat ++ ext
    /\ rowsChildNext (length flat) ext
    /\ (forall c r, l = c :: r -> exists e, ext !! 0%nat = Some e /\ node e = c).
Proof.
  induction 1 as [|c r Hc _ IH]; intros d pre p flat.
  - exists []. rewrite app_nil_r. split_and!; [done | | done].
    intros k e Hk. by rewrite lookup_nil in Hk.
  - cbn [FileTree.walk].
    destruct (Hc (isLastOf r) d pre p flat) as (e & ext1 & -> & Hn & H1).
    destruct (IH d pre p (flat ++ e :: ext1)) as (ext2 & -> & H2 & _).
    exists ((e :: ext1) ++ ext2). split_and!.
    + by rewrite <- app_assoc.
    + apply rowsChildNext_app; [done|]. by rewrite length_app in H2.
    + intros c' r' E. injection E as <- <-. by exists e.
Qed.

Lemma walkNode_childNext nd : nodeChildNext nd.
Proof.
  induction nd as [nm pth dr kids g IH] using TreeNode_nested_ind.
  intros isLast d pre p flat. rewrite walkNode_unfold. cbv zeta. cbn [children].
  set (e0 := {| node := MkTreeNode nm pth dr kids g; depth := d; prefix := pre;
                connector := if isLast then "└── " else "├── ";
                parentIndex := p; firstChildIndex := -1 |}).
  destruct kids as [[|k ks]|].
  - exists e0, []. split_and!; [done | done |].
    intros j e Hj. destruct j as [|j]; [|by rewrite lookup_cons, lookup_nil in Hj].
    cbn in Hj. by injection Hj as <-.
  - change (Forall nodeChildNext (k :: ks)) in IH. pose proof (walk_childNext _ IH) as IHk.
    rewrite alter_snoc.
    set (e1 := setFirstChildIndex _ e0).
    destruct (IHk (d + 1) (pre +:+ (if isLast then "    " else "│   "))
                  (Z.of_nat (length flat)) (flat ++ [e1]))
      as (ext & -> & Hl & Hhd).
    destruct (Hhd k ks eq_refl) as (c0 & Hc0 & Hn0).
    exists e1, ext. split_and!; [by rewrite <- app_assoc | done |].
    rewrite length_app in Hl. cbn [length] in Hl.
    intros j e Hj. destruct j as [|j].
    + cbn in Hj. injection Hj as <-. cbn [node e1 e0 setFirstChildIndex children].
      split; [cbn; rewrite length_app; cbn; lia|]. by exists c0.
    + cbn in Hj. specialize (Hl j e Hj).
      destruct (children (node e)) as [[|c r]|]; [done| |done].
      destruct Hl as (Hf & row & Hr & Hn). split; [lia|]. by exists row.
  - exists e0, []. split_and!; [done | done |].
    intros j e Hj. destruct j as [|j]; [|by rewrite lookup_cons, lookup_nil in Hj].
    cbn in Hj. by injection Hj as <-.
Qed.

Lemma flattenTree_childNext nodes : rowsChildNext 0 (flattenTree nodes).
Proof.
  unfold flattenTree.
  destruct (walk_childNext nodes) with (d := 0) (pre := EmptyString) (p := -1)
                                       (flat := @nil FlatEntry)
    as (ext & -> & Hl & _).
  - apply Forall_forall. intros nd _. apply walkNode_childNext.
  - done.
Qed.

(** X10. The flattening lists the nodes of the forest in depth-first
    pre-order: a node, then its children and their descendants, then
    its next sibling. *)
Theorem flattenTree_is_preorder (nodes : list TreeNode) :
  List.map node (flattenTree nodes) = preorder nodes.
Proof.
  unfold flattenTree.
  destruct (walk_preorder nodes) with (d := 0) (pre := EmptyString) (p := -1)
                                      (flat := @nil FlatEntry)
    as (ext & -> & Hm).
  - apply Forall_forall. intros nd _. apply walkNode_preorder.
  - done.
Qed.

(** X11. In the flattening a row at depth 0 has the parent index -1, and
    every other row has its parent at an earlier index, exactly one
    level up. *)
Theorem flattenTree_parent_is_one_level_up
        (nodes : list TreeNode) (i : nat) (e : FlatEntry) :
  flattenTree nodes !! i = Some e ->
  (parentIndex e = -1 /\ depth e = 0)
  \/ exists pe, 0 <= parentIndex e < Z.of_nat i
                /\ at_ (flattenTree nodes) (parentIndex e) = Some pe
                /\ depth e = depth pe + 1.
Proof.
  intros Hi. destruct (flattenTree_indented nodes i e Hi) as (_ & _ & Hp).
  destruct Hp as [Hp | (k' & pe & Hlt & Hl & Hpi & Hd)]; [by left | right].
  exists pe. split_and!; [lia | lia | | done].
  unfold at_. rewrite Hpi. destruct (Z.ltb_spec (Z.of_nat 0 + Z.of_nat k') 0); [lia|].
  by replace (Z.to_nat (Z.of_nat 0 + Z.of_nat k')) with k' by lia.
Qed.

(** X12. Indentation is four columns per level: in every row of the
    flattening the prefix is [4 * depth] code units long and the
    connector 4. *)
Theorem flattenTree_indent_is_four_per_level (nodes : list TreeNode) :
  Forall (fun e => Str.jsLength (prefix e) = 4 * depth e
                   /\ Str.jsLength (connector e) = 4)
         (flattenTree nodes).
Proof.
  apply Forall_lookup. intros i e Hi.
  destruct (flattenTree_indented nodes i e Hi) as (Hc & Hw & _). split; [lia | done].
Qed.

End FlattenOrder.

Lemma flattenTree_parent_witness :
  exists e,
    FileTree.flattenTree Demo.smallForest !! 2%nat = Some e
    /\ ((FileTree.parentIndex e = -1 /\ FileTree.depth e = 0)
        \/ exists pe, 0 <= FileTree.parentIndex e < Z.of_nat 2
                      /\ FileTree.at_ (FileTree.flattenTree Demo.smallForest)
                                      (FileTree.parentIndex e) = Some pe
                      /\ FileTree.depth e = FileTree.depth pe + 1).
Proof.
  destruct (FileTree.flattenTree Demo.smallForest !! 2%nat) as [e|] eqn:E.
  - exists e. split; [reflexivity|].
    exact (flattenTree_parent_is_one_level_up Demo.smallForest 2 e E).
  - vm_compute in E. discriminate E.
Defined.

(** ** The cursor and the viewport *)

Section Viewport.
Import Tree FileTree.

Lemma at_in_range (flat : list FlatEntry) (c : Z) :
  0 <= c < Z.of_nat (length flat) -> exists e, at_ flat c = Some e.
Proof.
  intros Hc. unfold at_. destruct (Z.ltb_spec c 0); [lia|].
  apply lookup_lt_is_Some_2. lia.
Qed.

Lemma at_Some (flat : list FlatEntry) (c : Z) e :
  at_ flat c = Some e ->
  0 <= c < Z.of_nat (length flat) /\ flat !! Z.to_nat c = Some e.
Proof.
  unfold at_. destruct (Z.ltb_spec c 0) as [Hlt|Hge]; [done|]. intros Hx. split; [|done].
  apply lookup_lt_Some in Hx. lia.
Qed.

Lemma jsLength_nonneg s : 0 <= Str.jsLength s.
Proof.
  induction s as [|c s IH]; cbn [Str.jsLength]; [lia|].
  assert (0 <= Str.utf16Units c); [|lia].
  unfold Str.utf16Units. repeat destruct (_ <? _)%nat; lia.
Qed.

(** X13. The cursor stays a valid index: on the flattening of a forest,
    from a cursor within the rows, each of the four keys gives a cursor
    within the rows; and the clamp after a refresh brings any cursor
    that is not negative within the rows of the new flattening, leaving
    it where it is when it already fits. *)
Theorem cursor_stays_within_rows
        (nodes newNodes : list TreeNode) (cursor : Z) (key : Key) :
  0 <= cursor < Z.of_nat (length (flattenTree nodes)) ->
  0 <= moveCursor (flattenTree nodes) cursor key < Z.of_nat (length (flattenTree nodes))
  /\ 0 <= clampCursor (flattenTree newNodes) cursor
     <= Z.max 0 (Z.of_nat (length (flattenTree newNodes)) - 1)
  /\ (cursor < Z.of_nat (length (flattenTree newNodes)) ->
      clampCursor (flattenTree newNodes) cursor = cursor).
Proof.
  intros Hc. split; [|unfold clampCursor; lia].
  destruct (at_in_range _ _ Hc) as [e He].
  destruct (at_Some _ _ _ He) as [_ Hl].
  destruct (flattenTree_linked nodes _ e Hl) as [Hp Hf].
  destruct key; cbn [moveCursor]; [lia | lia | |].
  - destruct (Z.gtb_spec (Z.of_nat (length (flattenTree nodes))) 0); [|lia].
    rewrite He. destruct (Z.geb_spec (parentIndex e) 0); lia.
  - destruct (Z.gtb_spec (Z.of_nat (length (flattenTree nodes))) 0); [|lia].
    rewrite He. destruct (Z.geb_spec (firstChildIndex e) 0); [|lia].
    destruct Hf as [Hf | (k' & ce & Hf & Hlk & _)]; [lia|].
    apply lookup_lt_Some in Hlk. lia.
Qed.

(** X14. Going to the first child and then to the parent comes back: on
    the flattening of a forest, from the row of a node that has
    children, the key for the first child moves the cursor to the next
    row, which is the row of the node's first child, and the key for
    the parent brings it back; from the row of a node without children
    the key for the first child leaves the cursor where it is. *)
Theorem first_child_then_parent_returns
        (nodes : list TreeNode) (cursor : Z) (e : FlatEntry) :
  at_ (flattenTree nodes) cursor = Some e ->
  (forall c rest, children (node e) = Some (c :: rest) ->
     moveCursor (flattenTree nodes) cursor KeyRight = cursor + 1
     /\ (exists row, at_ (flattenTree nodes) (cursor + 1) = Some row /\ node row = c)
     /\ moveCursor (flattenTree nodes) (cursor + 1) KeyLeft = cursor)
  /\ (children (node e) = None \/ children (node e) = Some [] ->
      moveCursor (flattenTree nodes) cursor KeyRight = cursor).
Proof.
  intros He. destruct (at_Some _ _ _ He) as [Hc Hl].
  pose proof (flattenTree_childNext nodes _ e Hl) as Hnext.
  assert (Hlen : (Z.of_nat (length (flattenTree nodes)) >? 0) = true)
    by (apply Z.gtb_lt; lia).
  split.
  - intros c rest Hk. rewrite Hk in Hnext. destruct Hnext as (Hf & row & Hr & Hn).
    assert (Hrow : at_ (flattenTree nodes) (cursor + 1) = Some row).
    { unfold at_. destruct (Z.ltb_spec (cursor + 1) 0); [lia|].
      by replace (Z.to_nat (cursor + 1)) with (S (Z.to_nat cursor)) by lia. }
    assert (Hright : moveCursor (flattenTree nodes) cursor KeyRight = cursor + 1).
    { cbn [moveCursor]. rewrite Hlen, He.
      destruct (Z.geb_spec (firstChildIndex e) 0); lia. }
    split_and!; [done | by exists row |].
    destruct (flattenTree_linked nodes _ e Hl) as [_ [Hneg | (k' & ce & Hfc & Hlk & Hpc)]];
      [lia|].
    assert (ce = row) as ->.
    { replace k' with (S (Z.to_nat cursor)) in Hlk by lia. congruence. }
    cbn [moveCursor]. rewrite Hlen, Hrow.
    destruct (Z.geb_spec (parentIndex row) 0); lia.
  - intros Hk. cbn [moveCursor]. rewrite Hlen, He.
    assert (Hf : firstChildIndex e = -1) by (destruct Hk as [Hk | Hk]; by rewrite Hk in Hnext).
    rewrite Hf. reflexivity.
Qed.

Lemma slice_lookup {A} (l : list A) (s e j : Z) :
  0 <= s <= j -> j < e -> j < Z.of_nat (length l) ->
  Str.slice l s e !! Z.to_nat (j - s) = l !! Z.to_nat j.
Proof.
  intros Hs He Hj. unfold Str.slice, Str.sliceIndex.
  destruct (Z.ltb_spec s 0); [lia|]. destruct (Z.ltb_spec e 0); [lia|].
  rewrite lookup_take_lt by lia. rewrite lookup_drop. f_equal. lia.
Qed.

Lemma slice_length {A} (l : list A) (s e : Z) :
  0 <= s <= e ->
  Z.of_nat (length (Str.slice l s e))
  = Z.max 0 (Z.min e (Z.of_nat (length l)) - s).
Proof.
  intros Hs. unfold Str.slice, Str.sliceIndex.
  destruct (Z.ltb_spec s 0); [lia|]. destruct (Z.ltb_spec e 0); [lia|].
  rewrite length_take, length_drop. lia.
Qed.

(** X15. The row under the cursor is on screen: with room for at least
    one row and the cursor within the rows, the scroll window starts at
    or before the cursor and ends after it, and shows that row at the
    cursor's offset; the window holds as many rows as fit, and the count
    of rows hidden below it is what lies past the window. *)
Theorem scroll_window_shows_cursor (flat : list FlatEntry) (cursor maxVisible : Z) :
  1 <= maxVisible ->
  0 <= cursor < Z.of_nat (length flat) ->
  0 <= scrollStart flat cursor maxVisible <= cursor
  /\ cursor < scrollStart flat cursor maxVisible + maxVisible
  /\ visibleEntries flat cursor maxVisible
       !! Z.to_nat (cursor - scrollStart flat cursor maxVisible)
     = flat !! Z.to_nat cursor
  /\ Z.of_nat (length (visibleEntries flat cursor maxVisible))
     = Z.min maxVisible (Z.of_nat (length flat))
  /\ Z.max 0 (hiddenBelow flat cursor maxVisible)
     = Z.of_nat (length flat) - scrollStart flat cursor maxVisible
       - Z.of_nat (length (visibleEntries flat cursor maxVisible)).
Proof.
  intros Hm Hc.
  assert (Hh : 0 <= maxVisible / 2 < maxVisible).
  { split; [apply Z.div_pos; lia | apply Z.div_lt_upper_bound; lia]. }
  assert (Hs : 0 <= scrollStart flat cursor maxVisible <= cursor
               /\ cursor < scrollStart flat cursor maxVisible + maxVisible
               /\ scrollStart flat cursor maxVisible
                  = Z.max 0 (Z.min (cursor - maxVisible / 2)
                                   (Z.of_nat (length flat) - maxVisible))).
  { unfold scrollStart. revert Hh. generalize (maxVisible / 2). intros h Hh. lia. }
  destruct Hs as (Hs1 & Hs2 & Hs3).
  assert (Hlen : Z.of_nat (length (visibleEntries flat cursor maxVisible))
                 = Z.min maxVisible (Z.of_nat (length flat))).
  { unfold visibleEntries. rewrite slice_length by lia.
    revert Hs3 Hh. generalize (maxVisible / 2), (scrollStart flat cursor maxVisible).
    intros h s -> Hh. lia. }
  split_and!; [lia | lia | lia | | done |].
  - unfold visibleEntries. apply slice_lookup; lia.
  - rewrite Hlen. unfold hiddenBelow.
    revert Hs3 Hh. generalize (maxVisible / 2), (scrollStart flat cursor maxVisible).
    intros h s -> Hh. lia.
Qed.

Lemma scroll_window_witness :
  0 <= scrollStart (flattenTree Demo.smallForest) 3 2 <= 3
  /\ 3 < scrollStart (flattenTree Demo.smallForest) 3 2 + 2
  /\ visibleEntries (flattenTree Demo.smallForest) 3 2
       !! Z.to_nat (3 - scrollStart (flattenTree Demo.smallForest) 3 2)
     = flattenTree Demo.smallForest !! Z.to_nat 3
  /\ Z.of_nat (length (visibleEntries (flattenTree Demo.smallForest) 3 2))
     = Z.min 2 (Z.of_nat (length (flattenTree Demo.smallForest)))
  /\ Z.max 0 (hiddenBelow (flattenTree Demo.smallForest) 3 2)
     = Z.of_nat (length (flattenTree Demo.smallForest))
       - scrollStart (flattenTree Demo.smallForest) 3 2
       - Z.of_nat (length (visibleEntries (flattenTree Demo.smallForest) 3 2)).
Proof.
  apply (scroll_window_shows_cursor (flattenTree Demo.smallForest) 3 2); [lia|].
  vm_compute. split; [discriminate | reflexivity].
Defined.

(** X16. The horizontal shift cuts indentation only: for the row under
    the cursor in the flattening of a forest the offset is between 0 and
    the width of the row's prefix, so the connector and the name stay;
    it is 0 when the row fits the pane; and when the connector and the
    name fit the pane, the row shifted by the offset fits it too. *)
Theorem hOffset_cuts_indentation_only
        (nodes : list TreeNode) (cursor paneWidth : Z) (e : FlatEntry) :
  at_ (flattenTree nodes) cursor = Some e ->
  0 <= hOffset (flattenTree nodes) cursor paneWidth <= Str.jsLength (prefix e)
  /\ (lineWidth e <= paneWidth -> hOffset (flattenTree nodes) cursor paneWidth = 0)
  /\ (lineWidth e - Str.jsLength (prefix e) <= paneWidth ->
      lineWidth e - hOffset (flattenTree nodes) cursor paneWidth <= paneWidth).
Proof.
  intros He. destruct (at_Some _ _ _ He) as [Hc Hl].
  destruct (flattenTree_indented nodes _ e Hl) as (Hconn & _ & _).
  pose proof (jsLength_nonneg (prefix e)) as Hp.
  unfold hOffset.
  destruct (Z.gtb_spec (Z.of_nat (length (flattenTree nodes))) 0); [|lia].
  rewrite He. unfold lineWidth in *. rewrite Hconn.
  destruct (Z.gtb_spec (Str.jsLength (prefix e) + 4 + Str.jsLength (name (node e)) + dirMark e)
                       paneWidth); lia.
Qed.

End Viewport.

Lemma cursor_stays_within_rows_witness :
  0 <= FileTree.moveCursor (FileTree.flattenTree Demo.smallForest) 0 FileTree.KeyRight
    < Z.of_nat (length (FileTree.flattenTree Demo.smallForest))
  /\ 0 <= FileTree.clampCursor (FileTree.flattenTree []) 0
     <= Z.max 0 (Z.of_nat (length (FileTree.flattenTree [])) - 1)
  /\ (0 < Z.of_nat (length (FileTree.flattenTree [])) ->
      FileTree.clampCursor (FileTree.flattenTree []) 0 = 0).
Proof.
  apply (cursor_stays_within_rows Demo.smallForest [] 0 FileTree.KeyRight).
  vm_compute. split; [discriminate | reflexivity].
Defined.

Lemma first_child_then_parent_witness :
  exists e,
    FileTree.at_ (FileTree.flattenTree Demo.smallForest) 1 = Some e
    /\ (forall c rest, Tree.children (FileTree.node e) = Some (c :: rest) ->
          FileTree.moveCursor (FileTree.flattenTree Demo.smallForest) 1 FileTree.KeyRight
          = 1 + 1
          /\ (exists row, FileTree.at_ (FileTree.flattenTree Demo.smallForest) (1 + 1)
                          = Some row
                          /\ FileTree.node row = c)
          /\ FileTree.moveCursor (FileTree.flattenTree Demo.smallForest) (1 + 1)
               FileTree.KeyLeft = 1)
    /\ (Tree.children (FileTree.node e) = None \/ Tree.children (FileTree.node e) = Some [] ->
        FileTree.moveCursor (FileTree.flattenTree Demo.smallForest) 1 FileTree.KeyRight = 1).
Proof.
  destruct (FileTree.at_ (FileTree.flattenTree Demo.smallForest) 1) as [e|] eqn:E.
  - exists e. split; [reflexivity|].
    exact (first_child_then_parent_returns Demo.smallForest 1 e E).
  - vm_compute in E. discriminate E.
Defined.

Lemma hOffset_witness :
  exists e,
    FileTree.at_ (FileTree.flattenTree Demo.smallForest) 2 = Some e
    /\ 0 <= FileTree.hOffset (FileTree.flattenTree Demo.smallForest) 2 10
       <= Str.jsLength (FileTree.prefix e)
    /\ (FileTree.lineWidth e <= 10 ->
        FileTree.hOffset (FileTree.flattenTree Demo.smallForest) 2 10 = 0)
    /\ (FileTree.lineWidth e - Str.jsLength (FileTree.prefix e) <= 10 ->
        FileTree.lineWidth e - FileTree.hOffset (FileTree.flattenTree Demo.smallForest) 2 10
        <= 10).
Proof.
  destruct (FileTree.at_ (FileTree.flattenTree Demo.smallForest) 2) as [e|] eqn:E.
  - exists e. split; [reflexivity|].
    exact (hOffset_cuts_indentation_only Demo.smallForest 2 10 e E).
  - vm_compute in E. discriminate E.
Defined.

(** ** The pane lifecycle: transitions of [toggleBrowser] *)

Section Lifecycle.
Import Terminal.

Lemma append_inj_l (p a b : string) : p +:+ a = p +:+ b -> a = b.
Proof.
  induction p as [|c p IH]; [done|].
  change (String c p +:+ a) with (String c (p +:+ a)).
  change (String c p +:+ b) with (String c (p +:+ b)).
  intros E. injection E as E. by apply IH.
Qed.

Lemma filterChars_idempotent f s : Str.filterChars f (Str.filterChars f s) = Str.filterChars f s.
Proof.
  induction s as [|c s IH]; [done|]. cbn [Str.filterChars].
  destruct (f c) eqn:E; [|done]. cbn [Str.filterChars]. by rewrite E, IH.
Qed.

Lemma filterChars_excludes f c s :
  f c = false -> Str.includesChar c (Str.filterChars f s) = false.
Proof.
  intros Hc. induction s as [|d s IH]; [done|]. cbn [Str.filterChars].
  destruct (f d) eqn:E; [|done]. cbn [Str.includesChar]. rewrite IH, orb_false_r.
  apply Ascii.eqb_neq. intros ->. congruence.
Qed.

(** X17. The identity file is named by the sanitised identifier only:
    the name is the fixed prefix followed by the letters and digits of
    the originating pane's identifier, so it holds no path separator
    and no dot; two identifiers share a file exactly when their letters
    and digits agree. *)
Theorem getPaneIdFile_is_sanitised (a b : string) :
  getPaneIdFile a = "/tmp/file-browser-pane-" +:+ Str.filterChars Str.isAlnum a
  /\ Str.filterChars Str.isAlnum (Str.filterChars Str.isAlnum a) = Str.filterChars Str.isAlnum a
  /\ Str.includesChar Str.SLASH (Str.filterChars Str.isAlnum a) = false
  /\ Str.includesChar "."%char (Str.filterChars Str.isAlnum a) = false
  /\ (getPaneIdFile a = getPaneIdFile b
      <-> Str.filterChars Str.isAlnum a = Str.filterChars Str.isAlnum b).
Proof.
  split_and!.
  - reflexivity.
  - apply filterChars_idempotent.
  - by apply filterChars_excludes.
  - by apply filterChars_excludes.
  - unfold getPaneIdFile. split; [apply append_inj_l | by intros ->].
Qed.

Lemma identity_absent w :
  files w !! identityFile w = None ->
  identityFileExists w = false /\ paneActive w = false.
Proof.
  unfold identityFileExists, paneActive, readPaneId, identityFile. intros H. rewrite H.
  split; [|done]. apply bool_decide_eq_false. by intros [x Hx].
Qed.

(** What [toggleBrowser] does in each state. *)
Lemma paneActive_inv w :
  paneActive w = true ->
  exists id, readPaneId (identityFile w) w = Some id
             /\ Str.truthy id = true /\ paneExists id w = true.
Proof.
  unfold paneActive. intros H. apply andb_true_iff in H as [H1 H2].
  destruct (readPaneId (identityFile w) w) as [id|]; [|done]. by exists id.
Qed.

Lemma toggle_active w cwd id :
  paneActive w = true ->
  readPaneId (identityFile w) w = Some id ->
  toggleBrowser cwd w = (clearPaneId (identityFile w) (killed id w), Some tt).
Proof.
  intros Ha Hid. destruct (paneActive_inv w Ha) as (id' & Hid' & Ht & He).
  rewrite Hid in Hid'. injection Hid' as <-.
  pose proof (paneActive_binary w Ha) as Hb.
  rewrite toggleBrowser_runs, Ha, closeBrowser_runs by done. by rewrite Hid, Ht, He.
Qed.

Lemma reusePane_runs id cwd w :
  tmuxBinary w = true ->
  reusePane id cwd w
  = (tmux ["send-keys"; "-t"; id; "clear && " +:+ buildShowCommand cwd w; "Enter"]
       (tmux ["send-keys"; "-t"; id; "C-c"; EmptyString] w), Some tt).
Proof.
  intros H. unfold reusePane, bind, spawnTmux, reads. rewrite H. cbn [tmuxBinary tmux].
  by rewrite H.
Qed.

Lemma spawnBrowser_runs cwd w :
  tmuxBinary w = true ->
  env_TMUX w = true ->
  spawnBrowser cwd w
  = if paneActive w
    then (fst (reusePane (default EmptyString (readPaneId (identityFile w) w)) cwd w),
          Some (readPaneId (identityFile w) w))
    else createNewPane cwd (paneQuery w) (identityFile w) w.
Proof.
  intros Hb He. unfold spawnBrowser, bind, reads, detectTmux.
  rewrite He. cbn [negb]. unfold getCurrentPaneId. rewrite Hb.
  fold (identityFile w). fold (paneActive w).
  destruct (paneActive w); [|done]. by rewrite reusePane_runs.
Qed.

Lemma toggle_inactive_split_ok w cwd out :
  tmuxBinary w = true ->
  paneActive w = false ->
  env_TMUX w = true ->
  splitWindow w = (0, out) ->
  Str.truthy (Str.trim out) = true ->
  toggleBrowser cwd w
  = (opened cwd (identityFile w) (paneQuery w) out (clearPaneId (identityFile w) w), Some tt).
Proof.
  intros Hb Ha Henv Hs Ht. rewrite toggleBrowser_runs, Ha by done.
  set (w0 := clearPaneId (identityFile w) w).
  assert (Hn : files w0 !! identityFile w0 = None) by (cbn; apply lookup_delete_eq).
  destruct (identity_absent _ Hn) as [_ Ha0].
  rewrite spawnBrowser_runs, Ha0 by done.
  rewrite createNewPane_runs by done.
  change (splitWindow w0) with (splitWindow w). rewrite Hs. cbn [fst snd Z.eqb andb].
  rewrite Ht. reflexivity.
Qed.

Lemma toggle_inactive_split_failed w cwd :
  tmuxBinary w = true ->
  paneActive w = false ->
  env_TMUX w = true ->
  (fst (splitWindow w) <> 0 \/ Str.truthy (Str.trim (snd (splitWindow w))) = false) ->
  toggleBrowser cwd w = (tmux (splitCall cwd w) (clearPaneId (identityFile w) w), Some tt).
Proof.
  intros Hb Ha Henv Hs. rewrite toggleBrowser_runs, Ha by done.
  set (w0 := clearPaneId (identityFile w) w).
  assert (Hn : files w0 !! identityFile w0 = None) by (cbn; apply lookup_delete_eq).
  destruct (identity_absent _ Hn) as [_ Ha0].
  rewrite spawnBrowser_runs, Ha0 by done.
  rewrite createNewPane_runs by done.
  change (splitWindow w0) with (splitWindow w).
  destruct (splitWindow w) as [code out]. cbn [fst snd] in *.
  destruct (Z.eqb_spec code 0) as [->|Hne]; cbn [andb]; [|done].
  destruct Hs as [Hs | Hs]; [done | by rewrite Hs].
Qed.





(** The files other than the identity file of the session. *)
Lemma createNewPane_frame cwd src file w p :
  p <> file -> files (after (createNewPane cwd src file) w) !! p = files w !! p.
Proof.
  intros Hp. unfold after. destruct (tmuxBinary w) eqn:Hb.
  - rewrite createNewPane_runs by done.
    destruct ((fst (splitWindow w) =? 0) && _); cbn; [|done].
    by rewrite lookup_insert_ne.
  - unfold createNewPane, bind, reads, spawnTmux. by rewrite Hb.
Qed.

Lemma spawnBrowser_frame cwd w p :
  p <> identityFile w -> files (after (spawnBrowser cwd) w) !! p = files w !! p.
Proof.
  intros Hp. destruct (env_TMUX w) eqn:He.
  - destruct (tmuxBinary w) eqn:Hb.
    + unfold after. rewrite spawnBrowser_runs by done.
      destruct (paneActive w); [by rewrite reusePane_runs|].
      by apply createNewPane_frame.
    + unfold after, spawnBrowser, bind, reads, detectTmux.
      rewrite He. cbn [negb]. unfold getCurrentPaneId. by rewrite Hb.
  - unfold after. by rewrite spawnBrowser_without_tmux.
Qed.

Lemma closeBrowser_frame w p :
  p <> identityFile w -> files (after closeBrowser w) !! p = files w !! p.
Proof.
  intros Hp. unfold after. destruct (tmuxBinary w) eqn:Hb.
  - rewrite closeBrowser_runs by done.
    destruct (readPaneId (identityFile w) w) as [id|]; [|done].
    destruct (Str.truthy id); [|done].
    destruct (paneExists id w); cbn; by rewrite lookup_delete_ne.
  - by rewrite closeBrowser_dies.
Qed.

(** X22. The lifecycle touches one file only: [toggleBrowser],
    [closeBrowser] and [spawnBrowser] leave every file other than the
    identity file of the current session as it was, however they end. *)
Theorem lifecycle_touches_only_the_identity_file (cwd : string) (w : World) (p : string) :
  p <> identityFile w ->
  files (after (toggleBrowser cwd) w) !! p = files w !! p
  /\ files (after closeBrowser w) !! p = files w !! p
  /\ files (after (spawnBrowser cwd) w) !! p = files w !! p.
Proof.
  intros Hp. split_and!; [|by apply closeBrowser_frame | by apply spawnBrowser_frame].
  destruct (tmuxBinary w) eqn:Hb.
  - unfold after. rewrite toggleBrowser_runs by done.
    destruct (paneActive w); [by apply closeBrowser_frame|]. cbn [fst].
    pose proof (spawnBrowser_frame cwd (clearPaneId (identityFile w) w) p Hp) as H.
    unfold after in H. rewrite H. cbn. by rewrite lookup_delete_ne.
  - unfold after. by rewrite toggleBrowser_dies.
Qed.

End Lifecycle.

(** ** The control socket: lines, replies, clients *)

Section Lines.

(** Lines, each closed by a line feed. *)
Definition unlines (l : list string) : string :=
  fold_right (fun line rest => line +:+ String Str.LF rest) EmptyString l.

Lemma split_line_cons line rest :
  Str.split Str.LF line = [line] ->
  Str.split Str.LF (line +:+ String Str.LF rest) = line :: Str.split Str.LF rest.
Proof.
  induction line as [|c s IH]; intros Hs.
  - change (EmptyString +:+ String Str.LF rest) with (String Str.LF rest).
    cbn [Str.split]. by rewrite Ascii.eqb_refl.
  - change (String c s +:+ String Str.LF rest) with (String c (s +:+ String Str.LF rest)).
    cbn [Str.split] in *. destruct (Ascii.eqb c Str.LF); [discriminate|].
    destruct (Str.split Str.LF s) as [|h t] eqn:E; [by destruct (split_nonempty Str.LF s)|].
    injection Hs as -> ->. by rewrite IH.
Qed.

Lemma split_unlines lines :
  Forall (fun line => Str.split Str.LF line = [line]) lines ->
  Str.split Str.LF (unlines lines) = lines ++ [EmptyString].
Proof.
  induction 1 as [|line rest Hl _ IH]; [reflexivity|].
  cbn [unlines fold_right]. fold (unlines rest). by rewrite split_line_cons, IH.
Qed.

Lemma string_length_app a b : String.length (a +:+ b) = (String.length a + String.length b)%nat.
Proof.
  induction a as [|c a IH]; [reflexivity|].
  change (String c a +:+ b) with (String c (a +:+ b)). cbn [String.length]. by rewrite IH.
Qed.

Lemma append_inj_r (s a : string) : forall b, a +:+ s = b +:+ s -> a = b.
Proof.
  induction a as [|c a IH]; intros [|d b] E.
  - done.
  - apply (f_equal String.length) in E. rewrite !string_length_app in E. cbn in E. lia.
  - apply (f_equal String.length) in E. rewrite !string_length_app in E. cbn in E. lia.
  - change (String c a +:+ s) with (String c (a +:+ s)) in E.
    change (String d b +:+ s) with (String d (b +:+ s)) in E.
    injection E as -> E. f_equal. by apply IH.
Qed.

End Lines.

(** X23. Distinct identifiers give distinct socket paths: two instances
    share a socket only if they were given the same identifier. *)
Theorem getSocketPath_injective (a b : string) :
  Ipc.getSocketPath a = Ipc.getSocketPath b <-> a = b.
Proof.
  split; [|by intros ->]. unfold Ipc.getSocketPath. intros E.
  apply append_inj_l in E. by apply append_inj_r in E.
Qed.

(** X24. One change per line of the status output that is not blank, in
    the order of the output. *)
Theorem getGitChanges_one_per_line (statusLines : list string) :
  Forall (fun line => Str.split Str.LF line = [line]) statusLines ->
  Tree.getGitChanges (Some (unlines statusLines))
  = List.map Tree.parseStatusLine
      (List.filter (fun line => Str.truthy (Str.trim line)) statusLines).
Proof.
  intros H. unfold Tree.getGitChanges. rewrite (split_unlines _ H).
  rewrite List.filter_app. cbn [List.filter Str.trim Str.trimStart Str.trimEnd Str.truthy].
  by rewrite app_nil_r.
Qed.

Lemma getGitChanges_one_per_line_witness :
  Tree.getGitChanges (Some (unlines [" M a/b.txt"; "   "; "A  a/c/d.txt"]))
  = List.map Tree.parseStatusLine
      (List.filter (fun line => Str.truthy (Str.trim line))
                   [" M a/b.txt"; "   "; "A  a/c/d.txt"]).
Proof.
  apply (getGitChanges_one_per_line [" M a/b.txt"; "   "; "A  a/c/d.txt"]).
  repeat constructor.
Defined.

Section IpcMore.
Import Ipc.
Context {JSON : Type} (JSON_parse : string -> option JSON).

(** What the server does with one line. *)
Definition deliverLine (line : string) : list JSON :=
  if Str.truthy (Str.trim line)
  then match JSON_parse line with Some msg => [msg] | None => [] end
  else [].

Lemma serverData_unlines lines :
  Forall (fun line => Str.split Str.LF line = [line]) lines ->
  serverData JSON JSON_parse (unlines lines) = flat_map deliverLine lines.
Proof.
  intros H. unfold serverData. rewrite (split_unlines _ H), flat_map_app.
  cbn [flat_map Str.trim Str.trimStart Str.trimEnd Str.truthy]. by rewrite !app_nil_r.
Qed.

Lemma step_settled c ev v :
  settled c = Some v -> settled (step JSON JSON_parse c ev) = Some v.
Proof.
  intros Hs.
  assert (Hres : forall x c0, settled c0 = Some v -> settled (resolve JSON x c0) = Some v).
  { intros x c0 H0. unfold resolve. by rewrite H0. }
  assert (Hlines : forall lines c0, settled c0 = Some v ->
                     settled (dataLines JSON JSON_parse lines c0) = Some v).
  { induction lines as [|line rest IH]; intros c0 H0; [done|]. cbn [dataLines].
    destruct (Str.truthy _); [|by apply IH].
    destruct (JSON_parse line); [by apply Hres | by apply IH]. }
  destruct ev; cbn [step]; try by apply Hres.
  - done.
  - by apply Hlines.
  - destruct (timeoutArmed c); [by apply Hres | done].
Qed.

Lemma steps_settled events : forall c v,
  settled c = Some v -> settled (fold_left (step JSON JSON_parse) events c) = Some v.
Proof.
  induction events as [|ev rest IH]; intros c v Hs; [done|].
  cbn [fold_left]. apply IH. by apply step_settled.
Qed.

Lemma dataLines_none lines : forall c,
  Forall (fun line => JSON_parse line = None) lines ->
  settled (dataLines JSON JSON_parse lines c) = settled c
  /\ buffer (dataLines JSON JSON_parse lines c) = buffer c.
Proof.
  induction lines as [|line rest IH]; intros c Hall; [done|].
  apply Forall_cons in Hall as [Hl Hrest]. cbn [dataLines]. rewrite Hl.
  destruct (Str.truthy _); [|by apply IH].
  destruct (IH (clearTimeout JSON c) Hrest) as [-> ->]. done.
Qed.

End IpcMore.

(** X25. The server parses every line of a write on its own: a write of
    several lines, each closed by a line feed, hands to [onMessage] the
    values of the lines that are not blank and that parse, in order, and
    drops the others. *)
Theorem serverData_parses_each_line
        {JSON : Type} (JSON_parse : string -> option JSON) (lines : list string) :
  Forall (fun line => Str.split Str.LF line = [line]) lines ->
  Ipc.serverData JSON JSON_parse (unlines lines)
  = flat_map (deliverLine JSON_parse) lines.
Proof. apply serverData_unlines. Qed.

Lemma serverData_parses_each_line_witness :
  Ipc.serverData Demo.Message Demo.parseMessage
    (unlines [Demo.typed "ping"; "oops"; Demo.typed "refresh"])
  = flat_map (deliverLine Demo.parseMessage) [Demo.typed "ping"; "oops"; Demo.typed "refresh"].
Proof.
  apply (serverData_parses_each_line Demo.parseMessage
           [Demo.typed "ping"; "oops"; Demo.typed "refresh"]).
  repeat constructor.
Defined.

(** X26. The promise of [sendCommand] settles once: after it has settled
    with a value, no later event (data, close, error, timer) changes
    that value. *)
Theorem sendCommand_settles_once
        {JSON : Type} (JSON_parse : string -> option JSON)
        (before after : list Ipc.Event) (v : option JSON) :
  Ipc.settled (Ipc.run JSON JSON_parse before) = Some v ->
  Ipc.settled (Ipc.run JSON JSON_parse (before ++ after)) = Some v.
Proof.
  intros H. unfold Ipc.run in *. rewrite fold_left_app. by apply steps_settled.
Qed.

Lemma sendCommand_settles_once_witness :
  Ipc.settled
    (Ipc.run Demo.Message Demo.parseMessage
       ([Ipc.EvOpen; Ipc.EvData (unlines [Demo.typed "pong"])]
        ++ [Ipc.EvData (unlines [Demo.typed "ready"]); Ipc.EvClose; Ipc.EvTimerFires]))
  = Some (Some Demo.MsgPong).
Proof.
  apply (sendCommand_settles_once Demo.parseMessage
           [Ipc.EvOpen; Ipc.EvData (unlines [Demo.typed "pong"])]).
  reflexivity.
Defined.

(** X27. A close, an error or a failed connection always settles the
    promise: whatever came before and whatever comes after, the promise
    is settled, with the value it had if it was settled before, and with
    [null] otherwise. *)
Theorem sendCommand_failure_settles
        {JSON : Type} (JSON_parse : string -> option JSON)
        (before after : list Ipc.Event) (ev : Ipc.Event) :
  ev = Ipc.EvClose \/ ev = Ipc.EvError \/ ev = Ipc.EvConnectFailed ->
  Ipc.settled (Ipc.run JSON JSON_parse (before ++ ev :: after))
  = Some (default None (Ipc.settled (Ipc.run JSON JSON_parse before))).
Proof.
  intros Hev. unfold Ipc.run. rewrite fold_left_app. cbn [fold_left].
  apply steps_settled.
  generalize (fold_left (Ipc.step JSON JSON_parse) before (Ipc.sendCommandStart JSON)).
  intros c. destruct Hev as [-> | [-> | ->]]; cbn [Ipc.step]; unfold Ipc.resolve;
    cbn [Ipc.settled Ipc.clearTimeout]; destruct (Ipc.settled c) eqn:E; cbn; by rewrite ?E.
Qed.

Lemma sendCommand_failure_settles_witness :
  Ipc.settled
    (Ipc.run Demo.Message Demo.parseMessage
       ([Ipc.EvOpen; Ipc.EvData Demo.badReply] ++ Ipc.EvClose :: [Ipc.EvTimerFires]))
  = Some (default None
            (Ipc.settled
               (Ipc.run Demo.Message Demo.parseMessage [Ipc.EvOpen; Ipc.EvData Demo.badReply]))).
Proof.
  apply (sendCommand_failure_settles Demo.parseMessage
           [Ipc.EvOpen; Ipc.EvData Demo.badReply] [Ipc.EvTimerFires] Ipc.EvClose).
  by left.
Defined.



Section ServerClients.
Import Ipc.
Context {Socket : Type} `{EqDecision Socket} {Msg : Type} (JSON_stringify : Msg -> string).

(** Whether a socket is connected after a sequence of events: its last
    open or close decides. *)
Definition connectedAfter (events : list (@ServerEvent Socket Msg)) (s : Socket) : bool :=
  fold_left
    (fun connected ev =>
       match ev with
       | SocketOpen x => if decide (x = s) then true else connected
       | SocketClose x => if decide (x = s) then false else connected
       | Broadcast _ => connected
       end)
    events false.

Lemma elem_of_setAdd (x y : Socket) l : y ∈ setAdd x l <-> y = x \/ y ∈ l.
Proof.
  unfold setAdd. destruct (decide (x ∈ l)) as [Hin|Hin].
  - split; [by right | intros [-> | ?]; done].
  - rewrite elem_of_app, list_elem_of_singleton. tauto.
Qed.

Lemma NoDup_setAdd (x : Socket) l : NoDup l -> NoDup (setAdd x l).
Proof.
  intros Hl. unfold setAdd. destruct (decide (x ∈ l)) as [Hin|Hin]; [done|].
  apply NoDup_app. split_and!; [done | | apply NoDup_singleton].
  intros y Hy Hy'. apply list_elem_of_singleton in Hy'. by subst.
Qed.

Lemma serverRun_snoc (events : list (@ServerEvent Socket Msg))
      (ev : @ServerEvent Socket Msg) :
  serverRun JSON_stringify (events ++ [ev])
  = serverStep JSON_stringify (serverRun JSON_stringify events) ev.
Proof. unfold serverRun. by rewrite fold_left_app. Qed.

Lemma connectedAfter_snoc (events : list (@ServerEvent Socket Msg))
      (ev : @ServerEvent Socket Msg) (s : Socket) :
  connectedAfter (events ++ [ev]) s
  = match ev with
    | SocketOpen x => if decide (x = s) then true else connectedAfter events s
    | SocketClose x => if decide (x = s) then false else connectedAfter events s
    | Broadcast _ => connectedAfter events s
    end.
Proof. unfold connectedAfter. by rewrite fold_left_app. Qed.

Lemma clients_invariant (events : list (@ServerEvent Socket Msg)) :
  NoDup (clients (serverRun JSON_stringify events))
  /\ forall s, s ∈ clients (serverRun JSON_stringify events) <-> connectedAfter events s = true.
Proof.
  induction events as [|ev events [IHn IHc]] using rev_ind.
  - split; [constructor|]. intros s. cbn. split; [by intros ?%elem_of_nil | done].
  - rewrite serverRun_snoc. split.
    + destruct ev; cbn [serverStep clients broadcast]; [by apply NoDup_setAdd | | done].
      by apply NoDup_filter.
    + intros s. rewrite connectedAfter_snoc.
      destruct ev as [x|x|m]; cbn [serverStep clients broadcast].
      * rewrite elem_of_setAdd, IHc. destruct (decide (x = s)) as [->|Hne]; [tauto|].
        split; [intros [-> | ?]; done | by right].
      * unfold setDelete. rewrite list_elem_of_filter, IHc.
        destruct (decide (x = s)) as [->|Hne]; [split; [by intros [? ?] | done]|].
        split; [by intros [? ?] | intros ?; split; [congruence | done]].
      * apply IHc.
Qed.

End ServerClients.

(** X29. [broadcast] writes the message, once, to each socket that is
    connected and to no other: after any sequence of connects,
    disconnects and broadcasts the client set holds no socket twice and
    holds exactly the sockets whose last event was a connect, and a
    broadcast appends one write of the serialised message and a line
    feed for each of them. *)
Theorem broadcast_reaches_each_client_once
        {Socket : Type} `{EqDecision Socket} {Msg : Type} (JSON_stringify : Msg -> string)
        (events : list (@Ipc.ServerEvent Socket Msg)) (msg : Msg) :
  NoDup (Ipc.clients (Ipc.serverRun JSON_stringify events))
  /\ (forall s, s ∈ Ipc.clients (Ipc.serverRun JSON_stringify events)
                <-> connectedAfter events s = true)
  /\ Ipc.written (Ipc.serverRun JSON_stringify (events ++ [Ipc.Broadcast msg]))
     = Ipc.written (Ipc.serverRun JSON_stringify events)
       ++ List.map (fun client => (client, JSON_stringify msg +:+ String Str.LF EmptyString))
                   (Ipc.clients (Ipc.serverRun JSON_stringify events)).
Proof.
  destruct (clients_invariant JSON_stringify events) as [Hn Hc].
  split_and!; [done | done |]. by rewrite serverRun_snoc.
Qed.

(** ** The command line *)

Section CommandLine.
Import Cli.

Lemma indexOf_absent x l : ~ In x l -> Str.indexOf x l = -1.
Proof.
  induction l as [|y t IH]; [done|]. cbn [In Str.indexOf]. intros Hn.
  destruct (String.eqb_spec y x) as [->|_]; [tauto|].
  rewrite IH by tauto. reflexivity.
Qed.

Lemma indexOf_first x pre rest :
  ~ In x pre -> Str.indexOf x (pre ++ x :: rest) = Z.of_nat (length pre).
Proof.
  induction pre as [|y t IH]; cbn [In app Str.indexOf length]; intros Hn.
  - by rewrite String.eqb_refl.
  - destruct (String.eqb_spec y x) as [->|_]; [tauto|].
    rewrite IH by tauto. destruct (Z.eqb_spec (Z.of_nat (length t)) (-1)); lia.
Qed.

(** X30. [getArg] reads the word after the first occurrence of the
    flag: with no flag among the arguments, or the flag as the last
    word, it gives [undefined]; otherwise the word that follows,
    whatever it is. *)
Theorem getArg_reads_word_after_flag (name : string) (pre : list string) :
  ~ In ("--" +:+ name) pre ->
  getArg pre name = None
  /\ getArg (pre ++ ["--" +:+ name]) name = None
  /\ forall value post, getArg (pre ++ ("--" +:+ name) :: value :: post) name = Some value.
Proof.
  intros Hn. unfold getArg. split_and!.
  - by rewrite indexOf_absent.
  - rewrite indexOf_first by done.
    destruct (Z.eqb_spec (Z.of_nat (length pre)) (-1)); [lia|].
    apply lookup_ge_None. rewrite length_app. cbn. lia.
  - intros value post. rewrite indexOf_first by done.
    destruct (Z.eqb_spec (Z.of_nat (length pre)) (-1)); [lia|].
    replace (Z.to_nat (Z.of_nat (length pre) + 1)) with (length pre + 1)%nat by lia.
    rewrite lookup_app_r by lia. by replace (length pre + 1 - length pre)%nat with 1%nat by lia.
Qed.

End CommandLine.

Lemma getArg_witness :
  Cli.getArg ["toggle"] "cwd" = None
  /\ Cli.getArg (["toggle"] ++ ["--" +:+ "cwd"]) "cwd" = None
  /\ forall value post,
       Cli.getArg (["toggle"] ++ ("--" +:+ "cwd") :: value :: post) "cwd" = Some value.
Proof.
  apply (getArg_reads_word_after_flag "cwd" ["toggle"]).
  intros [H | []]. discriminate H.
Defined.

(** ** Concrete sessions for the lifecycle *)

(** The session of pane %1 with its browser pane %2 recorded and live. *)
Definition activeWorld : Terminal.World :=
  Terminal.setPanes ({["%2"]} ∪ {["%1"]})
    (Terminal.setFiles {["/tmp/file-browser-pane-1" := "%2"]} Demo.baseWorld).

(** The session of pane %1 whose next split fails. *)
Definition failingSplitWorld : Terminal.World :=
  {| Terminal.env_TMUX := true;
     Terminal.tmuxBinary := true;
     Terminal.scriptDir := "/opt/file-browser/src";
     Terminal.files := ∅;
     Terminal.panes := {["%1"]};
     Terminal.currentPane := "%1";
     Terminal.splitWindow := (1, EmptyString);
     Terminal.tmuxLog := [];
     Terminal.stderr := [] |}.





Lemma lifecycle_frame_witness :
  Terminal.files (Terminal.after (Terminal.toggleBrowser "/proj") activeWorld)
    !! "/tmp/file-browser-pane-7"
  = Terminal.files activeWorld !! "/tmp/file-browser-pane-7"
  /\ Terminal.files (Terminal.after Terminal.closeBrowser activeWorld)
       !! "/tmp/file-browser-pane-7"
     = Terminal.files activeWorld !! "/tmp/file-browser-pane-7"
  /\ Terminal.files (Terminal.after (Terminal.spawnBrowser "/proj") activeWorld)
       !! "/tmp/file-browser-pane-7"
     = Terminal.files activeWorld !! "/tmp/file-browser-pane-7".
Proof.
  apply (lifecycle_touches_only_the_identity_file "/proj" activeWorld
           "/tmp/file-browser-pane-7").
  vm_compute. discriminate.
Defined.
